(** * Velocity estimation for tracking data (Metrica_Velocities.py)

    A shallow embedding of [calc_player_velocities] and
    [remove_player_velocities], and of the frame selection of [main]
    (main.py), which calls them.  Samples are IEEE binary64 numbers
    (the kernel's primitive floats), a pandas Series is the list of its
    values, a DataFrame is its row index with an ordered list of named
    columns, and the DataFrame objects live in a store so that the
    aliasing between the caller's table and the table the estimator
    writes to is visible. *)

From Stdlib Require Import ZArith String Ascii Bool Lia Floats Uint63 List Sorted.
Import ListNotations.

Set Warnings "-inexact-float".

Local Open Scope string_scope.
Local Open Scope list_scope.

(** ** Exceptions and results *)

(** The exceptions the code can raise.  [InvalidReference] stands for a
    location with no table in the store, which a Python reference never
    is. *)
Inductive exn : Type :=
| KeyError (key : string)
| ValueError
| InvalidReference.

Inductive result (A : Type) : Type :=
| Ok (a : A)
| Raise (e : exn).

Arguments Ok {A} a.
Arguments Raise {A} e.

Definition rbind {A B} (r : result A) (k : A -> result B) : result B :=
  match r with
  | Ok a => k a
  | Raise e => Raise e
  end.

Definition rmap {A B} (f : A -> B) (r : result A) : result B :=
  rbind r (fun a => Ok (f a)).

Declare Scope result_scope.
Delimit Scope result_scope with result.
Notation "x <- r ;; k" := (rbind r (fun x => k))
  (at level 61, r at next level, right associativity) : result_scope.
Notation "' p <- r ;; k" := (rbind r (fun p => k))
  (at level 61, p pattern, r at next level, right associativity) : result_scope.

(** ** Samples and series *)

Definition series := list float.

Definition float_of_Z (z : Z) : float := PrimFloat.of_uint63 (Uint63.of_Z z).
Definition float_of_nat (n : nat) : float := float_of_Z (Z.of_nat n).

Definition isna (v : float) : bool := PrimFloat.is_nan v.

(** [np.isfinite] *)
Definition isfinite (v : float) : bool :=
  negb (PrimFloat.is_nan v) && negb (PrimFloat.is_infinity v).

Fixpoint map2 {A B C} (f : A -> B -> C) (l : list A) (l' : list B) : list C :=
  match l, l' with
  | a :: t, b :: t' => f a b :: map2 f t t'
  | _, _ => []
  end.

(** [Series.diff()]: the first row has no predecessor and is NaN. *)
Fixpoint diff_from (prev : float) (s : series) : series :=
  match s with
  | [] => []
  | x :: t => PrimFloat.sub x prev :: diff_from x t
  end.

Definition diff (s : series) : series :=
  match s with
  | [] => []
  | x :: t => nan :: diff_from x t
  end.

(** Element-wise arithmetic of two series with the same index. *)
Definition sdiv : series -> series -> series := map2 PrimFloat.div.

(** [np.sqrt(vx**2 + vy**2)] *)
Definition speed_of (vx vy : float) : float :=
  PrimFloat.sqrt (PrimFloat.add (PrimFloat.mul vx vx) (PrimFloat.mul vy vy)).

Definition sspeed : series -> series -> series := map2 speed_of.

(** [s.replace([np.inf, -np.inf], np.nan)] *)
Definition replace_inf (s : series) : series :=
  map (fun v => if PrimFloat.is_infinity v then nan else v) s.

(** The next valid sample of a series: its offset and its value. *)
Fixpoint next_valid (s : series) : option (nat * float) :=
  match s with
  | [] => None
  | x :: t =>
      if isna x then
        match next_valid t with
        | Some (k, v) => Some (S k, v)
        | None => None
        end
      else Some (O, x)
  end.

(** One point of [np.interp] between the valid samples [(j, fj)] and
    [(k, fk)], at abscissa [i]. *)
Definition np_interp_point (j : nat) (fj : float) (k : nat) (fk : float)
    (i : nat) : float :=
  let xj := float_of_nat j in
  let xk := float_of_nat k in
  let x := float_of_nat i in
  let slope := PrimFloat.div (PrimFloat.sub fk fj) (PrimFloat.sub xk xj) in
  let r := PrimFloat.add (PrimFloat.mul slope (PrimFloat.sub x xj)) fj in
  if isna r then
    let r' := PrimFloat.add (PrimFloat.mul slope (PrimFloat.sub x xk)) fk in
    if isna r' && PrimFloat.eqb fj fk then fj else r'
  else r.

(** [s.interpolate(limit_direction="both")]: linear in the row position
    between valid neighbours, the nearest valid value outside them, and
    the series as it is when no sample is valid. *)
Fixpoint interp_from (i : nat) (prev : option (nat * float)) (s : series)
    : series :=
  match s with
  | [] => []
  | x :: t =>
      if isna x then
        match prev, next_valid t with
        | Some (j, fj), Some (k, fk) => np_interp_point j fj (i + 1 + k) fk i
        | Some (_, fj), None => fj
        | None, Some (_, fk) => fk
        | None, None => x
        end :: interp_from (S i) prev t
      else x :: interp_from (S i) (Some (i, x)) t
  end.

Definition interpolate (s : series) : series := interp_from 0 None s.

(** [s.bfill()] and [s.ffill()] *)
Fixpoint bfill (s : series) : series :=
  match s with
  | [] => []
  | x :: t =>
      let t' := bfill t in
      (if isna x then match t' with y :: _ => y | [] => x end else x) :: t'
  end.

Fixpoint ffill_from (prev : option float) (s : series) : series :=
  match s with
  | [] => []
  | x :: t =>
      if isna x
      then match prev with Some p => p | None => x end :: ffill_from prev t
      else x :: ffill_from (Some x) t
  end.

Definition ffill (s : series) : series := ffill_from None s.

(** ** Boolean-mask selection and assignment ([s.loc[mask]]) *)

Fixpoint loc_get (mask : list bool) (s : series) : series :=
  match mask, s with
  | m :: mt, x :: t => if m then x :: loc_get mt t else loc_get mt t
  | _, _ => []
  end.

Fixpoint loc_put (mask : list bool) (s vals : series) : series :=
  match mask, s with
  | m :: mt, x :: t =>
      if m then
        match vals with
        | v :: vt => v :: loc_put mt t vt
        | [] => x :: loc_put mt t []
        end
      else x :: loc_put mt t vals
  | _, _ => s
  end.

Definition count_true (mask : list bool) : nat :=
  length (filter (fun b => b) mask).

(** [s.loc[mask] = vals] raises unless [vals] has one value per selected
    row. *)
Definition loc_set (mask : list bool) (s vals : series) : result series :=
  if Nat.eqb (length vals) (count_true mask)
  then Ok (loc_put mask s vals)
  else Raise ValueError.

(** [s[:] = vals] *)
Definition set_all (s vals : series) : result series :=
  if Nat.eqb (length vals) (length s) then Ok vals else Raise ValueError.

(** ** [np.convolve(a, v, mode='same')] *)

(** One output sample of [correlate]: the products of the overlapping
    samples only, accumulated from zero in the order of the taps.  The
    library leaves the order of the additions to its dot product, so
    the last bits of a sample can differ from this sum; the properties
    below state the lengths, the failures and how the samples depend on
    the input, not their digits. *)
Definition dot_at (a v : series) (start : Z) : float :=
  fold_left
    (fun acc iw =>
       let j := (start + Z.of_nat (fst iw))%Z in
       if ((0 <=? j) && (j <? Z.of_nat (length a)))%Z
       then PrimFloat.add acc (PrimFloat.mul (nth (Z.to_nat j) a 0%float) (snd iw))
       else acc)
    (combine (seq 0 (length v)) v) 0%float.

Definition correlate_same (a v : series) : series :=
  let n_left := Z.of_nat (length v / 2) in
  map (fun k => dot_at a v (Z.of_nat k - n_left)%Z) (seq 0 (length a)).

Definition np_convolve_same (a v : series) : result series :=
  let (a, v) := if Nat.ltb (length a) (length v) then (v, a) else (a, v) in
  match a, v with
  | [], _ => Raise ValueError
  | _, [] => Raise ValueError
  | _, _ => Ok (correlate_same a (rev v))
  end.

(** [np.ones(int(window)) / float(window)] *)
Definition ma_kernel (window : Z) : result series :=
  if (window <? 0)%Z then Raise ValueError
  else Ok (repeat (PrimFloat.div 1%float (float_of_Z window)) (Z.to_nat window)).

(** ** Field names *)

(** [s.split(sep)] for a one-character separator. *)
Fixpoint split (sep : ascii) (s : string) : list string :=
  match s with
  | EmptyString => [EmptyString]
  | String c t =>
      if Ascii.eqb c sep then EmptyString :: split sep t
      else match split sep t with
           | h :: r => String c h :: r
           | [] => [String c EmptyString]
           end
  end.

(** [s[:n]] *)
Fixpoint slice_to (n : nat) (s : string) : string :=
  match n, s with
  | S n', String c t => String c (slice_to n' t)
  | _, _ => EmptyString
  end.

(** [s[:-2]] *)
Definition drop_last2 (s : string) : string :=
  slice_to (String.length s - 2) s.

(** [s.endswith(suffix)] *)
Fixpoint endswith (s suffix : string) : bool :=
  String.eqb s suffix ||
  match s with
  | EmptyString => false
  | String _ t => endswith t suffix
  end.

Definition mem_string (s : string) (l : list string) : bool :=
  existsb (String.eqb s) l.

Definition derived_suffixes : list string :=
  ["vx"; "vy"; "ax"; "ay"; "speed"; "acceleration"].

(** [c.split('_')[-1] in ['vx', 'vy', 'ax', 'ay', 'speed', 'acceleration']] *)
Definition is_derived (c : string) : bool :=
  mem_string (last (split "_" c) EmptyString) derived_suffixes.

(** [c[:4] in ['Home', 'Away'] and c.endswith(('_x', '_y'))] *)
Definition has_team_tag (c : string) : bool :=
  mem_string (slice_to 4 c) ["Home"; "Away"].

Definition is_position (c : string) : bool :=
  has_team_tag c && (endswith c "_x" || endswith c "_y").

(** [np.unique] on names: sorted, without repeats. *)
Fixpoint insert_unique (x : string) (l : list string) : list string :=
  match l with
  | [] => [x]
  | y :: t =>
      match String.compare x y with
      | Lt => x :: l
      | Eq => l
      | Gt => y :: insert_unique x t
      end
  end.

Definition np_unique (l : list string) : list string :=
  fold_right insert_unique [] l.

(** ** Tables *)

(** The row index (integer labels, the frame numbers) and the fields in
    their order.  Field names are taken to be distinct, as those of a
    tracking table are; [df[name]] is then the one field of that name. *)
Record DataFrame : Type := mkDataFrame {
  index : list Z;
  columns : list (string * series)
}.

Definition names (df : DataFrame) : list string := map fst (columns df).

(** [df[name]] *)
Definition get_column (df : DataFrame) (name : string) : result series :=
  match find (fun c => String.eqb (fst c) name) (columns df) with
  | Some c => Ok (snd c)
  | None => Raise (KeyError name)
  end.

(** [df[name] = s]: an existing field is overwritten in place, a new one
    is appended. *)
Fixpoint put_column (cols : list (string * series)) (name : string)
    (s : series) : list (string * series) :=
  match cols with
  | [] => [(name, s)]
  | c :: t =>
      if String.eqb (fst c) name then (name, s) :: t
      else c :: put_column t name s
  end.

Definition set_column (df : DataFrame) (name : string) (s : series)
    : DataFrame :=
  mkDataFrame (index df) (put_column (columns df) name s).

(** [df.drop(columns=cols)]: a new table. *)
Definition drop (df : DataFrame) (cols : list string) : DataFrame :=
  mkDataFrame (index df)
    (filter (fun c => negb (mem_string (fst c) cols)) (columns df)).

(** ** The store of tables *)

Definition loc := nat.
Definition store := list DataFrame.

Definition M (A : Type) : Type := store -> result A * store.

Definition ret {A} (a : A) : M A := fun h => (Ok a, h).

Definition bind {A B} (m : M A) (k : A -> M B) : M B :=
  fun h =>
    match m h with
    | (Ok a, h') => k a h'
    | (Raise e, h') => (Raise e, h')
    end.

Definition lift {A} (r : result A) : M A := fun h => (r, h).

Declare Scope M_scope.
Delimit Scope M_scope with M.
Notation "x <- m ;; k" := (bind m (fun x => k))
  (at level 61, m at next level, right associativity) : M_scope.
Notation "m ;; k" := (bind m (fun _ => k))
  (at level 61, right associativity) : M_scope.

Definition read (l : loc) : M DataFrame :=
  fun h =>
    match nth_error h l with
    | Some df => (Ok df, h)
    | None => (Raise InvalidReference, h)
    end.

Fixpoint update (h : store) (l : loc) (df : DataFrame) : store :=
  match h, l with
  | [], _ => []
  | _ :: t, O => df :: t
  | d :: t, S l' => d :: update t l' df
  end.

Definition write (l : loc) (df : DataFrame) : M unit :=
  fun h => (Ok tt, update h l df).

Definition alloc (df : DataFrame) : M loc :=
  fun h => (Ok (length h), h ++ [df]).

Fixpoint for_each {A} (l : list A) (body : A -> M unit) : M unit :=
  match l with
  | [] => ret tt
  | a :: t => (body a ;; for_each t body)%M
  end.

(** ** [remove_player_velocities] *)

Definition derived_columns (df : DataFrame) : list string :=
  filter is_derived (names df).

Definition remove_player_velocities (team : loc) : M loc :=
  (df <- read team ;;
   let cols := derived_columns df in
   if Nat.ltb 0 (length cols) then alloc (drop df cols) else ret team)%M.

(** ** [calc_player_velocities] *)

Definition SAVGOL : string := "Savitzky-Golay".
Definition MOVING_AVERAGE : string := "moving average".

(** [if maxspeed and maxspeed > 0]: [None] is an absent bound. *)
Definition maxspeed_enabled (maxspeed : option float) : bool :=
  match maxspeed with
  | None => false
  | Some m => negb (PrimFloat.eqb m 0%float) && PrimFloat.ltb 0%float m
  end.

(** [s[mask] = np.nan] *)
Fixpoint put_nan (mask : list bool) (s : series) : series :=
  match mask, s with
  | m :: mt, x :: t => (if m then nan else x) :: put_nan mt t
  | _, _ => s
  end.

(** Lines 88-91: samples faster than [maxspeed] lose both components. *)
Definition reject_outliers (maxspeed : option float) (vx vy : series)
    : series * series :=
  if maxspeed_enabled maxspeed then
    match maxspeed with
    | Some m =>
        let raw_speed := sspeed vx vy in
        let too_fast := map (fun s => PrimFloat.ltb m s) raw_speed in
        (put_nan too_fast vx, put_nan too_fast vy)
    | None => (vx, vy)
    end
  else (vx, vy).

(** Lines 42-46: the index label of the first row of the second half. *)
Fixpoint first_label (idx : list Z) (period : series) : option Z :=
  match idx, period with
  | l :: it, p :: pt =>
      if PrimFloat.eqb p 2%float then Some l else first_label it pt
  | _, _ => None
  end.

Definition find_second_half (team : DataFrame) : option Z :=
  if mem_string "Period" (names team) then
    match get_column team "Period" with
    | Ok period => first_label (index team) period
    | Raise _ => None
    end
  else None.

Definition mask_le (idx : list Z) (b : Z) : list bool :=
  map (fun l => (l <=? b)%Z) idx.

Definition mask_ge (idx : list Z) (b : Z) : list bool :=
  map (fun l => (b <=? l)%Z) idx.

(** Lines 53-58 of [_savgol_safe]. *)
Definition fill_gaps (s : series) : series :=
  ffill (bfill (interpolate (replace_inf s))).

(** Lines 60-73 of [_savgol_safe]: the window that is applied, or [None]
    when the series is returned without filtering. *)
Definition savgol_window (n win : Z) : option Z :=
  let w := win in
  if (w <? 3)%Z then None
  else
    let w := if (w mod 2 =? 0)%Z then (w + 1)%Z else w in
    let w :=
      if (w >? n)%Z then (if (n mod 2 =? 1)%Z then n else n - 1)%Z else w in
    if (w <? 3)%Z then None else Some w.

(** Lines 76-78 of [_savgol_safe]. *)
Definition savgol_polyorder (w poly : Z) : Z :=
  let p := poly in
  if (p >=? w)%Z then Z.max 1 (w - 1) else p.

Section Estimator.

(** The least-squares fit of [scipy.signal.savgol_filter], which is not
    part of this repository. *)
Variable savgol_fit : series -> Z -> Z -> series.

(** [signal.savgol_filter(x, window_length, polyorder)] in its default
    mode.  It refuses its arguments unless the window is odd, positive
    and no longer than the data and the order is from 0 to below the
    window.  It then fits a polynomial to the first and to the last
    [window_length] samples, and this fit fails on a sample that is NaN
    or infinite (numpy's [LinAlgError], a [ValueError]); samples
    between the two windows are only convolved.  So a series that is
    all NaN is refused. *)
Definition savgol_filter (x : series) (window_length polyorder : Z)
    : result series :=
  if ((0 <? window_length) && Z.odd window_length
      && (window_length <=? Z.of_nat (length x))
      && (0 <=? polyorder) && (polyorder <? window_length))%Z
     && forallb isfinite (firstn (Z.to_nat window_length) x)
     && forallb isfinite (skipn (length x - Z.to_nat window_length) x)
  then Ok (savgol_fit x window_length polyorder)
  else Raise ValueError.

Definition _savgol_safe (s : series) (win poly : Z) : result series :=
  let s := fill_gaps s in
  let n := Z.of_nat (length s) in
  match savgol_window n win with
  | None => Ok s
  | Some w => savgol_filter s w (savgol_polyorder w poly)
  end.

(** Lines 99-111. *)
Definition smooth_savgol (idx : list Z) (second_half_idx : option Z)
    (window polyorder : Z) (vx vy : series) : result (series * series) :=
  match second_half_idx with
  | None =>
      (r <- _savgol_safe vx window polyorder ;;
       vx <- set_all vx r ;;
       r <- _savgol_safe vy window polyorder ;;
       vy <- set_all vy r ;;
       Ok (vx, vy))%result
  | Some b =>
      let mask1 := mask_le idx b in
      let mask2 := mask_ge idx b in
      (r <- _savgol_safe (loc_get mask1 vx) window polyorder ;;
       vx <- loc_set mask1 vx r ;;
       r <- _savgol_safe (loc_get mask1 vy) window polyorder ;;
       vy <- loc_set mask1 vy r ;;
       r <- _savgol_safe (loc_get mask2 vx) window polyorder ;;
       vx <- loc_set mask2 vx r ;;
       r <- _savgol_safe (loc_get mask2 vy) window polyorder ;;
       vy <- loc_set mask2 vy r ;;
       Ok (vx, vy))%result
  end.

(** Lines 113-133. *)
Definition smooth_moving_average (idx : list Z)
    (second_half_idx : option Z) (window : Z) (vx vy : series)
    : result (series * series) :=
  (ma_window <- ma_kernel window ;;
   match second_half_idx with
   | None =>
       let vx_vals := bfill (ffill vx) in
       let vy_vals := bfill (ffill vy) in
       r <- np_convolve_same vx_vals ma_window ;;
       vx <- set_all vx r ;;
       r <- np_convolve_same vy_vals ma_window ;;
       vy <- set_all vy r ;;
       Ok (vx, vy)
   | Some b =>
       let mask1 := mask_le idx b in
       let mask2 := mask_ge idx b in
       let vx1 := bfill (ffill (loc_get mask1 vx)) in
       let vy1 := bfill (ffill (loc_get mask1 vy)) in
       let vx2 := bfill (ffill (loc_get mask2 vx)) in
       let vy2 := bfill (ffill (loc_get mask2 vy)) in
       r <- np_convolve_same vx1 ma_window ;;
       vx <- loc_set mask1 vx r ;;
       r <- np_convolve_same vy1 ma_window ;;
       vy <- loc_set mask1 vy r ;;
       r <- np_convolve_same vx2 ma_window ;;
       vx <- loc_set mask2 vx r ;;
       r <- np_convolve_same vy2 ma_window ;;
       vy <- loc_set mask2 vy r ;;
       Ok (vx, vy)
   end)%result.

(** Lines 98-133. *)
Definition smooth (idx : list Z) (second_half_idx : option Z)
    (smoothing : bool) (filter_ : string) (window polyorder : Z)
    (vx vy : series) : result (series * series) :=
  if smoothing then
    if String.eqb filter_ SAVGOL then
      smooth_savgol idx second_half_idx window polyorder vx vy
    else if String.eqb filter_ MOVING_AVERAGE then
      smooth_moving_average idx second_half_idx window vx vy
    else Ok (vx, vy)
  else Ok (vx, vy).

(** Lines 84-85. *)
Definition raw_velocities (team : DataFrame) (dt : series)
    (player : string) : result (series * series) :=
  (x <- get_column team (player ++ "_x") ;;
   let vx := sdiv (diff x) dt in
   y <- get_column team (player ++ "_y") ;;
   let vy := sdiv (diff y) dt in
   Ok (vx, vy))%result.

(** Lines 93-95. *)
Definition repair_gaps (s : series) : series :=
  interpolate (replace_inf s).

(** Lines 84-133 and 138: the three series written for one player. *)
Definition player_velocities (team : DataFrame) (dt : series)
    (second_half_idx : option Z) (smoothing : bool) (filter_ : string)
    (window polyorder : Z) (maxspeed : option float) (player : string)
    : result (series * series * series) :=
  ('(vx, vy) <- raw_velocities team dt player ;;
   let '(vx, vy) := reject_outliers maxspeed vx vy in
   let vx := repair_gaps vx in
   let vy := repair_gaps vy in
   '(vx, vy) <- smooth (index team) second_half_idx smoothing filter_
                  window polyorder vx vy ;;
   Ok (vx, vy, sspeed vx vy))%result.

(** Lines 136-138. *)
Definition add_velocities (team : DataFrame) (player : string)
    (v : series * series * series) : DataFrame :=
  let '(vx, vy, speed) := v in
  let team := set_column team (player ++ "_vx") vx in
  let team := set_column team (player ++ "_vy") vy in
  set_column team (player ++ "_speed") speed.

(** Lines 33-36. *)
Definition player_ids_of (team : DataFrame) : list string :=
  np_unique (map drop_last2 (filter is_position (names team))).

(** Lines 83-138: one pass of the loop over the players. *)
Definition player_step (team : loc) (dt : series)
    (second_half_idx : option Z) (smoothing : bool) (filter_ : string)
    (window polyorder : Z) (maxspeed : option float) (player : string)
    : M unit :=
  (df <- read team ;;
   v <- lift (player_velocities df dt second_half_idx smoothing filter_
                window polyorder maxspeed player) ;;
   write team (add_velocities df player v))%M.

Definition calc_player_velocities (team : loc) (smoothing : bool)
    (filter_ : string) (window polyorder : Z) (maxspeed : option float)
    : M loc :=
  (team <- remove_player_velocities team ;;
   df <- read team ;;
   let player_ids := player_ids_of df in
   time <- lift (get_column df "Time [s]") ;;
   let dt := diff time in
   let second_half_idx := find_second_half df in
   for_each player_ids
     (player_step team dt second_half_idx smoothing filter_ window
        polyorder maxspeed) ;;
   ret team)%M.

End Estimator.

(** ** [main]: the frames that are animated *)

(** Every [gap + 1]-th element of a list, after skipping [k]. *)
Fixpoint take_every (gap k : nat) (l : list Z) : list Z :=
  match l with
  | [] => []
  | x :: t =>
      match k with
      | O => x :: take_every gap gap t
      | S k' => take_every gap k' t
      end
  end.

(** [index[::step]]: a zero step is refused, a negative one walks the
    index backwards from its last label. *)
Definition index_step (idx : list Z) (step : Z) : result (list Z) :=
  if (step =? 0)%Z then Raise ValueError
  else if (0 <? step)%Z then Ok (take_every (Z.to_nat step - 1) 0 idx)
  else Ok (take_every (Z.to_nat (- step) - 1) 0 (rev idx)).

(** [f in df.index] *)
Definition in_index (f : Z) (df : DataFrame) : bool :=
  existsb (Z.eqb f) (index df).

(** Lines 61-63 of [main]. *)
Definition select_frames (tracking_home tracking_away : DataFrame)
    (frame_step : Z) : result (list Z) :=
  (frames <- index_step (index tracking_home) frame_step ;;
   Ok (filter (fun f => in_index f tracking_away) frames))%result.

(** [df.loc[label]]: the values of every field at the rows that carry
    the label; [None] stands for the [KeyError] of a label that no row
    carries. *)
Definition loc_row (df : DataFrame) (label : Z)
    : option (list (string * series)) :=
  let mask := map (Z.eqb label) (index df) in
  if existsb (fun b => b) mask
  then Some (map (fun c => (fst c, loc_get mask (snd c))) (columns df))
  else None.

(** Lines 96-98 of [main]: the rows that [update(k)] reads; [None]
    stands for the [IndexError] of [frames[k]] or the [KeyError] of a
    lookup. *)
Definition update_rows (tracking_home tracking_away : DataFrame)
    (frames : list Z) (k : nat)
    : option (list (string * series) * list (string * series)) :=
  match nth_error frames k with
  | None => None
  | Some frame =>
      match loc_row tracking_home frame with
      | None => None
      | Some home_row =>
          match loc_row tracking_away frame with
          | None => None
          | Some away_row => Some (home_row, away_row)
          end
      end
  end.

(** Lines 51-52 and 61-63 of [main]: the two velocity calls with the
    default arguments, then the frame selection on the tables they
    return.  The calls in between (lines 57-58) go to modules outside
    this code and are taken to leave the two tables alone. *)
Definition main_frames (savgol_fit : series -> Z -> Z -> series)
    (tracking_home tracking_away : loc) (frame_step : Z)
    : M (loc * loc * list Z) :=
  (tracking_home <- calc_player_velocities savgol_fit tracking_home true
                      SAVGOL 7 1 (Some 12%float) ;;
   tracking_away <- calc_player_velocities savgol_fit tracking_away true
                      SAVGOL 7 1 (Some 12%float) ;;
   home <- read tracking_home ;;
   away <- read tracking_away ;;
   frames <- lift (select_frames home away frame_step) ;;
   ret (tracking_home, tracking_away, frames))%M.

(** ** Notions used to state the properties, and sample tables *)




(** A series with no valid sample. *)
Definition all_missing (s : series) : Prop :=
  Forall (fun v => isna v = true) s.

(** What a segment's smoother returns for the samples [seg] it reads. *)
Definition segment_smoother (savgol_fit : series -> Z -> Z -> series)
    (filter_ : string) (window polyorder : Z) (seg : series) : result series :=
  if String.eqb filter_ SAVGOL then _savgol_safe savgol_fit seg window polyorder
  else rbind (ma_kernel window) (fun k => np_convolve_same (bfill (ffill seg)) k).

(** The rank of row [i] among the rows a mask selects. *)
Definition rank (mask : list bool) (i : nat) : nat :=
  count_true (firstn i mask).

(** The order [np.unique] sorts names by. *)
Definition str_lt (x y : string) : Prop := String.compare x y = Lt.

(** The table without its derived fields. *)
Definition sanitize (df : DataFrame) : DataFrame :=
  mkDataFrame (index df)
    (filter (fun c => negb (is_derived (fst c))) (columns df)).

(** The three fields written for one player. *)
Definition velocity_columns (player : string) (v : series * series * series)
    : list (string * series) :=
  let '(vx, vy, speed) := v in
  [((player ++ "_vx")%string, vx); ((player ++ "_vy")%string, vy);
   ((player ++ "_speed")%string, speed)].

(** The fields the player loop has written when it stops, and how it
    stops. *)
Fixpoint added_columns (pv : string -> result (series * series * series))
    (ps : list string) : result unit * list (string * series) :=
  match ps with
  | [] => (Ok tt, [])
  | p :: t =>
      match pv p with
      | Ok v =>
          let (r, cols) := added_columns pv t in
          (r, velocity_columns p v ++ cols)
      | Raise e => (Raise e, [])
      end
  end.

(** Fields none of which, or all of which, are derived. *)
Definition no_derived (cols : list (string * series)) : Prop :=
  Forall (fun c => is_derived (fst c) = false) cols.

Definition all_derived (cols : list (string * series)) : Prop :=
  Forall (fun c => is_derived (fst c) = true) cols.

(** [n.split('_')[-1]] *)
Definition suffix_of (n : string) : string := last (split "_" n) EmptyString.

(** The table the estimator works on when it stops, as a function of the
    input table alone, and how it stops. *)
Definition estimate (savgol_fit : series -> Z -> Z -> series)
    (df : DataFrame) (smoothing : bool) (filter_ : string)
    (window polyorder : Z) (maxspeed : option float)
    : result unit * DataFrame :=
  let clean := sanitize df in
  match get_column clean "Time [s]" with
  | Raise e => (Raise e, clean)
  | Ok time =>
      let ac :=
        added_columns
          (player_velocities savgol_fit clean (diff time)
             (find_second_half clean) smoothing filter_ window polyorder
             maxspeed)
          (player_ids_of clean) in
      (fst ac, mkDataFrame (index df) (columns clean ++ snd ac))
  end.

(** Whether [remove_player_velocities] builds a new table. *)
Definition has_derived (df : DataFrame) : bool :=
  Nat.ltb 0 (length (derived_columns df)).

(** The series of a run that returned. *)
Definition velocities_or_empty (r : result (series * series * series))
    : series * series * series :=
  match r with
  | Ok v => v
  | Raise _ => ([], [], [])
  end.

(** A stand-in for the least-squares fit where a concrete run is needed. *)
Definition fit_identity (x : series) (w p : Z) : series := x.

(** Two rows of one player, with no derived field. *)
Definition two_rows : DataFrame :=
  mkDataFrame [1; 2]%Z
    [("Time [s]", [0; 0.04]%float);
     ("Home_1_x", [0; 0.1]%float);
     ("Home_1_y", [0; 0]%float)].

(** The same rows with a stale derived field. *)
Definition two_rows_stale : DataFrame :=
  mkDataFrame [1; 2]%Z
    [("Time [s]", [0; 0.04]%float);
     ("Home_1_x", [0; 0.1]%float);
     ("Home_1_speed", [9; 9]%float);
     ("Home_1_y", [0; 0]%float)].

(** A table whose only positions are the ball's. *)
Definition ball_only : DataFrame :=
  mkDataFrame [1; 2]%Z
    [("Time [s]", [0; 0.04]%float);
     ("ball_x", [0; 0.1]%float);
     ("ball_y", [0; 0]%float)].

(** Ten rows of one player moving 1.0 along x every 0.04 s. *)
Definition constant_velocity : DataFrame :=
  mkDataFrame (map Z.of_nat (seq 0 10))
    [("Time [s]", map (fun i => PrimFloat.mul (float_of_nat i) 0.04%float) (seq 0 10));
     ("Home_11_x", map float_of_nat (seq 0 10));
     ("Home_11_y", repeat 3%float 10)].

(** [v] is 25.0 up to rounding. *)
Definition near_25 (v : float) : bool :=
  PrimFloat.ltb (PrimFloat.abs (PrimFloat.sub v 25%float)) 1e-9%float.

(** Six rows over the half-time boundary (the second half starts at the
    row labelled 4), the player at rest. *)
Definition two_halves (x : series) : DataFrame :=
  mkDataFrame [1; 2; 3; 4; 5; 6]%Z
    [("Time [s]", [0; 0.04; 0.08; 0.12; 0.16; 0.2]%float);
     ("Period", [1; 1; 1; 2; 2; 2]%float);
     ("Home_1_x", x);
     ("Home_1_y", [0; 0; 0; 0; 0; 0]%float)].

(** The positions of a player who does not move. *)
Definition at_rest : series := [0; 0; 0; 0; 0; 0]%float.

(** A spike at the row preceding the boundary row. *)
Definition spike_before_boundary : series := [0; 0; 0.2; 0; 0; 0]%float.

(** A spike one row earlier. *)
Definition spike_earlier : series := [0; 0.2; 0; 0; 0; 0]%float.

(** Three rows, fewer than the default window of 7. *)
Definition three_rows : DataFrame :=
  mkDataFrame [1; 2; 3]%Z
    [("Time [s]", [0; 0.04; 0.08]%float);
     ("Home_1_x", [0; 0.1; 0.2]%float);
     ("Home_1_y", [0; 0; 0]%float)].

(** Every tagged prefix has both of its position fields, or neither. *)
Definition complete_players (df : DataFrame) : Prop :=
  forall p : string, has_team_tag p = true ->
    (In (p ++ "_x")%string (names df) <-> In (p ++ "_y")%string (names df)).

(** A table with a derived field, a ball and one tagged x without its y. *)
Definition lone_x : DataFrame :=
  mkDataFrame [1; 2]%Z
    [("Time [s]", [0; 0.04]%float);
     ("Home_1_x", [0; 0.1]%float);
     ("Home_1_y", [0; 0]%float);
     ("Home_2_x", [5; 5]%float)].

(** Two rows of one player, without the time field. *)
Definition no_time : DataFrame :=
  mkDataFrame [1; 2]%Z
    [("Home_1_x", [0; 0.1]%float);
     ("Home_1_vx", [7; 7]%float);
     ("Home_1_y", [0; 0]%float)].

(** Every field has one value per row. *)
Definition rectangular (df : DataFrame) : Prop :=
  Forall (fun c => length (snd c) = length (index df)) (columns df).

(** The names of the three fields written for a player. *)
Definition velocity_names (p : string) : list string :=
  [(p ++ "_vx")%string; (p ++ "_vy")%string; (p ++ "_speed")%string].

(** A sample that is neither missing nor infinite. *)
Definition valid (v : float) : bool :=
  negb (isna v) && negb (PrimFloat.is_infinity v).

(** Whether lines 88-91 reject a row with these raw components. *)
Definition rejected (maxspeed : option float) (vx vy : float) : bool :=
  maxspeed_enabled maxspeed &&
  match maxspeed with
  | Some m => PrimFloat.ltb m (speed_of vx vy)
  | None => false
  end.

(** The numbers of rows of the segments that are smoothed separately:
    the whole table without a half-time boundary, else the rows up to
    the boundary row and the rows from it on. *)
Definition segment_sizes (idx : list Z) (second_half_idx : option Z)
    : list nat :=
  match second_half_idx with
  | None => [length idx]
  | Some b => [count_true (mask_le idx b); count_true (mask_ge idx b)]
  end.

(** The windows the moving-average branch accepts. *)
Definition window_fits (idx : list Z) (second_half_idx : option Z)
    (window : Z) : Prop :=
  (1 <= window)%Z /\
  Forall (fun n => (window <= Z.of_nat n)%Z)
    (segment_sizes idx second_half_idx).

(** A decidable form of [complete_players]. *)
Definition complete_playersb (df : DataFrame) : bool :=
  forallb (fun p : string => mem_string (p ++ "_x") (names df) &&
                             mem_string (p ++ "_y") (names df))
    (player_ids_of df).

(** Inversion of a successful [rbind]. *)
Ltac bind_ok H :=
  let a := fresh "r" in
  let Ha := fresh "Hr" in
  match type of H with
  | rbind ?r _ = Ok _ =>
      destruct r as [a|] eqn:Ha; [cbn [rbind] in H | discriminate H]
  end.

(** Inversion of a failed [rbind]: one goal for each step that can
    fail. *)
Ltac bind_raise H :=
  repeat match type of H with
  | rbind ?r _ = Raise _ =>
      let a := fresh "r" in
      let Ha := fresh "Hr" in
      destruct r as [a|] eqn:Ha; cbn [rbind] in H; [|injection H as <-]
  end.

(** * Properties *)

(** ** Gap filling and the Savitzky-Golay parameters *)

Lemma map2_length {A B C} (f : A -> B -> C) l l' :
  length l = length l' -> length (map2 f l l') = length l.
Proof.
  revert l'; induction l as [|a l IH]; intros [|b l'] H; simpl in *;
    try discriminate; auto.
Qed.






Lemma interp_from_length s : forall i prev, length (interp_from i prev s) = length s.
Proof.
  induction s as [|x s IH]; intros i prev; simpl; [reflexivity|].
  destruct (isna x); simpl; rewrite IH; reflexivity.
Qed.

Lemma bfill_length s : length (bfill s) = length s.
Proof. induction s as [|x s IH]; simpl; congruence. Qed.

Lemma ffill_from_length s : forall prev, length (ffill_from prev s) = length s.
Proof.
  induction s as [|x s IH]; intros prev; simpl; [reflexivity|].
  destruct (isna x); simpl; rewrite IH; reflexivity.
Qed.

Lemma fill_gaps_length s : length (fill_gaps s) = length s.
Proof.
  unfold fill_gaps, ffill, interpolate, replace_inf.
  rewrite ffill_from_length, bfill_length, interp_from_length, length_map.
  reflexivity.
Qed.

Lemma next_valid_valid s k v : next_valid s = Some (k, v) -> isna v = false.
Proof.
  revert k; induction s as [|x s IH]; intros k; simpl; [discriminate|].
  destruct (isna x) eqn:E.
  - destruct (next_valid s) as [[k' v']|]; [|discriminate].
    intros [= <- <-]. eapply IH. reflexivity.
  - intros [= <- <-]. exact E.
Qed.

Lemma next_valid_none s : next_valid s = None -> all_missing s.
Proof.
  unfold all_missing.
  induction s as [|x s IH]; simpl; [constructor|].
  destruct (isna x) eqn:E; [|discriminate].
  destruct (next_valid s) as [[k v]|]; [discriminate|].
  intros _. constructor; auto.
Qed.

Lemma interp_from_all_nan s : next_valid s = None ->
  forall i, interp_from i None s = s.
Proof.
  induction s as [|x s IH]; simpl; [reflexivity|].
  destruct (isna x) eqn:E; [|discriminate].
  destruct (next_valid s) as [[k v]|] eqn:N; [discriminate|].
  intros _ i. rewrite IH; reflexivity.
Qed.

Lemma isna_nan v : isna v = true -> v = nan.
Proof.
  unfold isna. intros H. rewrite <- (FloatAxioms.SF2Prim_Prim2SF v).
  unfold Prim2SF. rewrite H. reflexivity.
Qed.

Lemma all_missing_repeat s : all_missing s -> s = repeat nan (length s).
Proof.
  induction 1 as [|v s Hv _ IH]; simpl; [reflexivity|].
  rewrite (isna_nan v Hv), <- IH. reflexivity.
Qed.

Lemma replace_inf_nan n : replace_inf (repeat nan n) = repeat nan n.
Proof. induction n as [|n IH]; simpl; [reflexivity|]. f_equal. exact IH. Qed.

Lemma next_valid_nan n : next_valid (repeat nan n) = None.
Proof.
  induction n as [|n IH]; simpl; [reflexivity|].
  change (isna nan) with true. cbv iota. rewrite IH. reflexivity.
Qed.

Lemma bfill_nan n : bfill (repeat nan n) = repeat nan n.
Proof.
  induction n as [|n IH]; simpl; [reflexivity|].
  rewrite IH. change (isna nan) with true. cbv iota. destruct n; reflexivity.
Qed.

Lemma ffill_from_nan n : ffill_from None (repeat nan n) = repeat nan n.
Proof.
  induction n as [|n IH]; simpl; [reflexivity|].
  change (isna nan) with true. cbv iota. f_equal. exact IH.
Qed.

Lemma fill_gaps_nan n : fill_gaps (repeat nan n) = repeat nan n.
Proof.
  unfold fill_gaps, interpolate, ffill.
  rewrite replace_inf_nan, (interp_from_all_nan _ (next_valid_nan n)),
    bfill_nan, ffill_from_nan.
  reflexivity.
Qed.

Lemma fill_gaps_all_missing s : all_missing s -> fill_gaps s = s.
Proof.
  intros H. rewrite (all_missing_repeat s H). apply fill_gaps_nan.
Qed.




Section SavgolProofs.
Variable savgol_fit : series -> Z -> Z -> series.






End SavgolProofs.


(** ** Outlier rejection and the choice of filter *)

Lemma positive_is_nonzero m :
  PrimFloat.ltb 0%float m = true -> PrimFloat.eqb m 0%float = false.
Proof.
  rewrite FloatAxioms.ltb_spec, FloatAxioms.eqb_spec.
  change (Prim2SF 0%float) with (S754_zero false).
  destruct (Prim2SF m) as [s| s | | s p e]; unfold SFltb, SFeqb; simpl;
    try destruct s; simpl; intros H; try discriminate H; reflexivity.
Qed.

Lemma maxspeed_enabled_positive m :
  PrimFloat.ltb 0%float m = true -> maxspeed_enabled (Some m) = true.
Proof.
  intros H. unfold maxspeed_enabled. rewrite (positive_is_nonzero m H), H.
  reflexivity.
Qed.

Lemma put_nan_hit mask : forall s i,
  nth i mask false = true -> i < length s ->
  isna (nth i (put_nan mask s) 0%float) = true.
Proof.
  induction mask as [|m mask IH]; intros [|x s] [|i] Hm Hi; simpl in *;
    try discriminate; try lia.
  - rewrite Hm. reflexivity.
  - apply IH; [exact Hm | lia].
Qed.

Lemma put_nan_miss mask : forall s i,
  nth i mask false = false ->
  nth i (put_nan mask s) 0%float = nth i s 0%float.
Proof.
  induction mask as [|m mask IH]; intros [|x s] [|i] Hm; simpl in *; auto.
  rewrite Hm. reflexivity.
Qed.

Lemma nth_map2 {A B C} (f : A -> B -> C) da db dc : forall l l' i,
  i < length l -> i < length l' ->
  nth i (map2 f l l') dc = f (nth i l da) (nth i l' db).
Proof.
  induction l as [|a l IH]; intros [|b l'] [|i] H H'; simpl in *; try lia; auto.
  apply IH; lia.
Qed.

Lemma too_fast_nth m vx vy i :
  i < length vx -> i < length vy ->
  nth i (map (fun s => PrimFloat.ltb m s) (sspeed vx vy)) false =
  PrimFloat.ltb m (speed_of (nth i vx 0%float) (nth i vy 0%float)).
Proof.
  intros Hx Hy.
  rewrite (nth_indep _ false (PrimFloat.ltb m 0%float)).
  - rewrite (map_nth (fun s => PrimFloat.ltb m s)). unfold sspeed.
    rewrite (nth_map2 speed_of 0%float 0%float); auto.
  - rewrite length_map. unfold sspeed.
    revert vy i Hx Hy. induction vx as [|a vx IH]; intros [|b vy] [|i] Hx Hy;
      simpl in *; try lia.
    apply -> Nat.succ_lt_mono. apply IH; lia.
Qed.

Section PipelineProofs.
Variable savgol_fit : series -> Z -> Z -> series.

(** C7.  With a positive [maxspeed], a row whose raw speed
    [sqrt (vx^2 + vy^2)] exceeds it has both components set to NaN, and
    every other row keeps its raw values; with [maxspeed] zero or absent
    nothing is rejected.  The rejection runs on the raw finite
    differences, before gap repair and smoothing. *)
Theorem outlier_rejection (maxspeed : option float) (vx vy : series) :
  length vx = length vy ->
  (forall m i, maxspeed = Some m -> PrimFloat.ltb 0%float m = true ->
     i < length vx ->
     PrimFloat.ltb m (speed_of (nth i vx 0%float) (nth i vy 0%float)) = true ->
     isna (nth i (fst (reject_outliers maxspeed vx vy)) 0%float) = true /\
     isna (nth i (snd (reject_outliers maxspeed vx vy)) 0%float) = true) /\
  (forall m i, maxspeed = Some m -> PrimFloat.ltb 0%float m = true ->
     i < length vx ->
     PrimFloat.ltb m (speed_of (nth i vx 0%float) (nth i vy 0%float)) = false ->
     nth i (fst (reject_outliers maxspeed vx vy)) 0%float = nth i vx 0%float /\
     nth i (snd (reject_outliers maxspeed vx vy)) 0%float = nth i vy 0%float) /\
  (maxspeed = None \/ maxspeed = Some 0%float ->
     reject_outliers maxspeed vx vy = (vx, vy)) /\
  (forall team dt shi smoothing filter_ window polyorder player,
     player_velocities savgol_fit team dt shi smoothing filter_ window
       polyorder maxspeed player =
     rbind (raw_velocities team dt player) (fun raw =>
       let cleaned := reject_outliers maxspeed (fst raw) (snd raw) in
       rbind (smooth savgol_fit (index team) shi smoothing filter_ window
                polyorder (repair_gaps (fst cleaned)) (repair_gaps (snd cleaned)))
         (fun v => Ok (fst v, snd v, sspeed (fst v) (snd v))))).
Proof.
  intros Hlen.
  assert (Hon : forall m, PrimFloat.ltb 0%float m = true ->
            reject_outliers (Some m) vx vy =
            (put_nan (map (fun s => PrimFloat.ltb m s) (sspeed vx vy)) vx,
             put_nan (map (fun s => PrimFloat.ltb m s) (sspeed vx vy)) vy)).
  { intros m Hm. unfold reject_outliers.
    rewrite (maxspeed_enabled_positive m Hm). reflexivity. }
  split; [|split; [|split]].
  - intros m i -> Hm Hi Hfast. rewrite (Hon m Hm). simpl.
    split; apply put_nan_hit; try lia; rewrite too_fast_nth; auto; lia.
  - intros m i -> Hm Hi Hslow. rewrite (Hon m Hm). simpl.
    split; apply put_nan_miss; rewrite too_fast_nth; auto; lia.
  - intros [-> | ->]; reflexivity.
  - intros. unfold player_velocities.
    destruct (raw_velocities team dt player) as [[rx ry]|e]; simpl; [|reflexivity].
    destruct (reject_outliers maxspeed rx ry) as [cx cy]; simpl.
    destruct (smooth _ _ _ _ _ _ _ _ _) as [[sx sy]|e]; reflexivity.
Qed.

Lemma for_each_ext {A} (l : list A) (f g : A -> M unit) :
  (forall a h, f a h = g a h) -> forall h, for_each l f h = for_each l g h.
Proof.
  intros E. induction l as [|a l IH]; intros h; simpl; [reflexivity|].
  unfold bind. rewrite E. destruct (g a h) as [[[]|e] h']; auto.
Qed.

Lemma smooth_unknown_filter filter_ idx shi w p vx vy :
  filter_ <> SAVGOL -> filter_ <> MOVING_AVERAGE ->
  smooth savgol_fit idx shi true filter_ w p vx vy = Ok (vx, vy).
Proof.
  intros H1 H2. unfold smooth.
  apply String.eqb_neq in H1. apply String.eqb_neq in H2.
  rewrite H1, H2. reflexivity.
Qed.

(** C9.  A [filter_] that is neither of the two known tags skips the
    smoothing step without an error: the estimator behaves as with
    smoothing disabled. *)
Theorem unknown_filter_skips_smoothing (filter_ : string) :
  filter_ <> SAVGOL -> filter_ <> MOVING_AVERAGE ->
  (forall idx shi w p vx vy,
     smooth savgol_fit idx shi true filter_ w p vx vy = Ok (vx, vy)) /\
  (forall team w p maxspeed h,
     calc_player_velocities savgol_fit team true filter_ w p maxspeed h =
     calc_player_velocities savgol_fit team false filter_ w p maxspeed h).
Proof.
  intros H1 H2. split.
  - intros. apply smooth_unknown_filter; auto.
  - intros. unfold calc_player_velocities, bind.
    destruct (remove_player_velocities team h) as [[t|e] h1]; [|reflexivity].
    destruct (read t h1) as [[df|e] h2]; [|reflexivity].
    destruct (lift _ h2) as [[time|e] h3]; [|reflexivity].
    rewrite (for_each_ext _ _
      (player_step savgol_fit t (diff time) (find_second_half df) false
         filter_ w p maxspeed)).
    + reflexivity.
    + intros a h0. unfold player_step, bind.
      destruct (read t h0) as [[df0|e] h4]; [|reflexivity].
      unfold player_velocities, rbind.
      destruct (raw_velocities df0 (diff time) a) as [[rx ry]|e]; [|reflexivity].
      destruct (reject_outliers maxspeed rx ry) as [cx cy].
      rewrite smooth_unknown_filter by auto. reflexivity.
Qed.
End PipelineProofs.

Lemma outlier_rejection_witness :
  isna (nth 1 (fst (reject_outliers (Some 12%float) [nan; 25%float]
                      [nan; 0%float])) 0%float) = true /\
  isna (nth 1 (snd (reject_outliers (Some 12%float) [nan; 25%float]
                      [nan; 0%float])) 0%float) = true.
Proof.
  apply (proj1 (outlier_rejection fit_identity (Some 12%float)
                  [nan; 25%float] [nan; 0%float] eq_refl) 12%float 1);
    [reflexivity | reflexivity | simpl; lia | reflexivity].
Defined.

Lemma unknown_filter_skips_smoothing_witness :
  smooth fit_identity [1; 2]%Z None true "gaussian" 7 1 [1; 2]%float
    [3; 4]%float = Ok ([1; 2]%float, [3; 4]%float).
Proof.
  apply (proj1 (unknown_filter_skips_smoothing fit_identity "gaussian"
                  ltac:(discriminate) ltac:(discriminate))).
Defined.

(** ** Masks and the two segments *)

Lemma loc_put_length mask : forall s vals,
  length (loc_put mask s vals) = length s.
Proof.
  induction mask as [|m mask IH]; intros [|x s] vals; simpl; auto.
  destruct m; [destruct vals|]; simpl; rewrite IH; reflexivity.
Qed.

Lemma loc_get_put mask : forall s vals,
  length s = length mask -> length vals = count_true mask ->
  loc_get mask (loc_put mask s vals) = vals.
Proof.
  unfold count_true.
  induction mask as [|m mask IH]; intros [|x s] vals Hs Hv;
    try destruct m; simpl in *; try discriminate.
  - destruct vals; [reflexivity|discriminate].
  - destruct vals as [|v vals]; [discriminate|]. simpl in *.
    f_equal. apply IH; lia.
  - apply IH; lia.
Qed.

Lemma loc_put_nth mask : forall s vals i,
  length s = length mask -> length vals = count_true mask ->
  nth i mask false = true ->
  nth i (loc_put mask s vals) 0%float = nth (rank mask i) vals 0%float.
Proof.
  unfold rank, count_true.
  induction mask as [|m mask IH]; intros [|x s] vals [|i] Hs Hv Hm;
    try destruct m; simpl in *; try discriminate.
  - destruct vals; [discriminate|reflexivity].
  - destruct vals as [|v vals]; [discriminate|]. simpl in *.
    apply IH; auto; lia.
  - apply IH; auto; lia.
Qed.

Lemma loc_set_ok mask s vals out :
  loc_set mask s vals = Ok out ->
  length vals = count_true mask /\ out = loc_put mask s vals.
Proof.
  unfold loc_set. destruct (Nat.eqb _ _) eqn:E; [|discriminate].
  apply Nat.eqb_eq in E. intros [= <-]. auto.
Qed.

Lemma mask_boundary idx b i :
  nth_error idx i = Some b ->
  nth i (mask_le idx b) false = true /\ nth i (mask_ge idx b) false = true.
Proof.
  revert i; induction idx as [|l idx IH]; intros [|i] H; simpl in *;
    try discriminate.
  - injection H as ->. rewrite Z.leb_refl. auto.
  - apply IH. exact H.
Qed.

Lemma mask_le_length idx b : length (mask_le idx b) = length idx.
Proof. apply length_map. Qed.

Lemma mask_ge_length idx b : length (mask_ge idx b) = length idx.
Proof. apply length_map. Qed.

Section BoundaryProofs.
Variable savgol_fit : series -> Z -> Z -> series.

(** C10.  With a half-time boundary and one of the two filters, every
    series is written twice at the boundary row: first with what the
    first segment's smoother returned for that row, then with what the
    second segment's smoother returned for it, and the second value is
    the one it ends with.  The first segment's smoother reads the rows
    up to the boundary row of the series before any write; the second
    one reads the rows from the boundary row on, after the first write
    in the Savitzky-Golay branch and before it in the moving-average
    branch. *)
Theorem boundary_row_takes_second_write (idx : list Z) (b : Z)
    (filter_ : string) (window polyorder : Z) (vx vy vx' vy' : series) :
  length vx = length idx -> length vy = length idx ->
  filter_ = SAVGOL \/ filter_ = MOVING_AVERAGE ->
  smooth savgol_fit idx (Some b) true filter_ window polyorder vx vy
    = Ok (vx', vy') ->
  exists x1 x2 y1 y2 vx1 vy1,
    (* the first write, by the first segment's smoother *)
    segment_smoother savgol_fit filter_ window polyorder
      (loc_get (mask_le idx b) vx) = Ok x1 /\
    segment_smoother savgol_fit filter_ window polyorder
      (loc_get (mask_le idx b) vy) = Ok y1 /\
    loc_set (mask_le idx b) vx x1 = Ok vx1 /\
    loc_set (mask_le idx b) vy y1 = Ok vy1 /\
    (* the second write, by the second segment's smoother *)
    segment_smoother savgol_fit filter_ window polyorder
      (loc_get (mask_ge idx b) (if String.eqb filter_ SAVGOL then vx1 else vx))
      = Ok x2 /\
    segment_smoother savgol_fit filter_ window polyorder
      (loc_get (mask_ge idx b) (if String.eqb filter_ SAVGOL then vy1 else vy))
      = Ok y2 /\
    loc_set (mask_ge idx b) vx1 x2 = Ok vx' /\
    loc_set (mask_ge idx b) vy1 y2 = Ok vy' /\
    forall i, nth_error idx i = Some b ->
      (* the boundary row is selected by both masks *)
      nth i (mask_le idx b) false = true /\
      nth i (mask_ge idx b) false = true /\
      nth i vx1 0%float = nth (rank (mask_le idx b) i) x1 0%float /\
      nth i vy1 0%float = nth (rank (mask_le idx b) i) y1 0%float /\
      nth i vx' 0%float = nth (rank (mask_ge idx b) i) x2 0%float /\
      nth i vy' 0%float = nth (rank (mask_ge idx b) i) y2 0%float.
Proof.
  intros Hx Hy Hf H. unfold smooth in H.
  assert (Hfinal : forall x1 x2 y1 y2 vx1 vy1,
    loc_set (mask_le idx b) vx x1 = Ok vx1 ->
    loc_set (mask_le idx b) vy y1 = Ok vy1 ->
    loc_set (mask_ge idx b) vx1 x2 = Ok vx' ->
    loc_set (mask_ge idx b) vy1 y2 = Ok vy' ->
    forall i, nth_error idx i = Some b ->
      nth i (mask_le idx b) false = true /\
      nth i (mask_ge idx b) false = true /\
      nth i vx1 0%float = nth (rank (mask_le idx b) i) x1 0%float /\
      nth i vy1 0%float = nth (rank (mask_le idx b) i) y1 0%float /\
      nth i vx' 0%float = nth (rank (mask_ge idx b) i) x2 0%float /\
      nth i vy' 0%float = nth (rank (mask_ge idx b) i) y2 0%float).
  { intros x1 x2 y1 y2 vx1 vy1 A1 A2 A3 A4 i Hi.
    destruct (mask_boundary idx b i Hi) as [M1 M2].
    apply loc_set_ok in A1, A2, A3, A4.
    destruct A1 as [L1 ->], A2 as [L2 ->], A3 as [L3 ->], A4 as [L4 ->].
    repeat split; auto.
    - apply loc_put_nth; auto. rewrite mask_le_length; auto.
    - apply loc_put_nth; auto. rewrite mask_le_length; auto.
    - apply loc_put_nth; auto.
      rewrite loc_put_length, mask_ge_length; auto.
    - apply loc_put_nth; auto.
      rewrite loc_put_length, mask_ge_length; auto. }
  destruct Hf as [-> | ->].
  - change (String.eqb SAVGOL SAVGOL) with true in *. cbv iota in *.
    unfold smooth_savgol in H.
    bind_ok H. bind_ok H. bind_ok H. bind_ok H.
    bind_ok H. bind_ok H. bind_ok H. bind_ok H.
    injection H as <- <-.
    exists r, r3, r1, r5, r0, r2.
    unfold segment_smoother. change (String.eqb SAVGOL SAVGOL) with true.
    cbv iota. repeat (split; [assumption|]). eapply Hfinal; eassumption.
  - change (String.eqb MOVING_AVERAGE SAVGOL) with false in *.
    change (String.eqb MOVING_AVERAGE MOVING_AVERAGE) with true in *.
    cbv iota in *. unfold smooth_moving_average in H.
    bind_ok H. bind_ok H. bind_ok H. bind_ok H. bind_ok H.
    bind_ok H. bind_ok H. bind_ok H. bind_ok H.
    injection H as <- <-.
    exists r0, r4, r2, r6, r1, r3.
    unfold segment_smoother.
    change (String.eqb MOVING_AVERAGE SAVGOL) with false. cbv iota.
    rewrite Hr. simpl rbind.
    repeat (split; [assumption|]). eapply Hfinal; eassumption.
Qed.
End BoundaryProofs.

Lemma boundary_row_takes_second_write_witness :
  exists x1 x2 out,
    segment_smoother fit_identity MOVING_AVERAGE 3 1
      (loc_get (mask_le [1; 2; 3; 4; 5; 6]%Z 4) [1; 2; 3; 4; 5; 6]%float)
      = Ok x1 /\
    segment_smoother fit_identity MOVING_AVERAGE 3 1
      (loc_get (mask_ge [1; 2; 3; 4; 5; 6]%Z 4) [1; 2; 3; 4; 5; 6]%float)
      = Ok x2 /\
    smooth fit_identity [1; 2; 3; 4; 5; 6]%Z (Some 4%Z) true MOVING_AVERAGE
      3 1 [1; 2; 3; 4; 5; 6]%float [0; 0; 0; 0; 0; 0]%float = Ok out /\
    nth 3 (fst out) 0%float = nth 0 x2 0%float /\
    PrimFloat.eqb (nth 3 x1 0%float) (nth 0 x2 0%float) = false.
Proof.
  destruct (smooth fit_identity [1; 2; 3; 4; 5; 6]%Z (Some 4%Z) true
              MOVING_AVERAGE 3 1 [1; 2; 3; 4; 5; 6]%float
              [0; 0; 0; 0; 0; 0]%float) as [[vx' vy']|e] eqn:E;
    [|vm_compute in E; discriminate E].
  destruct (boundary_row_takes_second_write fit_identity
              [1; 2; 3; 4; 5; 6]%Z 4 MOVING_AVERAGE 3 1
              [1; 2; 3; 4; 5; 6]%float [0; 0; 0; 0; 0; 0]%float vx' vy'
              eq_refl eq_refl (or_intror eq_refl) E)
    as (x1 & x2 & y1 & y2 & vx1 & vy1 & S1 & _ & _ & _ & S2 & _ & _ & _
        & Hrow).
  exists x1, x2, (vx', vy'). split; [exact S1|]. split; [exact S2|].
  split; [reflexivity|]. split.
  - destruct (Hrow 3 eq_refl) as (_ & _ & _ & _ & Hx & _). exact Hx.
  - vm_compute in S1, S2. injection S1 as <-. injection S2 as <-.
    reflexivity.
Defined.

(** ** Field names *)

Lemma split_nonempty sep s : split sep s <> [].
Proof.
  destruct s as [|c t]; simpl; [discriminate|].
  destruct (Ascii.eqb c sep); [discriminate|].
  destruct (split sep t); discriminate.
Qed.

Lemma split_app sep (p : string) w :
  split sep (p ++ String sep w) = split sep p ++ split sep w.
Proof.
  induction p as [|c p IH]; simpl.
  - rewrite Ascii.eqb_refl. reflexivity.
  - destruct (Ascii.eqb c sep); [rewrite IH; reflexivity|].
    rewrite IH. destruct (split sep p) as [|h r] eqn:E; [|reflexivity].
    exfalso. exact (split_nonempty _ _ E).
Qed.

Lemma last_app_nonempty {A} (l l' : list A) d :
  l' <> [] -> last (l ++ l') d = last l' d.
Proof.
  intros H. induction l as [|a l IH]; simpl; [reflexivity|].
  destruct (l ++ l') eqn:E; [|exact IH].
  apply app_eq_nil in E. destruct E. contradiction.
Qed.

Lemma last_split_app sep (p : string) w d :
  last (split sep (p ++ String sep w)) d = last (split sep w) d.
Proof. rewrite split_app. apply last_app_nonempty, split_nonempty. Qed.

Lemma is_derived_suffix (p : string) w :
  is_derived (p ++ String "_" w) = is_derived w.
Proof. unfold is_derived. rewrite last_split_app. reflexivity. Qed.

Lemma endswith_app s suffix :
  endswith s suffix = true -> exists p : string, s = (p ++ suffix)%string.
Proof.
  induction s as [|c s IH]; cbn [endswith].
  - rewrite orb_false_r. intros H. apply String.eqb_eq in H.
    exists EmptyString. exact H.
  - intros H. apply orb_true_iff in H. destruct H as [H|H].
    + apply String.eqb_eq in H. exists EmptyString. exact H.
    + destruct (IH H) as [p ->]. exists (String c p). reflexivity.
Qed.

Lemma endswith_append (p : string) suffix : endswith (p ++ suffix) suffix = true.
Proof.
  induction p as [|c p IH]; simpl.
  - destruct suffix; simpl.
    + reflexivity.
    + rewrite Ascii.eqb_refl, String.eqb_refl. reflexivity.
  - rewrite IH. apply orb_true_r.
Qed.

Lemma length_append (p s : string) :
  String.length (p ++ s) = String.length p + String.length s.
Proof. induction p; simpl; auto. Qed.

Lemma slice_to_append (p s : string) : slice_to (String.length p) (p ++ s) = p.
Proof. induction p as [|c p IH]; simpl; [destruct s|]; congruence. Qed.

Lemma drop_last2_append (p : string) a b :
  drop_last2 (p ++ String a (String b EmptyString)) = p.
Proof.
  unfold drop_last2. rewrite length_append. simpl.
  replace (String.length p + 2 - 2) with (String.length p) by lia.
  apply slice_to_append.
Qed.

Lemma has_team_tag_position (p : string) w :
  has_team_tag (p ++ String "_" w) = has_team_tag p.
Proof.
  unfold has_team_tag, mem_string.
  destruct p as [|c1 [|c2 [|c3 [|c4 p]]]]; simpl;
    repeat match goal with
           | |- context [Ascii.eqb ?a ?b] => destruct (Ascii.eqb a b)
           end; try reflexivity.
Qed.

Lemma append_inj_l (p q s : string) : (p ++ s = q ++ s)%string -> p = q.
Proof.
  intros H.
  assert (L : String.length p = String.length q).
  { apply (f_equal String.length) in H. rewrite !length_append in H. lia. }
  revert q H L. induction p as [|c p IH]; intros [|d q] H L; simpl in *;
    try discriminate; [reflexivity|].
  injection H as -> H. f_equal. apply IH; auto.
Qed.

(** ** [np_unique] *)

Lemma ascii_compare_lt_trans a b c :
  Ascii.compare a b = Lt -> Ascii.compare b c = Lt -> Ascii.compare a c = Lt.
Proof.
  unfold Ascii.compare. rewrite !N.compare_lt_iff. apply N.lt_trans.
Qed.

Lemma ascii_compare_refl a : Ascii.compare a a = Eq.
Proof. unfold Ascii.compare. apply N.compare_refl. Qed.

Lemma str_lt_trans x y z : str_lt x y -> str_lt y z -> str_lt x z.
Proof.
  unfold str_lt. revert y z.
  induction x as [|a x IH]; intros [|b y] [|c z]; simpl; try discriminate; auto.
  destruct (Ascii.compare a b) eqn:Eab; try discriminate;
    destruct (Ascii.compare b c) eqn:Ebc; try discriminate; intros H1 H2.
  - apply Ascii.compare_eq_iff in Eab, Ebc. subst.
    rewrite ascii_compare_refl. eapply IH; eauto.
  - apply Ascii.compare_eq_iff in Eab. subst. rewrite Ebc. reflexivity.
  - apply Ascii.compare_eq_iff in Ebc. subst. rewrite Eab. reflexivity.
  - rewrite (ascii_compare_lt_trans _ _ _ Eab Ebc). reflexivity.
Qed.

Lemma string_compare_refl x : String.compare x x = Eq.
Proof.
  induction x as [|a x IH]; simpl; [reflexivity|].
  rewrite ascii_compare_refl. exact IH.
Qed.

Lemma str_lt_irrefl x : ~ str_lt x x.
Proof. unfold str_lt. rewrite string_compare_refl. discriminate. Qed.

Lemma insert_unique_in x l y : In y (insert_unique x l) <-> y = x \/ In y l.
Proof.
  induction l as [|z l IH]; simpl.
  - intuition.
  - destruct (String.compare x z) eqn:E; simpl.
    + apply String.compare_eq_iff in E. subst. intuition.
    + intuition.
    + rewrite IH. intuition.
Qed.

Lemma insert_unique_sorted x l :
  StronglySorted str_lt l -> StronglySorted str_lt (insert_unique x l).
Proof.
  induction 1 as [|z l Hs IH Hall]; simpl.
  - constructor; constructor.
  - destruct (String.compare x z) eqn:E.
    + constructor; auto.
    + constructor; [constructor; auto|].
      constructor; [exact E|].
      eapply Forall_impl; [|exact Hall].
      intros w Hw. eapply str_lt_trans; eauto.
    + constructor; [exact IH|].
      apply Forall_forall. intros w Hw. apply insert_unique_in in Hw.
      destruct Hw as [->|Hw].
      * unfold str_lt. rewrite String.compare_antisym, E. reflexivity.
      * rewrite Forall_forall in Hall. auto.
Qed.

Lemma np_unique_in l y : In y (np_unique l) <-> In y l.
Proof.
  induction l as [|x l IH]; simpl; [tauto|].
  rewrite insert_unique_in, IH. intuition.
Qed.

Lemma np_unique_sorted l : StronglySorted str_lt (np_unique l).
Proof.
  induction l as [|x l IH]; simpl; [constructor|].
  apply insert_unique_sorted, IH.
Qed.

Lemma np_unique_nodup l : NoDup (np_unique l).
Proof.
  pose proof (np_unique_sorted l) as H.
  induction H as [|x t Hs IH Hall]; constructor; auto.
  intros Hin. rewrite Forall_forall in Hall.
  exact (str_lt_irrefl x (Hall x Hin)).
Qed.

(** ** Tables and derived fields *)

Lemma mem_string_in s l : mem_string s l = true <-> In s l.
Proof.
  unfold mem_string. rewrite existsb_exists. split.
  - intros (x & Hx & E). apply String.eqb_eq in E. subst. exact Hx.
  - intros H. exists s. split; [exact H|apply String.eqb_refl].
Qed.

Lemma drop_derived df : drop df (derived_columns df) = sanitize df.
Proof.
  unfold drop, sanitize, derived_columns, names. f_equal.
  apply filter_ext_in. intros c Hc. f_equal.
  destruct (is_derived (fst c)) eqn:E.
  - apply mem_string_in. apply filter_In. split; [|exact E].
    apply in_map. exact Hc.
  - destruct (mem_string _ _) eqn:M; [|reflexivity].
    apply mem_string_in, filter_In in M. destruct M. congruence.
Qed.

Lemma filter_all {A} (f : A -> bool) l :
  Forall (fun a => f a = true) l -> filter f l = l.
Proof.
  induction 1 as [|a l Ha _ IH]; simpl; [reflexivity|]. rewrite Ha, IH.
  reflexivity.
Qed.

Lemma filter_none {A} (f : A -> bool) l :
  Forall (fun a => f a = false) l -> filter f l = [].
Proof.
  induction 1 as [|a l Ha _ IH]; simpl; [reflexivity|]. rewrite Ha, IH.
  reflexivity.
Qed.

Lemma filter_nil_forall {A} (f : A -> bool) l :
  filter f l = [] -> Forall (fun a => f a = false) l.
Proof.
  induction l as [|a l IH]; simpl; [constructor|].
  destruct (f a) eqn:E; [discriminate|]. intros H. constructor; auto.
Qed.

Lemma derived_columns_nil df :
  derived_columns df = [] -> no_derived (columns df).
Proof.
  unfold derived_columns, names, no_derived. intros H.
  apply filter_nil_forall in H. rewrite Forall_map in H. exact H.
Qed.

Lemma sanitize_clean df : no_derived (columns df) -> sanitize df = df.
Proof.
  intros H. destruct df as [idx cols]. unfold sanitize. simpl in *. f_equal.
  apply filter_all. eapply Forall_impl; [|exact H].
  intros c Hc. simpl in Hc. rewrite Hc. reflexivity.
Qed.

Lemma sanitize_no_derived df : no_derived (columns (sanitize df)).
Proof.
  unfold no_derived, sanitize. simpl. apply Forall_forall.
  intros c Hc. apply filter_In in Hc. destruct Hc as [_ Hc].
  apply negb_true_iff in Hc. exact Hc.
Qed.

Lemma sanitize_idempotent df : sanitize (sanitize df) = sanitize df.
Proof. apply sanitize_clean, sanitize_no_derived. Qed.

Lemma derived_columns_clean df :
  no_derived (columns df) -> derived_columns df = [].
Proof.
  unfold derived_columns, names, no_derived. intros H.
  apply filter_none. rewrite Forall_map. exact H.
Qed.

Lemma find_app_fresh (base added : list (string * series)) n :
  ~ In n (map fst added) ->
  find (fun c => String.eqb (fst c) n) (base ++ added) =
  find (fun c => String.eqb (fst c) n) base.
Proof.
  intros H. induction base as [|c base IH]; simpl.
  - induction added as [|a added IHa]; simpl; [reflexivity|].
    simpl in H. destruct (String.eqb (fst a) n) eqn:E.
    + apply String.eqb_eq in E. tauto.
    + apply IHa. tauto.
  - destruct (String.eqb (fst c) n); auto.
Qed.

Lemma get_column_app idx base added n :
  ~ In n (map fst added) ->
  get_column (mkDataFrame idx (base ++ added)) n =
  get_column (mkDataFrame idx base) n.
Proof.
  intros H. unfold get_column. simpl. rewrite find_app_fresh; auto.
Qed.

Lemma put_column_fresh cols n s :
  ~ In n (map fst cols) -> put_column cols n s = cols ++ [(n, s)].
Proof.
  induction cols as [|c cols IH]; simpl; [reflexivity|].
  intros H. destruct (String.eqb (fst c) n) eqn:E.
  - apply String.eqb_eq in E. tauto.
  - rewrite IH; tauto.
Qed.

Lemma all_derived_not_in added n :
  all_derived added -> is_derived n = false -> ~ In n (map fst added).
Proof.
  intros H Hn Hin. apply in_map_iff in Hin. destruct Hin as (c & <- & Hc).
  unfold all_derived in H. rewrite Forall_forall in H.
  rewrite (H c Hc) in Hn. discriminate.
Qed.

Lemma no_derived_not_in base n :
  no_derived base -> is_derived n = true -> ~ In n (map fst base).
Proof.
  intros H Hn Hin. apply in_map_iff in Hin. destruct Hin as (c & <- & Hc).
  unfold no_derived in H. rewrite Forall_forall in H.
  rewrite (H c Hc) in Hn. discriminate.
Qed.

Lemma position_not_derived (p : string) :
  is_derived (p ++ "_x") = false /\ is_derived (p ++ "_y") = false.
Proof. split; rewrite is_derived_suffix; reflexivity. Qed.

Lemma velocity_derived (p : string) :
  is_derived (p ++ "_vx") = true /\ is_derived (p ++ "_vy") = true /\
  is_derived (p ++ "_speed") = true.
Proof. repeat split; rewrite is_derived_suffix; reflexivity. Qed.

Lemma velocity_columns_derived p v : all_derived (velocity_columns p v).
Proof.
  destruct v as [[vx vy] sp]. destruct (velocity_derived p) as (A & B & C).
  repeat constructor; assumption.
Qed.

Lemma velocity_columns_names p v :
  map fst (velocity_columns p v) =
  [(p ++ "_vx")%string; (p ++ "_vy")%string; (p ++ "_speed")%string].
Proof. destruct v as [[vx vy] sp]. reflexivity. Qed.

Lemma velocity_name_inj (p q : string) n :
  In n [(p ++ "_vx")%string; (p ++ "_vy")%string; (p ++ "_speed")%string] ->
  In n [(q ++ "_vx")%string; (q ++ "_vy")%string; (q ++ "_speed")%string] ->
  p = q.
Proof.
  simpl. intros [<-|[<-|[<-|[]]]] [H|[H|[H|[]]]];
    try (apply append_inj_l in H; congruence);
    apply (f_equal suffix_of) in H; unfold suffix_of in H;
    rewrite !last_split_app in H; discriminate H.
Qed.

(** ** The store *)

Lemma update_same h : forall t df, nth_error h t = Some df -> update h t df = h.
Proof.
  induction h as [|d h IH]; intros [|t] df H; simpl in *; try discriminate.
  - injection H as ->. reflexivity.
  - rewrite IH; auto.
Qed.

Lemma nth_error_update h : forall t df df',
  nth_error h t = Some df -> nth_error (update h t df') t = Some df'.
Proof.
  induction h as [|d h IH]; intros [|t] df df' H; simpl in *;
    try discriminate; eauto.
Qed.

Lemma update_update h : forall t a b, update (update h t a) t b = update h t b.
Proof.
  induction h as [|d h IH]; intros [|t] a b; simpl; auto. rewrite IH; auto.
Qed.

Lemma nth_error_alloc (h : store) df : nth_error (h ++ [df]) (length h) = Some df.
Proof. rewrite nth_error_app2, Nat.sub_diag by lia. reflexivity. Qed.

Lemma update_alloc (h : store) df df' :
  update (h ++ [df]) (length h) df' = h ++ [df'].
Proof. induction h as [|d h IH]; simpl; [reflexivity|]. rewrite IH; auto. Qed.

(** ** The loop over the players *)

Section LoopProofs.
Variable savgol_fit : series -> Z -> Z -> series.
Variables (dt : series) (shi : option Z) (smoothing : bool)
          (filter_ : string) (window polyorder : Z) (maxspeed : option float).

Local Abbreviation pv df p :=
  (player_velocities savgol_fit df dt shi smoothing filter_ window polyorder
     maxspeed p).

Local Abbreviation body t :=
  (player_step savgol_fit t dt shi smoothing filter_ window polyorder
     maxspeed).

Lemma for_each_cons {A} (a : A) l (f : A -> M unit) h :
  for_each (a :: l) f h =
  match f a h with
  | (Ok _, h') => for_each l f h'
  | (Raise e, h') => (Raise e, h')
  end.
Proof. reflexivity. Qed.

Lemma player_step_run t p h df :
  nth_error h t = Some df ->
  body t p h =
  match pv df p with
  | Ok v => (Ok tt, update h t (add_velocities df p v))
  | Raise e => (Raise e, h)
  end.
Proof.
  intros H. unfold player_step, bind, read, lift, write. rewrite H.
  destruct (pv df p); reflexivity.
Qed.

Lemma player_velocities_base idx base added p :
  all_derived added ->
  pv (mkDataFrame idx (base ++ added)) p = pv (mkDataFrame idx base) p.
Proof.
  intros Ha. unfold player_velocities, raw_velocities.
  destruct (position_not_derived p) as [Hx Hy].
  rewrite !get_column_app by (apply all_derived_not_in; auto).
  reflexivity.
Qed.

Lemma add_velocities_fresh idx cols p v :
  (forall n, In n (map fst (velocity_columns p v)) -> ~ In n (map fst cols)) ->
  add_velocities (mkDataFrame idx cols) p v =
  mkDataFrame idx (cols ++ velocity_columns p v).
Proof.
  destruct v as [[vx vy] sp]. intros H. unfold add_velocities, set_column.
  simpl in *. f_equal.
  rewrite (put_column_fresh cols) by (apply H; auto).
  rewrite (put_column_fresh (cols ++ _) (p ++ "_vy")).
  2:{ rewrite map_app, in_app_iff. simpl. intros [Hin|[E|[]]].
      - revert Hin. apply H. auto.
      - apply (f_equal suffix_of) in E. unfold suffix_of in E.
        rewrite !last_split_app in E. discriminate E. }
  rewrite put_column_fresh.
  2:{ rewrite !map_app, !in_app_iff. simpl. intros [[Hin|[E|[]]]|[E|[]]].
      - revert Hin. apply H. auto.
      - apply (f_equal suffix_of) in E. unfold suffix_of in E.
        rewrite !last_split_app in E. discriminate E.
      - apply (f_equal suffix_of) in E. unfold suffix_of in E.
        rewrite !last_split_app in E. discriminate E. }
  rewrite <- !app_assoc. reflexivity.
Qed.

Lemma loop_run t idx base : no_derived base ->
  forall ps added h,
    NoDup ps ->
    all_derived added ->
    (forall p n, In p ps -> In n (map fst (velocity_columns p (nil, nil, nil))) ->
                 ~ In n (map fst added)) ->
    nth_error h t = Some (mkDataFrame idx (base ++ added)) ->
    for_each ps (body t) h =
    (fst (added_columns (fun p => pv (mkDataFrame idx base) p) ps),
     update h t (mkDataFrame idx
       (base ++ added ++
        snd (added_columns (fun p => pv (mkDataFrame idx base) p) ps)))).
Proof.
  intros Hbase. induction ps as [|p ps IH]; intros added h Hnd Hadd Hfresh Hh.
  - simpl. rewrite app_nil_r, update_same; auto.
  - rewrite for_each_cons, (player_step_run _ _ _ _ Hh).
    rewrite player_velocities_base by auto.
    cbn [added_columns].
    destruct (pv (mkDataFrame idx base) p) as [v|e] eqn:Ev.
    + inversion Hnd as [|? ? Hnotin Hnd']; subst.
      assert (Hnames : forall w, map fst (velocity_columns p w) =
                 map fst (velocity_columns p (nil, nil, nil))).
      { intros w. rewrite !velocity_columns_names. reflexivity. }
      rewrite add_velocities_fresh.
      2:{ intros n Hn. rewrite map_app, in_app_iff. intros [Hin|Hin].
          - revert Hin. apply no_derived_not_in; auto.
            pose proof (velocity_columns_derived p v) as Hd.
            unfold all_derived in Hd. rewrite Forall_forall in Hd.
            apply in_map_iff in Hn. destruct Hn as (c & <- & Hc). auto.
          - revert Hin. apply (Hfresh p); [left; reflexivity|].
            rewrite <- (Hnames v). exact Hn. }
      rewrite <- app_assoc.
      rewrite (IH (added ++ velocity_columns p v)); auto.
      * destruct (added_columns _ ps) as [r cols].
        simpl. rewrite update_update, <- !app_assoc. reflexivity.
      * apply Forall_app. split; [exact Hadd|apply velocity_columns_derived].
      * intros q n Hq Hn. rewrite map_app, in_app_iff. intros [Hin|Hin].
        -- revert Hin. apply (Hfresh q); [right; exact Hq|exact Hn].
        -- rewrite velocity_columns_names in Hin, Hn.
           assert (q = p) by (eapply velocity_name_inj; eauto).
           subst. contradiction.
      * eapply nth_error_update. exact Hh.
    + simpl. rewrite app_nil_r, update_same; auto.
Qed.
End LoopProofs.

(** ** A run of the estimator *)

Section RunProofs.
Variable savgol_fit : series -> Z -> Z -> series.

Lemma remove_run t h df :
  nth_error h t = Some df ->
  remove_player_velocities t h =
  if has_derived df then (Ok (length h), h ++ [sanitize df]) else (Ok t, h).
Proof.
  intros H. unfold remove_player_velocities, bind, read, has_derived.
  rewrite H. destruct (Nat.ltb _ _); [|reflexivity].
  unfold alloc. rewrite drop_derived. reflexivity.
Qed.

Lemma has_derived_false df : has_derived df = false -> sanitize df = df.
Proof.
  unfold has_derived. intros H. apply Nat.ltb_ge in H.
  apply sanitize_clean, derived_columns_nil.
  destruct (derived_columns df); [reflexivity|simpl in H; lia].
Qed.

Lemma calc_tail t' h1 df smoothing filter_ window polyorder maxspeed :
  nth_error h1 t' = Some (sanitize df) ->
  bind (read t') (fun d =>
    bind (lift (get_column d "Time [s]")) (fun time =>
      bind (for_each (player_ids_of d)
              (player_step savgol_fit t' (diff time) (find_second_half d)
                 smoothing filter_ window polyorder maxspeed))
        (fun _ => ret t'))) h1 =
  let E := estimate savgol_fit df smoothing filter_ window polyorder maxspeed in
  (rmap (fun _ => t') (fst E), update h1 t' (snd E)).
Proof.
  intros H1. unfold bind at 1. unfold read at 1. rewrite H1.
  unfold bind at 1. unfold lift at 1. unfold estimate.
  destruct (get_column (sanitize df) "Time [s]") as [time|e].
  - unfold bind.
    pose proof (loop_run savgol_fit (diff time) (find_second_half (sanitize df))
      smoothing filter_ window polyorder maxspeed t' (index df)
      (columns (sanitize df)) (sanitize_no_derived df)
      (player_ids_of (sanitize df)) [] h1) as L.
    rewrite app_nil_r in L.
    change (mkDataFrame (index df) (columns (sanitize df))) with (sanitize df) in L.
    rewrite L; clear L.
    + cbv zeta. destruct (added_columns _ _) as [[[]|e] cols]; reflexivity.
    + apply np_unique_nodup.
    + constructor.
    + intros p n _ _ [].
    + exact H1.
  - simpl. rewrite update_same; auto.
Qed.

Lemma calc_run t h df smoothing filter_ window polyorder maxspeed :
  nth_error h t = Some df ->
  calc_player_velocities savgol_fit t smoothing filter_ window polyorder
    maxspeed h =
  let t' := if has_derived df then length h else t in
  let h1 := if has_derived df then h ++ [sanitize df] else h in
  let E := estimate savgol_fit df smoothing filter_ window polyorder maxspeed in
  (rmap (fun _ => t') (fst E), update h1 t' (snd E)).
Proof.
  intros H. unfold calc_player_velocities.
  unfold bind at 1. rewrite (remove_run _ _ _ H).
  destruct (has_derived df) eqn:E; cbv beta iota zeta.
  - apply calc_tail. apply nth_error_alloc.
  - apply calc_tail. rewrite (has_derived_false _ E). exact H.
Qed.

Lemma calc_run_dangling t h smoothing filter_ window polyorder maxspeed :
  nth_error h t = None ->
  calc_player_velocities savgol_fit t smoothing filter_ window polyorder
    maxspeed h = (Raise InvalidReference, h).
Proof.
  intros H. unfold calc_player_velocities, bind, remove_player_velocities,
    bind, read. rewrite H. reflexivity.
Qed.
End RunProofs.

(** ** The caller's table *)

Lemma added_columns_derived pv ps : all_derived (snd (added_columns pv ps)).
Proof.
  induction ps as [|p ps IH]; simpl; [constructor|].
  destruct (pv p) as [v|e]; [|constructor].
  destruct (added_columns pv ps) as [r cols]. simpl in *.
  apply Forall_app. split; [apply velocity_columns_derived|exact IH].
Qed.

Lemma added_columns_ok pv ps :
  fst (added_columns pv ps) = Ok tt ->
  Forall (fun p => exists v, pv p = Ok v) ps /\
  map fst (snd (added_columns pv ps)) =
  flat_map (fun p => [(p ++ "_vx")%string; (p ++ "_vy")%string;
                      (p ++ "_speed")%string]) ps.
Proof.
  induction ps as [|p ps IH]; simpl; [auto|].
  destruct (pv p) as [v|e] eqn:E; [|discriminate].
  destruct (added_columns pv ps) as [r cols]. simpl in *.
  intros H. destruct (IH H) as [IH1 IH2]. split.
  - constructor; eauto.
  - rewrite map_app, velocity_columns_names, IH2. reflexivity.
Qed.

Lemma result_unit_cases (r : result unit) : r = Ok tt \/ exists e, r = Raise e.
Proof. destruct r as [[]|e]; eauto. Qed.

Lemma estimate_shape savgol_fit df smoothing filter_ window polyorder maxspeed :
  exists added,
    all_derived added /\
    snd (estimate savgol_fit df smoothing filter_ window polyorder maxspeed) =
    mkDataFrame (index df) (columns (sanitize df) ++ added).
Proof.
  unfold estimate. destruct (get_column (sanitize df) "Time [s]") as [time|e].
  - eexists. split; [apply added_columns_derived|reflexivity].
  - exists []. split; [constructor|]. rewrite app_nil_r. reflexivity.
Qed.

(** C3.  The claim holds of one path of the code and fails on the
    other.  On a table with a derived field ([two_rows_stale])
    [remove_player_velocities] hands the estimator a new table: the run
    returns that table and the caller's table is as it was.  On a table
    with no derived field ([two_rows]) there is no copy: the run returns
    the caller's own table, which now holds the three derived fields of
    the player after its own. *)
Theorem estimator_mutates_clean_input :
  let clean := calc_player_velocities fit_identity 0 false SAVGOL 7 1
                 (Some 12%float) [two_rows] in
  let stale := calc_player_velocities fit_identity 0 false SAVGOL 7 1
                 (Some 12%float) [two_rows_stale] in
  (* the path with a copy *)
  has_derived two_rows_stale = true /\
  fst stale = Ok 1 /\ length (snd stale) = 2 /\
  nth_error (snd stale) 0 = Some two_rows_stale /\
  (* the path without *)
  has_derived two_rows = false /\
  fst clean = Ok 0 /\ length (snd clean) = 1 /\
  nth_error (snd clean) 0 <> Some two_rows /\
  option_map names (nth_error (snd clean) 0) =
    Some ["Time [s]"; "Home_1_x"; "Home_1_y";
          "Home_1_vx"; "Home_1_vy"; "Home_1_speed"].
Proof.
  cbv zeta. repeat split; try (vm_compute; reflexivity).
  vm_compute. intros H. discriminate H.
Qed.

(** ** The players *)

Lemma names_sanitize df n :
  In n (names (sanitize df)) <-> In n (names df) /\ is_derived n = false.
Proof.
  unfold names, sanitize. simpl. rewrite !in_map_iff. split.
  - intros (c & <- & Hc). apply filter_In in Hc. destruct Hc as [Hc Hd].
    apply negb_true_iff in Hd. split; [exists c; auto|exact Hd].
  - intros [(c & <- & Hc) Hd]. exists c. split; [reflexivity|].
    apply filter_In. split; [exact Hc|]. rewrite Hd. reflexivity.
Qed.

Lemma get_column_ok df n s : get_column df n = Ok s -> In n (names df).
Proof.
  unfold get_column. destruct (find _ _) as [c|] eqn:E; [|discriminate].
  intros _. apply find_some in E. destruct E as [Hc E].
  apply String.eqb_eq in E. subst. unfold names. apply in_map. exact Hc.
Qed.

Lemma is_position_shape c :
  is_position c = true ->
  exists p : string, has_team_tag p = true /\ drop_last2 c = p /\
    (c = (p ++ "_x")%string \/ c = (p ++ "_y")%string).
Proof.
  unfold is_position. intros H. apply andb_true_iff in H.
  destruct H as [Ht He]. apply orb_true_iff in He.
  destruct He as [He|He]; apply endswith_app in He; destruct He as [p ->];
    exists p; rewrite has_team_tag_position in Ht;
    rewrite drop_last2_append; auto.
Qed.

Lemma is_position_player (p : string) :
  has_team_tag p = true ->
  is_position (p ++ "_x") = true /\ is_position (p ++ "_y") = true.
Proof.
  intros H. unfold is_position.
  rewrite !has_team_tag_position, H, !endswith_append.
  split; [reflexivity|]. simpl. apply orb_true_r.
Qed.

Lemma player_ids_in df (p : string) :
  In p (player_ids_of df) <->
  has_team_tag p = true /\
  (In (p ++ "_x")%string (names df) \/ In (p ++ "_y")%string (names df)).
Proof.
  unfold player_ids_of. rewrite np_unique_in, in_map_iff. split.
  - intros (c & <- & Hc). apply filter_In in Hc. destruct Hc as [Hc Hp].
    destruct (is_position_shape c Hp) as (q & Ht & Hq & [ -> | -> ]); rewrite Hq; auto.
  - intros [Ht [H|H]]; destruct (is_position_player p Ht) as [Px Py].
    + exists (p ++ "_x")%string. split; [apply drop_last2_append|].
      apply filter_In. auto.
    + exists (p ++ "_y")%string. split; [apply drop_last2_append|].
      apply filter_In. auto.
Qed.

Lemma player_velocities_ok savgol_fit df dt shi sm f w po ms p v :
  player_velocities savgol_fit df dt shi sm f w po ms p = Ok v ->
  In (p ++ "_x")%string (names df) /\ In (p ++ "_y")%string (names df).
Proof.
  unfold player_velocities, raw_velocities. intros H.
  destruct (get_column df (p ++ "_x")) as [x|e] eqn:Ex; [|discriminate].
  destruct (get_column df (p ++ "_y")) as [y|e] eqn:Ey; [|discriminate].
  split; eapply get_column_ok; eauto.
Qed.

Lemma calc_ok savgol_fit t h sm f w po ms t' h' :
  calc_player_velocities savgol_fit t sm f w po ms h = (Ok t', h') ->
  exists df,
    nth_error h t = Some df /\
    fst (estimate savgol_fit df sm f w po ms) = Ok tt /\
    t' = (if has_derived df then length h else t) /\
    h' = update (if has_derived df then h ++ [sanitize df] else h) t'
           (snd (estimate savgol_fit df sm f w po ms)) /\
    nth_error h' t' = Some (snd (estimate savgol_fit df sm f w po ms)).
Proof.
  intros H. destruct (nth_error h t) as [df|] eqn:Hd.
  - rewrite (calc_run _ _ _ _ _ _ _ _ _ Hd) in H. cbv zeta in H.
    exists df. split; [reflexivity|].
    destruct (fst (estimate savgol_fit df sm f w po ms)) as [[]|e] eqn:E;
      simpl in H; [|discriminate].
    injection H as <- <-. repeat split.
    destruct (has_derived df) eqn:D.
    + rewrite update_alloc. apply nth_error_alloc.
    + eapply nth_error_update. exact Hd.
  - rewrite calc_run_dangling in H by auto. discriminate.
Qed.

Lemma estimate_ok savgol_fit df sm f w po ms :
  fst (estimate savgol_fit df sm f w po ms) = Ok tt ->
  exists time,
    get_column (sanitize df) "Time [s]" = Ok time /\
    Forall (fun p => exists v,
              player_velocities savgol_fit (sanitize df) (diff time)
                (find_second_half (sanitize df)) sm f w po ms p = Ok v)
      (player_ids_of (sanitize df)) /\
    names (snd (estimate savgol_fit df sm f w po ms)) =
      names (sanitize df) ++
      flat_map (fun p => [(p ++ "_vx")%string; (p ++ "_vy")%string;
                          (p ++ "_speed")%string])
        (player_ids_of (sanitize df)).
Proof.
  unfold estimate. destruct (get_column _ _) as [time|e]; [|discriminate].
  cbv zeta. simpl fst. simpl snd. intros H. exists time.
  destruct (added_columns_ok _ _ H) as [A B].
  split; [reflexivity|]. split; [exact A|].
  unfold names at 1. simpl. rewrite map_app, B. reflexivity.
Qed.

Section PlayersProofs.
Variable savgol_fit : series -> Z -> Z -> series.

(** C4, amended.  Whenever the estimator returns, the players that got
    velocity fields are exactly the prefixes [p] that carry the team tag
    (the name starts with Home or Away) and have both [p_x] and [p_y] in
    the table. *)
Theorem players_with_velocity_fields (t : loc) (h : store)
    (smoothing : bool) (filter_ : string) (window polyorder : Z)
    (maxspeed : option float) (t' : loc) (h' : store) :
  calc_player_velocities savgol_fit t smoothing filter_ window polyorder
    maxspeed h = (Ok t', h') ->
  exists df out,
    nth_error h t = Some df /\ nth_error h' t' = Some out /\
    forall p : string,
      In (p ++ "_vx")%string (names out) <->
      has_team_tag p = true /\
      In (p ++ "_x")%string (names df) /\ In (p ++ "_y")%string (names df).
Proof.
  intros H. apply calc_ok in H.
  destruct H as (df & Hd & HE & _ & _ & Hout).
  exists df, (snd (estimate savgol_fit df smoothing filter_ window polyorder
                     maxspeed)).
  split; [exact Hd|]. split; [exact Hout|].
  destruct (estimate_ok _ _ _ _ _ _ _ HE) as (time & _ & Hall & Hn).
  rewrite Forall_forall in Hall.
  intros p. rewrite Hn, in_app_iff, in_flat_map.
  destruct (velocity_derived p) as (Dx & _ & _).
  destruct (position_not_derived p) as (Nx & Ny).
  split.
  - intros [Hin|(q & Hq & Hin)].
    + apply names_sanitize in Hin. destruct Hin. congruence.
    + assert (p = q).
      { eapply velocity_name_inj; [|exact Hin]. left. reflexivity. }
      subst q. destruct (Hall p Hq) as [v Hv].
      apply player_velocities_ok in Hv. destruct Hv as [Hx Hy].
      apply names_sanitize in Hx, Hy. apply player_ids_in in Hq.
      tauto.
  - intros (Ht & Hx & Hy). right. exists p. split; [|left; reflexivity].
    apply player_ids_in. split; [exact Ht|]. left.
    apply names_sanitize. auto.
Qed.
End PlayersProofs.

Lemma players_with_velocity_fields_witness :
  exists out,
    nth_error
      (snd (calc_player_velocities fit_identity 0 false SAVGOL 7 1
              (Some 12%float) [two_rows])) 0 = Some out /\
    (In "Home_1_vx" (names out) <->
     has_team_tag "Home_1" = true /\
     In "Home_1_x" (names two_rows) /\ In "Home_1_y" (names two_rows)).
Proof.
  destruct (players_with_velocity_fields fit_identity 0 [two_rows] false
              SAVGOL 7 1 (Some 12%float) 0
              (snd (calc_player_velocities fit_identity 0 false SAVGOL 7 1
                      (Some 12%float) [two_rows]))
              ltac:(vm_compute; reflexivity))
    as (df & out & Hd & Ho & Hp).
  injection Hd as <-. exists out. split; [exact Ho|]. apply (Hp "Home_1").
Defined.

(** C4, as stated, is refuted on a table whose only positions carry no
    team tag: both position fields are there and no velocity is
    computed. *)
Lemma ball_is_not_a_player :
  In "ball_x" (names ball_only) /\ In "ball_y" (names ball_only) /\
  exists out,
    calc_player_velocities fit_identity 0 false SAVGOL 7 1 (Some 12%float)
      [ball_only] = (Ok 0, [out]) /\
    ~ In "ball_vx" (names out).
Proof.
  split; [simpl; tauto|]. split; [simpl; tauto|].
  eexists. split; [vm_compute; reflexivity|].
  simpl. intros [H|[H|[H|[]]]]; discriminate H.
Qed.

(** ** The fields of the returned table *)

Lemma find_app_base (base added : list (string * series)) n :
  ~ In n (map fst base) ->
  find (fun c => String.eqb (fst c) n) (base ++ added) =
  find (fun c => String.eqb (fst c) n) added.
Proof.
  induction base as [|c base IH]; simpl; [reflexivity|].
  intros H. destruct (String.eqb (fst c) n) eqn:E.
  - apply String.eqb_eq in E. tauto.
  - apply IH. tauto.
Qed.

Lemma find_velocity_columns (p : string) v n rest :
  In n (map fst (velocity_columns p v)) ->
  find (fun c => String.eqb (fst c) n) (velocity_columns p v ++ rest) =
  find (fun c => String.eqb (fst c) n) (velocity_columns p v).
Proof.
  destruct v as [[vx vy] sp]. simpl.
  intros [<-|[<-|[<-|[]]]]; rewrite ?String.eqb_refl;
    repeat match goal with
           | |- context [String.eqb ?a ?b] => destruct (String.eqb a b)
           end; reflexivity.
Qed.

Lemma find_own_velocity_columns (p : string) vx vy sp :
  find (fun c => String.eqb (fst c) (p ++ "_vx")) (velocity_columns p (vx, vy, sp))
    = Some ((p ++ "_vx")%string, vx) /\
  find (fun c => String.eqb (fst c) (p ++ "_vy")) (velocity_columns p (vx, vy, sp))
    = Some ((p ++ "_vy")%string, vy) /\
  find (fun c => String.eqb (fst c) (p ++ "_speed")) (velocity_columns p (vx, vy, sp))
    = Some ((p ++ "_speed")%string, sp).
Proof.
  assert (N : forall (a b : string), suffix_of a <> suffix_of b -> String.eqb a b = false).
  { intros a b H. apply String.eqb_neq. congruence. }
  simpl. rewrite !String.eqb_refl.
  rewrite (N (p ++ "_vx")%string (p ++ "_vy")%string),
    (N (p ++ "_vx")%string (p ++ "_speed")%string),
    (N (p ++ "_vy")%string (p ++ "_speed")%string);
    try (unfold suffix_of; rewrite !last_split_app; discriminate).
  auto.
Qed.

Lemma find_other_velocity_columns (p q : string) v n rest :
  p <> q ->
  In n [(q ++ "_vx")%string; (q ++ "_vy")%string; (q ++ "_speed")%string] ->
  find (fun c => String.eqb (fst c) n) (velocity_columns p v ++ rest) =
  find (fun c => String.eqb (fst c) n) rest.
Proof.
  intros Hpq Hn. apply find_app_base. rewrite velocity_columns_names.
  intros Hin. apply Hpq. eapply velocity_name_inj; eauto.
Qed.

Lemma added_columns_lookup pv ps :
  fst (added_columns pv ps) = Ok tt -> NoDup ps ->
  forall p, In p ps ->
  exists vx vy sp,
    pv p = Ok (vx, vy, sp) /\
    let cols := snd (added_columns pv ps) in
    find (fun c => String.eqb (fst c) (p ++ "_vx")) cols
      = Some ((p ++ "_vx")%string, vx) /\
    find (fun c => String.eqb (fst c) (p ++ "_vy")) cols
      = Some ((p ++ "_vy")%string, vy) /\
    find (fun c => String.eqb (fst c) (p ++ "_speed")) cols
      = Some ((p ++ "_speed")%string, sp).
Proof.
  induction ps as [|q ps IH]; intros Hok Hnd p Hp; [destruct Hp|].
  simpl in Hok |- *. destruct (pv q) as [v|e] eqn:Ev; [|discriminate].
  destruct (added_columns pv ps) as [r cols] eqn:Ea. simpl in Hok |- *.
  inversion Hnd as [|? ? Hnotin Hnd']; subst.
  destruct Hp as [<-|Hp].
  - destruct v as [[vx vy] sp]. exists vx, vy, sp. split; [exact Ev|].
    rewrite !find_velocity_columns by (simpl; auto).
    apply find_own_velocity_columns.
  - destruct (IH eq_refl Hnd' p Hp) as (vx & vy & sp & Hv & Hx & Hy & Hs).
    cbv zeta in Hx, Hy, Hs. simpl snd in Hx, Hy, Hs.
    exists vx, vy, sp. split; [exact Hv|].
    assert (q <> p) by (intros ->; contradiction).
    rewrite !(find_other_velocity_columns q p) by (simpl; auto).
    auto.
Qed.

Section LinkProofs.
Variable savgol_fit : series -> Z -> Z -> series.

(** The fields of the returned table are the series computed for each
    player from the input table without its derived fields. *)
Lemma calc_writes_player_velocities t h smoothing filter_ window polyorder
    maxspeed t' h' :
  calc_player_velocities savgol_fit t smoothing filter_ window polyorder
    maxspeed h = (Ok t', h') ->
  exists df out time,
    nth_error h t = Some df /\ nth_error h' t' = Some out /\
    get_column (sanitize df) "Time [s]" = Ok time /\
    forall p, In p (player_ids_of (sanitize df)) ->
      exists vx vy speed,
        player_velocities savgol_fit (sanitize df) (diff time)
          (find_second_half (sanitize df)) smoothing filter_ window
          polyorder maxspeed p = Ok (vx, vy, speed) /\
        get_column out (p ++ "_vx") = Ok vx /\
        get_column out (p ++ "_vy") = Ok vy /\
        get_column out (p ++ "_speed") = Ok speed.
Proof.
  intros H. apply calc_ok in H. destruct H as (df & Hd & HE & _ & _ & Hout).
  unfold estimate in HE, Hout.
  destruct (get_column (sanitize df) "Time [s]") as [time|e] eqn:Et;
    [|discriminate].
  cbv zeta in HE, Hout. simpl fst in HE. simpl snd in Hout.
  eexists df, _, time. split; [exact Hd|]. split; [exact Hout|].
  split; [exact Et|]. intros p Hp.
  destruct (added_columns_lookup _ _ HE (np_unique_nodup _) p Hp)
    as (vx & vy & sp & Hv & Hx & Hy & Hs).
  exists vx, vy, sp. split; [exact Hv|].
  destruct (velocity_derived p) as (Dx & Dy & Ds).
  pose proof (sanitize_no_derived df) as Hn.
  unfold get_column. simpl columns.
  rewrite !find_app_base by (apply no_derived_not_in; auto).
  cbv zeta in Hx, Hy, Hs. rewrite Hx, Hy, Hs. auto.
Qed.
End LinkProofs.

(** ** Running twice *)

Lemma has_derived_sanitize df : has_derived (sanitize df) = false.
Proof.
  unfold has_derived.
  rewrite (derived_columns_clean _ (sanitize_no_derived df)). reflexivity.
Qed.

Lemma sanitize_added df added :
  all_derived added ->
  sanitize (mkDataFrame (index df) (columns (sanitize df) ++ added)) =
  sanitize df.
Proof.
  intros Ha. unfold sanitize. simpl. f_equal.
  rewrite filter_app.
  rewrite (filter_none _ added).
  2:{ eapply Forall_impl; [|exact Ha]. intros c Hc. simpl in Hc.
      rewrite Hc. reflexivity. }
  rewrite app_nil_r. apply filter_all. apply Forall_forall.
  intros c Hc. apply filter_In in Hc. tauto.
Qed.

Lemma estimate_again savgol_fit df sm f w po ms :
  estimate savgol_fit
    (snd (estimate savgol_fit df sm f w po ms)) sm f w po ms =
  estimate savgol_fit df sm f w po ms.
Proof.
  destruct (estimate_shape savgol_fit df sm f w po ms) as (added & Ha & Hs).
  rewrite Hs at 1. unfold estimate at 1.
  rewrite (sanitize_added df added Ha). reflexivity.
Qed.

Section IdempotenceProofs.
Variable savgol_fit : series -> Z -> Z -> series.

(** C8.  Removing the derived fields a second time returns the same
    table and leaves the store as it is; and running the estimator on
    its own output with the same parameters returns a table equal to
    that output. *)
Theorem sanitizer_and_estimator_idempotent (t : loc) (h : store)
    (smoothing : bool) (filter_ : string) (window polyorder : Z)
    (maxspeed : option float) :
  (forall t1 h1,
     remove_player_velocities t h = (Ok t1, h1) ->
     remove_player_velocities t1 h1 = (Ok t1, h1)) /\
  (forall t1 h1,
     calc_player_velocities savgol_fit t smoothing filter_ window polyorder
       maxspeed h = (Ok t1, h1) ->
     exists t2 h2 out,
       calc_player_velocities savgol_fit t1 smoothing filter_ window
         polyorder maxspeed h1 = (Ok t2, h2) /\
       nth_error h1 t1 = Some out /\ nth_error h2 t2 = Some out).
Proof.
  split; intros t1 h1 H.
  - destruct (nth_error h t) as [df|] eqn:Hd.
    + rewrite (remove_run _ _ _ Hd) in H.
      assert (H1 : nth_error h1 t1 = Some (sanitize df)).
      { destruct (has_derived df) eqn:D; injection H as <- <-.
        - apply nth_error_alloc.
        - rewrite (has_derived_false _ D). exact Hd. }
      rewrite (remove_run _ _ _ H1), has_derived_sanitize. reflexivity.
    + unfold remove_player_velocities, bind, read in H. rewrite Hd in H.
      discriminate.
  - apply calc_ok in H. destruct H as (df & Hd & HE & _ & _ & Hout).
    pose proof (estimate_again savgol_fit df smoothing filter_ window
                  polyorder maxspeed) as Eq.
    remember (snd (estimate savgol_fit df smoothing filter_ window
                     polyorder maxspeed)) as out eqn:Eout.
    rewrite (calc_run _ _ _ _ _ _ _ _ _ Hout). cbv zeta.
    rewrite Eq, HE, <- Eout. simpl rmap.
    eexists _, _, out. split; [reflexivity|]. split; [exact Hout|].
    destruct (has_derived out) eqn:D.
    + rewrite update_alloc. apply nth_error_alloc.
    + eapply nth_error_update. exact Hout.
Qed.
End IdempotenceProofs.

Lemma sanitizer_and_estimator_idempotent_witness :
  exists t2 h2 out,
    calc_player_velocities fit_identity 1 false SAVGOL 7 1 (Some 12%float)
      (snd (calc_player_velocities fit_identity 0 false SAVGOL 7 1
              (Some 12%float) [two_rows_stale])) = (Ok t2, h2) /\
    nth_error
      (snd (calc_player_velocities fit_identity 0 false SAVGOL 7 1
              (Some 12%float) [two_rows_stale])) 1 = Some out /\
    nth_error h2 t2 = Some out.
Proof.
  apply (proj2 (sanitizer_and_estimator_idempotent fit_identity 0
                  [two_rows_stale] false SAVGOL 7 1 (Some 12%float))).
  vm_compute. reflexivity.
Defined.

(** ** The first row *)

Lemma interpolate_head s k v :
  next_valid s = Some (k, v) -> hd_error (interpolate s) = Some v.
Proof.
  unfold interpolate. destruct s as [|x s]; simpl; [discriminate|].
  destruct (isna x).
  - destruct (next_valid s) as [[k' v']|]; [|discriminate].
    intros [= <- <-]. reflexivity.
  - intros [= <- <-]. reflexivity.
Qed.

Lemma sdiv_diff_head x t v :
  hd_error (sdiv (diff x) (diff t)) = Some v -> isna v = true.
Proof.
  destruct x as [|a x], t as [|b t]; simpl; try discriminate.
  intros [= <-]. reflexivity.
Qed.

Section FirstRowProofs.
Variable savgol_fit : series -> Z -> Z -> series.

(** C2, amended.  The finite difference has no value (NaN) at the first
    row, but gap repair fills it: with smoothing disabled the first
    returned row holds the first valid sample of the series (finite and
    not rejected), and is missing only when no row has a valid sample.
    In the scenario of ten rows at constant velocity with
    [maxspeed = 12], every raw speed (about 25) exceeds the bound, so
    vx, vy and speed are missing at every row; with the rejection
    disabled, vx and speed are 25 up to rounding and vy is 0 at all ten
    rows, the first one included. *)
Theorem first_row_velocity :
  (forall (team : DataFrame) (time : series) (second_half_idx : option Z)
          (filter_ : string) (window polyorder : Z)
          (maxspeed : option float) (player : string)
          (vx vy speed : series),
     player_velocities savgol_fit team (diff time) second_half_idx false
       filter_ window polyorder maxspeed player = Ok (vx, vy, speed) ->
     exists raw_vx raw_vy,
       raw_velocities team (diff time) player = Ok (raw_vx, raw_vy) /\
       (* the finite difference has no value at the first row *)
       (forall v, hd_error raw_vx = Some v -> isna v = true) /\
       (forall v, hd_error raw_vy = Some v -> isna v = true) /\
       (* gap repair: the first returned row is the first valid sample *)
       let cleaned := reject_outliers maxspeed raw_vx raw_vy in
       (forall k v, next_valid (replace_inf (fst cleaned)) = Some (k, v) ->
          hd_error vx = Some v /\ isna v = false) /\
       (forall k v, next_valid (replace_inf (snd cleaned)) = Some (k, v) ->
          hd_error vy = Some v /\ isna v = false) /\
       (next_valid (replace_inf (fst cleaned)) = None -> all_missing vx) /\
       (next_valid (replace_inf (snd cleaned)) = None -> all_missing vy)) /\
  (exists out,
     calc_player_velocities savgol_fit 0 false SAVGOL 7 1 (Some 12%float)
       [constant_velocity] = (Ok 0, [out]) /\
     get_column out "Home_11_vx" = Ok (repeat nan 10) /\
     get_column out "Home_11_vy" = Ok (repeat nan 10) /\
     get_column out "Home_11_speed" = Ok (repeat nan 10)) /\
  (exists out vx speed,
     calc_player_velocities savgol_fit 0 false SAVGOL 7 1 None
       [constant_velocity] = (Ok 0, [out]) /\
     get_column out "Home_11_vx" = Ok vx /\
     get_column out "Home_11_vy" = Ok (repeat 0%float 10) /\
     get_column out "Home_11_speed" = Ok speed /\
     length vx = 10 /\ forallb near_25 vx = true /\
     length speed = 10 /\ forallb near_25 speed = true).
Proof.
  split; [|split].
  - intros team time second_half_idx filter_ window polyorder maxspeed
      player vx vy speed H.
    unfold player_velocities in H.
    destruct (raw_velocities team (diff time) player) as [[rx ry]|e] eqn:R;
      [|discriminate].
    simpl in H. exists rx, ry. split; [reflexivity|].
    assert (Hraw : (forall v, hd_error rx = Some v -> isna v = true) /\
                   (forall v, hd_error ry = Some v -> isna v = true)).
    { unfold raw_velocities in R.
      destruct (get_column team (player ++ "_x")) as [x|e]; [|discriminate].
      destruct (get_column team (player ++ "_y")) as [y|e]; [|discriminate].
      injection R as <- <-. split; intros v; apply sdiv_diff_head. }
    destruct Hraw as [Hx Hy]. split; [exact Hx|]. split; [exact Hy|].
    destruct (reject_outliers maxspeed rx ry) as [cx cy].
    injection H as <- <- _. unfold repair_gaps. simpl.
    repeat split.
    + eapply interpolate_head; eauto.
    + eapply next_valid_valid; eauto.
    + eapply interpolate_head; eauto.
    + eapply next_valid_valid; eauto.
    + intros N. unfold interpolate. rewrite interp_from_all_nan by auto.
      apply next_valid_none, N.
    + intros N. unfold interpolate. rewrite interp_from_all_nan by auto.
      apply next_valid_none, N.
  - eexists. split; [vm_compute; reflexivity|].
    repeat split; vm_compute; reflexivity.
  - eexists _, _, _. split; [vm_compute; reflexivity|].
    repeat split; vm_compute; reflexivity.
Qed.

End FirstRowProofs.

Lemma first_row_velocity_witness :
  exists v,
    hd_error (fst (fst (velocities_or_empty
      (player_velocities fit_identity two_rows (diff [0; 0.04]%float) None
         false SAVGOL 7 1 (Some 12%float) "Home_1")))) = Some v /\
    isna v = false.
Proof.
  destruct (proj1 (first_row_velocity fit_identity) two_rows [0; 0.04]%float
              None SAVGOL 7%Z 1%Z (Some 12%float) "Home_1" _ _ _
              ltac:(vm_compute; reflexivity))
    as (rx & ry & Hr & _ & _ & H & _).
  vm_compute in Hr. injection Hr as <- <-.
  eexists. eapply H. vm_compute. reflexivity.
Defined.

(** C2, as stated, is refuted twice: on two rows of a player moving at
    2.5 m/s the first returned row is not missing, and in the scenario
    of ten rows with [maxspeed = 12] the interior rows are not near 25
    (they are missing). *)
Lemma first_row_is_backfilled :
  (exists out vx v,
     calc_player_velocities fit_identity 0 false SAVGOL 7 1 (Some 12%float)
       [two_rows] = (Ok 0, [out]) /\
     get_column out "Home_1_vx" = Ok vx /\
     hd_error vx = Some v /\ isna v = false) /\
  (exists out vx,
     calc_player_velocities fit_identity 0 false SAVGOL 7 1 (Some 12%float)
       [constant_velocity] = (Ok 0, [out]) /\
     get_column out "Home_11_vx" = Ok vx /\
     near_25 (nth 1 vx 0%float) = false).
Proof.
  split.
  - eexists _, _, _. split; [vm_compute; reflexivity|].
    repeat split; vm_compute; reflexivity.
  - eexists _, _. split; [vm_compute; reflexivity|].
    repeat split; vm_compute; reflexivity.
Qed.

(** ** Rows from the boundary on *)

Lemma mask_ge_above idx b :
  Forall (fun l => (b < l)%Z) idx -> mask_ge idx b = repeat true (length idx).
Proof.
  unfold mask_ge.
  induction 1 as [|l idx Hl _ IH]; simpl; [reflexivity|].
  rewrite IH.
  replace (b <=? l)%Z with true by (symmetry; apply Z.leb_le; lia).
  reflexivity.
Qed.

Lemma mask_ge_sorted idx b : StronglySorted Z.lt idx ->
  forall k, nth_error idx k = Some b ->
  mask_ge idx b = repeat false k ++ repeat true (length idx - k).
Proof.
  induction 1 as [|l idx Hs IH Hall]; intros [|k] Hk; simpl in *;
    try discriminate.
  - injection Hk as ->. unfold mask_ge. simpl. rewrite Z.leb_refl. f_equal.
    apply (mask_ge_above idx b Hall).
  - rewrite Forall_forall in Hall.
    assert (l < b)%Z by (apply Hall; eapply nth_error_In; eauto).
    unfold mask_ge. simpl.
    replace (b <=? l)%Z with false by (symmetry; apply Z.leb_gt; lia).
    f_equal. apply IH. exact Hk.
Qed.

Lemma loc_get_all (s : series) : loc_get (repeat true (length s)) s = s.
Proof. induction s as [|x s IH]; simpl; congruence. Qed.

Lemma loc_get_tail k : forall (s : series),
  k <= length s ->
  loc_get (repeat false k ++ repeat true (length s - k)) s = skipn k s.
Proof.
  induction k as [|k IH]; intros s Hk.
  - simpl. rewrite Nat.sub_0_r. apply loc_get_all.
  - destruct s as [|x s]; simpl in *; [lia|]. apply IH. lia.
Qed.

Lemma loc_get_second_half idx b k (s : series) :
  StronglySorted Z.lt idx -> nth_error idx k = Some b ->
  length s = length idx ->
  loc_get (mask_ge idx b) s = skipn k s.
Proof.
  intros Hs Hk Hl. rewrite (mask_ge_sorted idx b Hs k Hk), <- Hl.
  apply loc_get_tail. rewrite Hl.
  apply Nat.lt_le_incl. apply nth_error_Some. congruence.
Qed.

Lemma skipn_diff_from j : forall a t,
  skipn j (diff_from a t) =
  match skipn j (a :: t) with
  | a' :: rest => diff_from a' rest
  | [] => []
  end.
Proof.
  induction j as [|j IH]; intros a t; [reflexivity|].
  destruct t as [|c t]; simpl.
  - destruct j; reflexivity.
  - apply IH.
Qed.

Lemma skipn_diff k x x' :
  skipn (k - 1) x' = skipn (k - 1) x ->
  skipn k (diff x') = skipn k (diff x).
Proof.
  destruct k as [|j]; simpl.
  - intros H. congruence.
  - rewrite Nat.sub_0_r. intros H.
    destruct x as [|a t], x' as [|a' t']; simpl.
    + reflexivity.
    + rewrite skipn_diff_from, H. destruct j; reflexivity.
    + rewrite skipn_diff_from, <- H. destruct j; reflexivity.
    + rewrite !skipn_diff_from, H. reflexivity.
Qed.

Lemma skipn_map2 {A B C} (f : A -> B -> C) k : forall l l',
  skipn k (map2 f l l') = map2 f (skipn k l) (skipn k l').
Proof.
  induction k as [|k IH]; intros [|a l] [|b l']; simpl; auto.
  destruct (skipn k l); reflexivity.
Qed.

Lemma skipn_put_nan k : forall mask s,
  length mask = length s ->
  skipn k (put_nan mask s) = put_nan (skipn k mask) (skipn k s).
Proof.
  induction k as [|k IH]; intros [|m mask] [|x s] H; simpl in *;
    try discriminate; try reflexivity.
  apply IH. lia.
Qed.

Lemma put_nan_length mask : forall s, length (put_nan mask s) = length s.
Proof.
  induction mask as [|m mask IH]; intros [|x s]; simpl; auto.
Qed.

Lemma diff_from_length s : forall a, length (diff_from a s) = length s.
Proof. induction s as [|x s IH]; intros a; simpl; auto. Qed.

Lemma diff_length s : length (diff s) = length s.
Proof. destruct s; simpl; [reflexivity|]. rewrite diff_from_length; auto. Qed.

Lemma sdiv_length a b : length a = length b -> length (sdiv a b) = length a.
Proof. apply map2_length. Qed.

Lemma sspeed_length a b : length a = length b -> length (sspeed a b) = length a.
Proof. apply map2_length. Qed.

Lemma repair_gaps_length s : length (repair_gaps s) = length s.
Proof.
  unfold repair_gaps, interpolate, replace_inf.
  rewrite interp_from_length, length_map. reflexivity.
Qed.

Lemma reject_outliers_length ms vx vy :
  length (fst (reject_outliers ms vx vy)) = length vx /\
  length (snd (reject_outliers ms vx vy)) = length vy.
Proof.
  unfold reject_outliers. destruct (maxspeed_enabled ms); [|auto].
  destruct ms; simpl; rewrite ?put_nan_length; auto.
Qed.

Lemma skipn_reject_outliers k ms vx vy :
  length vx = length vy ->
  reject_outliers ms (skipn k vx) (skipn k vy) =
  (skipn k (fst (reject_outliers ms vx vy)),
   skipn k (snd (reject_outliers ms vx vy))).
Proof.
  intros H. unfold reject_outliers. destruct (maxspeed_enabled ms); [|reflexivity].
  destruct ms as [m|]; [|reflexivity]. simpl.
  rewrite !skipn_put_nan by (rewrite length_map, sspeed_length; auto).
  rewrite skipn_map. unfold sspeed. rewrite skipn_map2. reflexivity.
Qed.

Lemma skipn_interp_valid k : forall s i prev a rest,
  skipn k s = a :: rest -> isna a = false ->
  skipn k (interp_from i prev s) =
  a :: interp_from (S (i + k)) (Some (i + k, a)) rest.
Proof.
  induction k as [|k IH]; intros s i prev a rest Hs Ha.
  - simpl in Hs. subst s. simpl. rewrite Ha, Nat.add_0_r. reflexivity.
  - destruct s as [|x s]; [discriminate|]. simpl in Hs. simpl.
    replace (i + S k) with (S i + k) by lia.
    destruct (isna x); simpl; apply IH; auto.
Qed.

Lemma nth_valid_skipn k (s : series) :
  isna (nth k s nan) = false ->
  exists a rest, skipn k s = a :: rest /\ isna a = false.
Proof.
  revert s; induction k as [|k IH]; intros [|x s] H; simpl in *;
    try discriminate; eauto.
Qed.

Lemma skipn_repair_gaps k s s' :
  skipn k s' = skipn k s ->
  isna (nth k (replace_inf s) nan) = false ->
  skipn k (repair_gaps s') = skipn k (repair_gaps s).
Proof.
  intros E V. unfold repair_gaps, interpolate.
  destruct (nth_valid_skipn _ _ V) as (a & rest & Hs & Ha).
  assert (Hs' : skipn k (replace_inf s') = a :: rest).
  { unfold replace_inf in *. rewrite skipn_map, E, <- skipn_map. exact Hs. }
  rewrite (skipn_interp_valid k _ 0 None a rest Hs Ha).
  rewrite (skipn_interp_valid k _ 0 None a rest Hs' Ha).
  reflexivity.
Qed.

Lemma ma_second_segment idx b k window vx vy ox oy :
  StronglySorted Z.lt idx -> nth_error idx k = Some b ->
  length vx = length idx -> length vy = length idx ->
  smooth_moving_average idx (Some b) window vx vy = Ok (ox, oy) ->
  exists ker,
    ma_kernel window = Ok ker /\
    np_convolve_same (bfill (ffill (skipn k vx))) ker = Ok (skipn k ox) /\
    np_convolve_same (bfill (ffill (skipn k vy))) ker = Ok (skipn k oy) /\
    length ox = length idx /\ length oy = length idx.
Proof.
  intros Hs Hk Hx Hy H. unfold smooth_moving_average in H.
  bind_ok H. bind_ok H. bind_ok H. bind_ok H. bind_ok H.
  bind_ok H. bind_ok H. bind_ok H. bind_ok H.
  injection H as <- <-.
  apply loc_set_ok in Hr1, Hr3, Hr5, Hr7.
  destruct Hr1 as [L1 ->], Hr3 as [L3 ->], Hr5 as [L5 ->], Hr7 as [L7 ->].
  rewrite (loc_get_second_half idx b k vx Hs Hk Hx) in Hr4.
  rewrite (loc_get_second_half idx b k vy Hs Hk Hy) in Hr6.
  exists r. split; [reflexivity|].
  assert (Ox : skipn k (loc_put (mask_ge idx b)
                 (loc_put (mask_le idx b) vx r0) r4) = r4).
  { rewrite <- (loc_get_second_half idx b k _ Hs Hk)
      by (rewrite !loc_put_length; exact Hx).
    apply loc_get_put; [|exact L5].
    rewrite loc_put_length, mask_ge_length. exact Hx. }
  assert (Oy : skipn k (loc_put (mask_ge idx b)
                 (loc_put (mask_le idx b) vy r2) r6) = r6).
  { rewrite <- (loc_get_second_half idx b k _ Hs Hk)
      by (rewrite !loc_put_length; exact Hy).
    apply loc_get_put; [|exact L7].
    rewrite loc_put_length, mask_ge_length. exact Hy. }
  rewrite Ox, Oy, !loc_put_length. auto.
Qed.

Section IsolationProofs.
Variable savgol_fit : series -> Z -> Z -> series.

(** C6, amended.  With the moving-average filter, on a table whose index
    increases strictly, take two tables that differ only in position
    values at rows strictly before the row preceding the boundary row.
    When the boundary row's own velocity is valid (finite and not
    rejected), so that gap repair of the second half does not reach
    into the first, and both runs return, the final vx, vy and speed
    are the same at every row from the boundary row on. *)
Theorem second_half_isolated_moving_average
    (team team' : DataFrame) (dt : series) (b : Z) (k : nat)
    (window polyorder : Z) (maxspeed : option float) (player : string)
    (x y x' y' vx vy speed vx' vy' speed' : series) :
  index team' = index team ->
  StronglySorted Z.lt (index team) ->
  nth_error (index team) k = Some b ->
  get_column team (player ++ "_x") = Ok x ->
  get_column team (player ++ "_y") = Ok y ->
  get_column team' (player ++ "_x") = Ok x' ->
  get_column team' (player ++ "_y") = Ok y' ->
  length x = length (index team) -> length y = length (index team) ->
  length x' = length (index team) -> length y' = length (index team) ->
  length dt = length (index team) ->
  (* the positions agree from the row preceding the boundary row on *)
  skipn (k - 1) x' = skipn (k - 1) x ->
  skipn (k - 1) y' = skipn (k - 1) y ->
  (* the boundary row's own velocity survives rejection *)
  (let cleaned := reject_outliers maxspeed (sdiv (diff x) dt) (sdiv (diff y) dt) in
   isna (nth k (replace_inf (fst cleaned)) nan) = false /\
   isna (nth k (replace_inf (snd cleaned)) nan) = false) ->
  player_velocities savgol_fit team dt (Some b) true MOVING_AVERAGE window
    polyorder maxspeed player = Ok (vx, vy, speed) ->
  player_velocities savgol_fit team' dt (Some b) true MOVING_AVERAGE window
    polyorder maxspeed player = Ok (vx', vy', speed') ->
  skipn k vx' = skipn k vx /\ skipn k vy' = skipn k vy /\
  skipn k speed' = skipn k speed.
Proof.
  intros Hidx Hs Hk Gx Gy Gx' Gy' Lx Ly Lx' Ly' Ldt Ex Ey [Vx Vy] R R'.
  unfold player_velocities, raw_velocities in R, R'.
  rewrite Gx, Gy in R. rewrite Gx', Gy' in R'. simpl in R, R'.
  rewrite Hidx in R'.
  set (rx := sdiv (diff x) dt) in *. set (ry := sdiv (diff y) dt) in *.
  set (rx' := sdiv (diff x') dt) in *. set (ry' := sdiv (diff y') dt) in *.
  assert (Lrx : length rx = length (index team))
    by (unfold rx; rewrite sdiv_length; rewrite diff_length; congruence).
  assert (Lry : length ry = length (index team))
    by (unfold ry; rewrite sdiv_length; rewrite diff_length; congruence).
  assert (Lrx' : length rx' = length (index team))
    by (unfold rx'; rewrite sdiv_length; rewrite diff_length; congruence).
  assert (Lry' : length ry' = length (index team))
    by (unfold ry'; rewrite sdiv_length; rewrite diff_length; congruence).
  assert (Erx : skipn k rx' = skipn k rx).
  { unfold rx, rx', sdiv. rewrite !skipn_map2, (skipn_diff k x x' Ex).
    reflexivity. }
  assert (Ery : skipn k ry' = skipn k ry).
  { unfold ry, ry', sdiv. rewrite !skipn_map2, (skipn_diff k y y' Ey).
    reflexivity. }
  assert (Ec : skipn k (fst (reject_outliers maxspeed rx' ry')) =
               skipn k (fst (reject_outliers maxspeed rx ry)) /\
               skipn k (snd (reject_outliers maxspeed rx' ry')) =
               skipn k (snd (reject_outliers maxspeed rx ry))).
  { pose proof (skipn_reject_outliers k maxspeed rx ry ltac:(congruence)) as A.
    pose proof (skipn_reject_outliers k maxspeed rx' ry' ltac:(congruence)) as A'.
    rewrite Erx, Ery, A in A'. injection A' as -> ->. auto. }
  destruct Ec as [Ecx Ecy].
  destruct (reject_outliers_length maxspeed rx ry) as [Lcx Lcy].
  destruct (reject_outliers_length maxspeed rx' ry') as [Lcx' Lcy'].
  destruct (reject_outliers maxspeed rx ry) as [cx cy].
  destruct (reject_outliers maxspeed rx' ry') as [cx' cy'].
  simpl in *.
  pose proof (skipn_repair_gaps k cx cx' Ecx Vx) as Egx.
  pose proof (skipn_repair_gaps k cy cy' Ecy Vy) as Egy.
  destruct (smooth_moving_average (index team) (Some b) window
              (repair_gaps cx) (repair_gaps cy)) as [[ox oy]|e] eqn:S;
    [|discriminate].
  destruct (smooth_moving_average (index team) (Some b) window
              (repair_gaps cx') (repair_gaps cy')) as [[ox' oy']|e] eqn:S';
    [|discriminate].
  injection R as <- <- <-. injection R' as <- <- <-.
  apply (ma_second_segment _ b k) in S, S';
    try (rewrite repair_gaps_length; congruence); auto.
  destruct S as (ker & K & Cx & Cy & Lox & Loy).
  destruct S' as (ker' & K' & Cx' & Cy' & Lox' & Loy').
  rewrite K in K'. injection K' as <-.
  rewrite Egx, Cx in Cx'. rewrite Egy, Cy in Cy'.
  injection Cx' as Cx'. injection Cy' as Cy'.
  split; [auto|]. split; [auto|].
  unfold sspeed. rewrite !skipn_map2. congruence.
Qed.
End IsolationProofs.

Lemma second_half_isolated_moving_average_witness :
  skipn 3 (fst (fst (velocities_or_empty
    (player_velocities fit_identity (two_halves spike_earlier)
       (diff [0; 0.04; 0.08; 0.12; 0.16; 0.2]%float) (Some 4%Z) true
       MOVING_AVERAGE 3 1 (Some 12%float) "Home_1")))) =
  skipn 3 (fst (fst (velocities_or_empty
    (player_velocities fit_identity (two_halves at_rest)
       (diff [0; 0.04; 0.08; 0.12; 0.16; 0.2]%float) (Some 4%Z) true
       MOVING_AVERAGE 3 1 (Some 12%float) "Home_1")))).
Proof.
  refine (proj1 (second_half_isolated_moving_average fit_identity
    (two_halves at_rest) (two_halves spike_earlier)
    (diff [0; 0.04; 0.08; 0.12; 0.16; 0.2]%float) 4%Z 3 3%Z 1%Z
    (Some 12%float) "Home_1"
    at_rest [0; 0; 0; 0; 0; 0]%float spike_earlier [0; 0; 0; 0; 0; 0]%float
    _ _ _ _ _ _
    eq_refl _ eq_refl eq_refl eq_refl eq_refl eq_refl
    eq_refl eq_refl eq_refl eq_refl eq_refl eq_refl eq_refl
    _ _ _)).
  - repeat constructor.
  - split; vm_compute; reflexivity.
  - vm_compute. reflexivity.
  - vm_compute. reflexivity.
Defined.

(** C6, as stated, is refuted by a spike at the row preceding the
    boundary row: the finite difference of the boundary row reads that
    position, and the second segment's smoother spreads it over the
    following rows. *)
Lemma spike_smears_into_second_half :
  find_second_half (two_halves at_rest) = Some 4%Z /\
  firstn 2 spike_before_boundary = firstn 2 at_rest /\
  skipn 3 spike_before_boundary = skipn 3 at_rest /\
  exists out out' vx vx',
    calc_player_velocities fit_identity 0 true MOVING_AVERAGE 3 1
      (Some 12%float) [two_halves at_rest] = (Ok 0, [out]) /\
    calc_player_velocities fit_identity 0 true MOVING_AVERAGE 3 1
      (Some 12%float) [two_halves spike_before_boundary] = (Ok 0, [out']) /\
    get_column out "Home_1_vx" = Ok vx /\
    get_column out' "Home_1_vx" = Ok vx' /\
    (* the row after the boundary row *)
    nth 4 vx nan = 0%float /\
    PrimFloat.ltb (nth 4 vx' nan) (-1)%float = true.
Proof.
  split; [reflexivity|]. split; [reflexivity|]. split; [reflexivity|].
  eexists _, _, _, _.
  split; [vm_compute; reflexivity|].
  split; [vm_compute; reflexivity|].
  split; [vm_compute; reflexivity|].
  split; [vm_compute; reflexivity|].
  split; vm_compute; reflexivity.
Qed.

(** ** The moving average with a window longer than the segment *)

Lemma correlate_same_length a v : length (correlate_same a v) = length a.
Proof. unfold correlate_same. rewrite length_map, length_seq. reflexivity. Qed.

Lemma np_convolve_same_length a v r :
  np_convolve_same a v = Ok r -> length r = Nat.max (length a) (length v).
Proof.
  unfold np_convolve_same. destruct (Nat.ltb (length a) (length v)) eqn:E.
  - apply Nat.ltb_lt in E. destruct v as [|y v]; [discriminate|].
    destruct a as [|x a]; [discriminate|]. intros [= <-].
    rewrite correlate_same_length. lia.
  - apply Nat.ltb_ge in E. destruct a as [|x a]; [discriminate|].
    destruct v as [|y v]; [discriminate|]. intros [= <-].
    rewrite correlate_same_length. lia.
Qed.

Lemma moving_average_window_too_long idx window vx vy :
  length vx < Z.to_nat window ->
  smooth_moving_average idx None window vx vy = Raise ValueError.
Proof.
  intros H. unfold smooth_moving_average, ma_kernel.
  destruct (window <? 0)%Z; [reflexivity|]. simpl.
  destruct (np_convolve_same _ _) as [r|e] eqn:E.
  - apply np_convolve_same_length in E.
    rewrite repeat_length, bfill_length in E. unfold ffill in E.
    rewrite ffill_from_length in E. simpl. unfold set_all.
    replace (Nat.eqb (length r) (length vx)) with false; [reflexivity|].
    symmetry. apply Nat.eqb_neq. lia.
  - unfold np_convolve_same in E.
    destruct (Nat.ltb _ _); destruct (bfill (ffill vx)); destruct (repeat _ _);
      try discriminate; injection E as <-; reflexivity.
Qed.

(** C1.  The moving average with the default window of 7 on a table of
    three rows: [np.convolve] returns 7 values for 3 rows, and the
    assignment raises. *)
Lemma moving_average_fails_on_short_segment savgol_fit :
  calc_player_velocities savgol_fit 0 true MOVING_AVERAGE 7 1
    (Some 12%float) [three_rows] = (Raise ValueError, [three_rows]).
Proof. vm_compute. reflexivity. Qed.

(** ** When the estimator fails *)

Lemma get_column_missing df n :
  ~ In n (names df) -> get_column df n = Raise (KeyError n).
Proof.
  unfold get_column, names. intros H.
  destruct (find _ _) as [c|] eqn:E; [|reflexivity].
  apply find_some in E. destruct E as [Hc E]. apply String.eqb_eq in E.
  exfalso. apply H. subst. apply in_map. exact Hc.
Qed.

Lemma get_column_present df n :
  In n (names df) -> exists s, get_column df n = Ok s.
Proof.
  unfold get_column, names. intros H. apply in_map_iff in H.
  destruct H as (c & <- & Hc).
  destruct (find _ _) as [c'|] eqn:E; [eauto|].
  exfalso. apply (find_none _ _ E) in Hc. rewrite String.eqb_refl in Hc.
  discriminate.
Qed.

Lemma time_not_derived : is_derived "Time [s]" = false.
Proof. reflexivity. Qed.

Lemma added_columns_all_ok pv ps :
  Forall (fun p => exists v, pv p = Ok v) ps ->
  fst (added_columns pv ps) = Ok tt.
Proof.
  induction 1 as [|p ps [v Hv] _ IH]; simpl; [reflexivity|].
  rewrite Hv. destruct (added_columns pv ps) as [r cols]. exact IH.
Qed.

Lemma added_columns_raise pv ps e :
  fst (added_columns pv ps) = Raise e -> exists p, In p ps /\ pv p = Raise e.
Proof.
  induction ps as [|p ps IH]; simpl; [discriminate|].
  destruct (pv p) as [v|e'] eqn:E.
  - destruct (added_columns pv ps) as [r cols]. simpl in *. intros H.
    destruct (IH H) as (q & Hq & Hr). eauto.
  - simpl. intros [= ->]. eauto.
Qed.

Section SchemaProofs.
Variable savgol_fit : series -> Z -> Z -> series.

Lemma player_velocities_unsmoothed_ok df dt shi f w po ms (p : string) :
  In (p ++ "_x")%string (names df) -> In (p ++ "_y")%string (names df) ->
  exists v, player_velocities savgol_fit df dt shi false f w po ms p = Ok v.
Proof.
  intros Hx Hy. unfold player_velocities, raw_velocities.
  destruct (get_column_present _ _ Hx) as [x ->].
  destruct (get_column_present _ _ Hy) as [y ->]. simpl.
  destruct (reject_outliers _ _ _) as [cx cy]. simpl. eauto.
Qed.

Lemma player_velocities_unsmoothed_raise df dt shi f w po ms p e :
  player_velocities savgol_fit df dt shi false f w po ms p = Raise e ->
  exists k, e = KeyError k.
Proof.
  unfold player_velocities, raw_velocities.
  destruct (get_column df (p ++ "_x")) as [x|e1] eqn:Ex.
  - destruct (get_column df (p ++ "_y")) as [y|e2] eqn:Ey.
    + simpl. destruct (reject_outliers _ _ _) as [cx cy]. simpl. discriminate.
    + simpl. intros [= <-]. unfold get_column in Ey.
      destruct (find _ _); [discriminate|]. injection Ey as <-. eauto.
  - simpl. intros [= <-]. unfold get_column in Ex.
    destruct (find _ _); [discriminate|]. injection Ex as <-. eauto.
Qed.

(** X1.  A table without the field 'Time [s]' makes the estimator raise
    KeyError('Time [s]') (line 39), whatever the other arguments are.
    This happens after the derived fields were removed: the caller's
    table is as it was, and the store has changed only by the sanitised
    copy that [remove_player_velocities] made of a table with derived
    fields. *)
Theorem missing_time_raises (t : loc) (h : store) (df : DataFrame)
    (smoothing : bool) (filter_ : string) (window polyorder : Z)
    (maxspeed : option float) :
  nth_error h t = Some df ->
  ~ In "Time [s]" (names df) ->
  let run := calc_player_velocities savgol_fit t smoothing filter_ window
               polyorder maxspeed h in
  fst run = Raise (KeyError "Time [s]") /\
  nth_error (snd run) t = Some df /\
  snd run = (if has_derived df then h ++ [sanitize df] else h).
Proof.
  intros H Ht run. unfold run. rewrite (calc_run _ _ _ _ _ _ _ _ _ H).
  cbv zeta. unfold estimate.
  rewrite get_column_missing.
  2:{ intros Hin. apply names_sanitize in Hin. tauto. }
  simpl. split; [reflexivity|].
  destruct (has_derived df) eqn:D.
  - rewrite update_alloc. split; [|reflexivity].
    rewrite nth_error_app1; [exact H|]. apply nth_error_Some. congruence.
  - rewrite (has_derived_false _ D), (update_same _ _ _ H). auto.
Qed.

(** X2.  A tagged prefix (Home..., Away...) that has only one of its two
    position fields is still listed as a player (lines 33-36), and the
    lookup of the field it lacks fails (lines 84-85): the estimator
    raises. *)
Theorem incomplete_player_raises (t : loc) (h : store) (df : DataFrame)
    (smoothing : bool) (filter_ : string) (window polyorder : Z)
    (maxspeed : option float) (p : string) :
  nth_error h t = Some df ->
  has_team_tag p = true ->
  (In (p ++ "_x")%string (names df) /\ ~ In (p ++ "_y")%string (names df)) \/
  (In (p ++ "_y")%string (names df) /\ ~ In (p ++ "_x")%string (names df)) ->
  exists e,
    fst (calc_player_velocities savgol_fit t smoothing filter_ window
           polyorder maxspeed h) = Raise e.
Proof.
  intros H Ht Hp. rewrite (calc_run _ _ _ _ _ _ _ _ _ H). cbv zeta.
  destruct (fst (estimate savgol_fit df smoothing filter_ window polyorder
                   maxspeed)) as [[]|e] eqn:E; [|simpl; eauto].
  exfalso. destruct (estimate_ok _ _ _ _ _ _ _ E) as (time & _ & Hall & _).
  rewrite Forall_forall in Hall.
  destruct (position_not_derived p) as [Nx Ny].
  assert (Hin : In p (player_ids_of (sanitize df))).
  { apply player_ids_in. split; [exact Ht|].
    destruct Hp as [[Hx _]|[Hy _]]; [left|right]; apply names_sanitize; auto. }
  destruct (Hall p Hin) as [v Hv]. apply player_velocities_ok in Hv.
  destruct Hv as [Hx Hy]. apply names_sanitize in Hx, Hy. tauto.
Qed.

(** X3.  With smoothing disabled the estimator returns exactly on the
    tables that have the field 'Time [s]' and in which every tagged
    prefix has both position fields or neither; every failure is a
    KeyError. *)
Theorem unsmoothed_returns_iff (t : loc) (h : store) (df : DataFrame)
    (filter_ : string) (window polyorder : Z) (maxspeed : option float) :
  nth_error h t = Some df ->
  let run := calc_player_velocities savgol_fit t false filter_ window
               polyorder maxspeed h in
  ((exists t', fst run = Ok t') <->
   In "Time [s]" (names df) /\ complete_players df) /\
  (forall e, fst run = Raise e -> exists k, e = KeyError k).
Proof.
  intros H run. unfold run. rewrite (calc_run _ _ _ _ _ _ _ _ _ H). cbv zeta.
  set (E := estimate savgol_fit df false filter_ window polyorder maxspeed).
  split; [split|].
  - intros [t' Hr].
    destruct (fst E) as [[]|e] eqn:HE; [|discriminate].
    destruct (estimate_ok _ _ _ _ _ _ _ HE) as (time & Ht & Hall & _).
    rewrite Forall_forall in Hall. split.
    + apply get_column_ok in Ht. apply names_sanitize in Ht. tauto.
    + intros p Hp. destruct (position_not_derived p) as [Nx Ny].
      assert (Hpl : In (p ++ "_x")%string (names df) \/
                    In (p ++ "_y")%string (names df) ->
                    In (p ++ "_x")%string (names df) /\
                    In (p ++ "_y")%string (names df)).
      { intros Hxy.
        assert (Hin : In p (player_ids_of (sanitize df))).
        { apply player_ids_in. split; [exact Hp|].
          destruct Hxy; [left|right]; apply names_sanitize; auto. }
        destruct (Hall p Hin) as [v Hv]. apply player_velocities_ok in Hv.
        destruct Hv as [Hx Hy]. apply names_sanitize in Hx, Hy. tauto. }
      tauto.
  - intros [Ht Hc]. unfold E, estimate.
    destruct (get_column_present (sanitize df) "Time [s]") as [time ->].
    { apply names_sanitize. split; [exact Ht|reflexivity]. }
    cbv zeta. simpl fst. rewrite added_columns_all_ok; [simpl; eauto|].
    apply Forall_forall. intros p Hp. apply player_ids_in in Hp.
    destruct Hp as [Hp Hxy]. destruct (position_not_derived p) as [Nx Ny].
    apply player_velocities_unsmoothed_ok; apply names_sanitize;
      (split; [|assumption]);
      destruct Hxy as [Hx|Hy];
      try (apply names_sanitize in Hx; destruct Hx as [Hx _]);
      try (apply names_sanitize in Hy; destruct Hy as [Hy _]);
      try assumption; apply (Hc p Hp); assumption.
  - intros e He. unfold E, estimate in He.
    destruct (get_column (sanitize df) "Time [s]") as [time|e'] eqn:Ht.
    + cbv zeta in He. simpl fst in He.
      destruct (fst (added_columns _ _)) as [[]|e''] eqn:Ha; [discriminate|].
      simpl in He. injection He as <-.
      apply added_columns_raise in Ha. destruct Ha as (p & _ & Hr).
      eapply player_velocities_unsmoothed_raise. exact Hr.
    + simpl in He. injection He as <-. unfold get_column in Ht.
      destruct (find _ _); [discriminate|]. injection Ht as <-. eauto.
Qed.
End SchemaProofs.

(** ** The shape of the returned table *)

Lemma loc_get_length mask : forall (s : series),
  length s = length mask -> length (loc_get mask s) = count_true mask.
Proof.
  unfold count_true.
  induction mask as [|m mask IH]; intros [|x s] H; try destruct m;
    simpl in *; try discriminate; auto.
Qed.

Lemma set_all_ok s vals out :
  set_all s vals = Ok out -> out = vals /\ length out = length s.
Proof.
  unfold set_all. destruct (Nat.eqb _ _) eqn:E; [|discriminate].
  apply Nat.eqb_eq in E. intros [= <-]. auto.
Qed.

Lemma loc_set_length mask s vals out :
  loc_set mask s vals = Ok out -> length out = length s.
Proof.
  intros H. apply loc_set_ok in H. destruct H as [_ ->].
  apply loc_put_length.
Qed.

Lemma get_column_rectangular df n s :
  rectangular df -> get_column df n = Ok s -> length s = length (index df).
Proof.
  unfold rectangular, get_column. intros R H.
  destruct (find _ _) as [c|] eqn:E; [|discriminate]. injection H as <-.
  apply find_some in E. destruct E as [Hc _].
  rewrite Forall_forall in R. auto.
Qed.

Lemma sanitize_rectangular df : rectangular df -> rectangular (sanitize df).
Proof.
  unfold rectangular, sanitize. simpl. intros R.
  apply Forall_forall. intros c Hc. apply filter_In in Hc.
  rewrite Forall_forall in R. apply R. tauto.
Qed.

Lemma added_columns_lengths pv ps n :
  (forall p vx vy sp, pv p = Ok (vx, vy, sp) ->
     length vx = n /\ length vy = n /\ length sp = n) ->
  Forall (fun c => length (snd c) = n) (snd (added_columns pv ps)).
Proof.
  intros H. induction ps as [|p ps IH]; simpl; [constructor|].
  destruct (pv p) as [[[vx vy] sp]|e] eqn:E; [|constructor].
  destruct (added_columns pv ps) as [r cols]. simpl in *.
  destruct (H _ _ _ _ E) as (A & B & C).
  repeat constructor; auto.
Qed.

Lemma smooth_moving_average_lengths idx shi w vx vy ox oy :
  smooth_moving_average idx shi w vx vy = Ok (ox, oy) ->
  length ox = length vx /\ length oy = length vy.
Proof.
  unfold smooth_moving_average. intros H. bind_ok H. destruct shi as [b|].
  - bind_ok H. bind_ok H. bind_ok H. bind_ok H.
    bind_ok H. bind_ok H. bind_ok H. bind_ok H. injection H as <- <-.
    apply loc_set_length in Hr1, Hr3, Hr5, Hr7. split; congruence.
  - bind_ok H. bind_ok H. bind_ok H. bind_ok H. injection H as <- <-.
    apply set_all_ok in Hr1, Hr3. tauto.
Qed.

Section ShapeProofs.
Variable savgol_fit : series -> Z -> Z -> series.

Lemma smooth_savgol_lengths idx shi w po vx vy ox oy :
  smooth_savgol savgol_fit idx shi w po vx vy = Ok (ox, oy) ->
  length ox = length vx /\ length oy = length vy.
Proof.
  unfold smooth_savgol. destruct shi as [b|]; intros H.
  - bind_ok H. bind_ok H. bind_ok H. bind_ok H.
    bind_ok H. bind_ok H. bind_ok H. bind_ok H. injection H as <- <-.
    apply loc_set_length in Hr0, Hr2, Hr4, Hr6. split; congruence.
  - bind_ok H. bind_ok H. bind_ok H. bind_ok H. injection H as <- <-.
    apply set_all_ok in Hr0, Hr2. tauto.
Qed.

Lemma smooth_lengths idx shi sm f w po vx vy ox oy :
  smooth savgol_fit idx shi sm f w po vx vy = Ok (ox, oy) ->
  length ox = length vx /\ length oy = length vy.
Proof.
  unfold smooth. destruct sm; [|intros [= <- <-]; auto].
  destruct (String.eqb f SAVGOL); [apply smooth_savgol_lengths|].
  destruct (String.eqb f MOVING_AVERAGE);
    [apply smooth_moving_average_lengths|intros [= <- <-]; auto].
Qed.

Lemma raw_velocities_lengths df time p vx vy :
  rectangular df ->
  length time = length (index df) ->
  raw_velocities df (diff time) p = Ok (vx, vy) ->
  length vx = length (index df) /\ length vy = length (index df).
Proof.
  intros R Ht H. unfold raw_velocities in H.
  destruct (get_column df (p ++ "_x")) as [x|e] eqn:Ex; [|discriminate].
  destruct (get_column df (p ++ "_y")) as [y|e] eqn:Ey; [|discriminate].
  injection H as <- <-.
  apply (get_column_rectangular _ _ _ R) in Ex, Ey.
  rewrite !sdiv_length; rewrite !diff_length; auto; congruence.
Qed.

Lemma player_velocities_lengths df time shi sm f w po ms p vx vy sp :
  rectangular df ->
  length time = length (index df) ->
  player_velocities savgol_fit df (diff time) shi sm f w po ms p
    = Ok (vx, vy, sp) ->
  length vx = length (index df) /\ length vy = length (index df) /\
  length sp = length (index df).
Proof.
  intros R Ht H. unfold player_velocities in H.
  destruct (raw_velocities df (diff time) p) as [[rx ry]|e] eqn:Er;
    [|discriminate].
  destruct (raw_velocities_lengths _ _ _ _ _ R Ht Er) as [Lx Ly].
  simpl in H.
  destruct (reject_outliers_length ms rx ry) as [Lcx Lcy].
  destruct (reject_outliers ms rx ry) as [cx cy]. simpl in *.
  destruct (smooth _ _ _ _ _ _ _ _ _) as [[ox oy]|e] eqn:Es; [|discriminate].
  apply smooth_lengths in Es. rewrite !repair_gaps_length in Es.
  destruct Es as [Lox Loy]. injection H as <- <- <-.
  rewrite sspeed_length; repeat split; congruence.
Qed.

(** X4.  The estimator keeps the table rectangular: when every field of
    the input has one value per row, the returned table has the input's
    row index and every field of it, the derived ones included, has one
    value per row, for every filter and every window. *)
Theorem estimator_keeps_table_rectangular (t : loc) (h : store)
    (smoothing : bool) (filter_ : string) (window polyorder : Z)
    (maxspeed : option float) (df : DataFrame) (t' : loc) (h' : store) :
  nth_error h t = Some df ->
  rectangular df ->
  calc_player_velocities savgol_fit t smoothing filter_ window polyorder
    maxspeed h = (Ok t', h') ->
  exists out,
    nth_error h' t' = Some out /\ index out = index df /\ rectangular out.
Proof.
  intros Hd R H. apply calc_ok in H.
  destruct H as (df' & Hd' & HE & _ & _ & Hout).
  rewrite Hd in Hd'. injection Hd' as <-.
  eexists. split; [exact Hout|].
  unfold estimate in *.
  destruct (get_column (sanitize df) "Time [s]") as [time|e] eqn:Et;
    [|discriminate].
  cbv zeta. simpl. split; [reflexivity|].
  pose proof (sanitize_rectangular df R) as Rs.
  pose proof (get_column_rectangular _ _ _ Rs Et) as Lt.
  unfold rectangular. simpl. apply Forall_app. split; [exact Rs|].
  apply added_columns_lengths. intros p vx vy sp Hp.
  eapply (player_velocities_lengths (sanitize df)); eauto.
Qed.
End ShapeProofs.

(** ** The schema of the returned table, and locality *)

Lemma find_filter_keep {A} (f g : A -> bool) l :
  (forall a, f a = true -> g a = true) ->
  find f (filter g l) = find f l.
Proof.
  intros H. induction l as [|a l IH]; simpl; [reflexivity|].
  destruct (g a) eqn:G; simpl.
  - destruct (f a); auto.
  - destruct (f a) eqn:F; [|exact IH].
    apply H in F. congruence.
Qed.

Lemma get_column_sanitize df n :
  is_derived n = false -> get_column (sanitize df) n = get_column df n.
Proof.
  intros H. unfold get_column, sanitize. simpl.
  rewrite find_filter_keep; [reflexivity|].
  intros c E. apply String.eqb_eq in E. subst. rewrite H. reflexivity.
Qed.

Lemma get_column_raise df n e : get_column df n = Raise e -> e = KeyError n.
Proof.
  unfold get_column. destruct (find _ _); [discriminate|]. intros [= <-].
  reflexivity.
Qed.

Lemma get_column_names df n :
  In n (names df) <-> exists s, get_column df n = Ok s.
Proof.
  split; [apply get_column_present|]. intros [s H].
  eapply get_column_ok; eauto.
Qed.

Lemma mem_string_names df n :
  mem_string n (names df) =
  match get_column df n with Ok _ => true | Raise _ => false end.
Proof.
  destruct (get_column df n) as [s|e] eqn:E.
  - apply mem_string_in. eapply get_column_ok; eauto.
  - destruct (mem_string n (names df)) eqn:M; [|reflexivity].
    apply mem_string_in, get_column_present in M. destruct M as [s M].
    congruence.
Qed.

Section FrameProofs.
Variable savgol_fit : series -> Z -> Z -> series.

(** X6.  The fields of the returned table are the input's fields that
    are not derived, in their order and with their values, followed by
    p_vx, p_vy, p_speed for each player p in increasing order of the
    names; the row index is the input's. *)
Theorem returned_table_schema (t : loc) (h : store)
    (smoothing : bool) (filter_ : string) (window polyorder : Z)
    (maxspeed : option float) (t' : loc) (h' : store) :
  calc_player_velocities savgol_fit t smoothing filter_ window polyorder
    maxspeed h = (Ok t', h') ->
  exists df out,
    nth_error h t = Some df /\ nth_error h' t' = Some out /\
    index out = index df /\
    (* the fields, in order *)
    names out =
      names (sanitize df) ++ flat_map velocity_names (player_ids_of (sanitize df)) /\
    StronglySorted str_lt (player_ids_of (sanitize df)) /\
    (* every field that is not derived is as it was *)
    firstn (length (columns (sanitize df))) (columns out) = columns (sanitize df) /\
    (forall n, is_derived n = false -> get_column out n = get_column df n).
Proof.
  intros H. apply calc_ok in H. destruct H as (df & Hd & HE & _ & _ & Hout).
  exists df. eexists. split; [exact Hd|]. split; [exact Hout|].
  destruct (estimate_ok _ _ _ _ _ _ _ HE) as (time & Ht & _ & Hn).
  split; [|split; [exact Hn|split; [apply np_unique_sorted|]]].
  - unfold estimate. rewrite Ht. reflexivity.
  - destruct (estimate_shape savgol_fit df smoothing filter_ window polyorder
                maxspeed) as (added & Ha & ->).
    simpl columns. split.
    + rewrite firstn_app, Nat.sub_diag, firstn_all. simpl.
      apply app_nil_r.
    + intros n Hnd.
      change (mkDataFrame (index df) (columns (sanitize df) ++ added))
        with (mkDataFrame (index (sanitize df)) (columns (sanitize df) ++ added)).
      rewrite get_column_app by (apply all_derived_not_in; auto).
      apply get_column_sanitize. exact Hnd.
Qed.

(** X7.  The derived fields of a prefix p depend only on the row index,
    on 'Time [s]', on 'Period' and on p's own two position fields: two
    tables that agree on these give the same p_vx, p_vy and p_speed,
    whatever the other fields hold. *)
Theorem player_depends_on_own_fields (t1 t2 : loc) (h1 h2 : store)
    (smoothing : bool) (filter_ : string) (window polyorder : Z)
    (maxspeed : option float) (t1' t2' : loc) (h1' h2' : store)
    (df1 df2 out1 out2 : DataFrame) (p : string) :
  nth_error h1 t1 = Some df1 -> nth_error h2 t2 = Some df2 ->
  calc_player_velocities savgol_fit t1 smoothing filter_ window polyorder
    maxspeed h1 = (Ok t1', h1') ->
  calc_player_velocities savgol_fit t2 smoothing filter_ window polyorder
    maxspeed h2 = (Ok t2', h2') ->
  nth_error h1' t1' = Some out1 -> nth_error h2' t2' = Some out2 ->
  index df1 = index df2 ->
  get_column df1 "Time [s]" = get_column df2 "Time [s]" ->
  get_column df1 "Period" = get_column df2 "Period" ->
  get_column df1 (p ++ "_x") = get_column df2 (p ++ "_x") ->
  get_column df1 (p ++ "_y") = get_column df2 (p ++ "_y") ->
  get_column out1 (p ++ "_vx") = get_column out2 (p ++ "_vx") /\
  get_column out1 (p ++ "_vy") = get_column out2 (p ++ "_vy") /\
  get_column out1 (p ++ "_speed") = get_column out2 (p ++ "_speed").
Proof.
  intros Hd1 Hd2 R1 R2 Ho1 Ho2 Hidx Ht Hper Hx Hy.
  pose proof (calc_writes_player_velocities savgol_fit _ _ _ _ _ _ _ _ _ R1)
    as (d1 & o1 & time1 & Hd1' & Ho1' & Et1 & W1).
  pose proof (calc_writes_player_velocities savgol_fit _ _ _ _ _ _ _ _ _ R2)
    as (d2 & o2 & time2 & Hd2' & Ho2' & Et2 & W2).
  rewrite Hd1 in Hd1'. injection Hd1' as <-.
  rewrite Hd2 in Hd2'. injection Hd2' as <-.
  rewrite Ho1 in Ho1'. injection Ho1' as <-.
  rewrite Ho2 in Ho2'. injection Ho2' as <-.
  destruct (position_not_derived p) as [Nx Ny].
  assert (Etime : time1 = time2).
  { rewrite get_column_sanitize in Et1, Et2 by reflexivity. congruence. }
  subst time2.
  assert (Eshi : find_second_half (sanitize df1) = find_second_half (sanitize df2)).
  { unfold find_second_half. rewrite !mem_string_names.
    rewrite !get_column_sanitize by reflexivity.
    change (index (sanitize df1)) with (index df1).
    change (index (sanitize df2)) with (index df2).
    rewrite Hper, Hidx. reflexivity. }
  assert (Epv : forall q, q = p ->
            player_velocities savgol_fit (sanitize df1) (diff time1)
              (find_second_half (sanitize df1)) smoothing filter_ window
              polyorder maxspeed q =
            player_velocities savgol_fit (sanitize df2) (diff time1)
              (find_second_half (sanitize df2)) smoothing filter_ window
              polyorder maxspeed q).
  { intros q ->. unfold player_velocities, raw_velocities.
    rewrite !get_column_sanitize by assumption.
    change (index (sanitize df1)) with (index df1).
    change (index (sanitize df2)) with (index df2).
    rewrite Hx, Hy, Eshi, Hidx. reflexivity. }
  assert (Epl : In p (player_ids_of (sanitize df1)) <->
                In p (player_ids_of (sanitize df2))).
  { rewrite !player_ids_in, !get_column_names.
    rewrite !get_column_sanitize by assumption. rewrite Hx, Hy. tauto. }
  destruct (in_dec string_dec p (player_ids_of (sanitize df1))) as [I1|I1].
  - destruct (W1 p I1) as (vx & vy & sp & P1 & -> & -> & ->).
    destruct (W2 p (proj1 Epl I1)) as (vx' & vy' & sp' & P2 & -> & -> & ->).
    rewrite (Epv p eq_refl) in P1. rewrite P1 in P2. injection P2 as <- <- <-.
    auto.
  - assert (I2 : ~ In p (player_ids_of (sanitize df2))) by tauto.
    assert (Hmiss : forall df out tm sm f w po ms,
              fst (estimate savgol_fit df sm f w po ms) = Ok tt ->
              out = snd (estimate savgol_fit df sm f w po ms) ->
              get_column (sanitize df) "Time [s]" = Ok tm ->
              ~ In p (player_ids_of (sanitize df)) ->
              forall n, In n (velocity_names p) ->
              get_column out n = Raise (KeyError n)).
    { intros df out tm sm f w po ms HE -> Etm Hnot n Hn.
      apply get_column_missing.
      destruct (estimate_ok _ _ _ _ _ _ _ HE) as (tm' & _ & _ & Hnames).
      rewrite Hnames, in_app_iff, in_flat_map.
      intros [Hin|(q & Hq & Hin)].
      - apply names_sanitize in Hin. destruct Hin as [_ Hin].
        destruct (velocity_derived p) as (A & B & C).
        simpl in Hn. destruct Hn as [<-|[<-|[<-|[]]]]; congruence.
      - assert (p = q) by (eapply velocity_name_inj; eauto).
        subst. contradiction. }
    apply calc_ok in R1, R2.
    destruct R1 as (d1 & Hd1' & HE1 & _ & _ & Ho1').
    destruct R2 as (d2 & Hd2' & HE2 & _ & _ & Ho2').
    rewrite Hd1 in Hd1'. injection Hd1' as <-.
    rewrite Hd2 in Hd2'. injection Hd2' as <-.
    rewrite Ho1 in Ho1'. injection Ho1' as Eo1.
    rewrite Ho2 in Ho2'. injection Ho2' as Eo2.
    rewrite !(Hmiss df1 out1 time1 _ _ _ _ _ HE1 Eo1 Et1 I1)
      by (unfold velocity_names; simpl; auto).
    rewrite !(Hmiss df2 out2 time1 _ _ _ _ _ HE2 Eo2 Et2 I2)
      by (unfold velocity_names; simpl; auto).
    auto.
Qed.
End FrameProofs.

(** ** Gap repair *)

Lemma replace_inf_nth s i v :
  nth_error s i = Some v ->
  nth_error (replace_inf s) i =
  Some (if PrimFloat.is_infinity v then nan else v).
Proof.
  intros H. unfold replace_inf.
  rewrite nth_error_map, H. reflexivity.
Qed.

Lemma replace_inf_valid s i v :
  nth_error s i = Some v -> valid v = true ->
  nth_error (replace_inf s) i = Some v /\ isna v = false.
Proof.
  intros H V. unfold valid in V. apply andb_true_iff in V.
  destruct V as [Vn Vi]. apply negb_true_iff in Vn, Vi.
  rewrite (replace_inf_nth _ _ _ H), Vi. auto.
Qed.

Lemma replace_inf_invalid s i v :
  nth_error s i = Some v -> valid v = false ->
  exists u, nth_error (replace_inf s) i = Some u /\ isna u = true.
Proof.
  intros H V. rewrite (replace_inf_nth _ _ _ H).
  unfold valid in V. destruct (PrimFloat.is_infinity v).
  - exists nan. auto.
  - exists v. split; [reflexivity|].
    rewrite andb_true_r in V. apply negb_false_iff in V. exact V.
Qed.

Lemma interp_from_keeps s : forall i prev j v,
  nth_error s j = Some v -> isna v = false ->
  nth_error (interp_from i prev s) j = Some v.
Proof.
  induction s as [|x s IH]; intros i prev [|j] v H V; simpl in *;
    try discriminate.
  - injection H as ->. rewrite V. reflexivity.
  - destruct (isna x); simpl; apply IH; auto.
Qed.

Lemma interp_from_leading s : forall i k v,
  next_valid s = Some (k, v) ->
  forall j, j <= k -> nth_error (interp_from i None s) j = Some v.
Proof.
  induction s as [|x s IH]; intros i k v H j Hj; simpl in *; [discriminate|].
  destruct (isna x) eqn:E.
  - destruct (next_valid s) as [[k' v']|] eqn:N; [|discriminate].
    injection H as <- <-. destruct j as [|j]; simpl; [reflexivity|].
    apply (IH (S i) k' v' eq_refl). lia.
  - injection H as <- <-. assert (j = 0) by lia. subst. reflexivity.
Qed.

Lemma next_valid_missing s : all_missing s -> next_valid s = None.
Proof.
  induction 1 as [|x s Hx _ IH]; simpl; [reflexivity|].
  rewrite Hx, IH. reflexivity.
Qed.

Lemma interp_from_trailing rest : all_missing rest ->
  forall i j v, interp_from i (Some (j, v)) rest = repeat v (length rest).
Proof.
  induction 1 as [|x rest Hx Hr IH]; intros i j v; simpl; [reflexivity|].
  rewrite Hx, (next_valid_missing rest Hr), IH. reflexivity.
Qed.

Lemma next_valid_first s : forall k v,
  (forall j u, j < k -> nth_error s j = Some u -> isna u = true) ->
  nth_error s k = Some v -> isna v = false ->
  next_valid s = Some (k, v).
Proof.
  induction s as [|x s IH]; intros [|k] v Hb Hk V; simpl in *;
    try discriminate.
  - injection Hk as ->. rewrite V. reflexivity.
  - rewrite (Hb 0 x ltac:(lia) eq_refl).
    rewrite (IH k v); auto.
    intros j u Hj Hu. apply (Hb (S j) u); [lia|exact Hu].
Qed.

Lemma nth_error_skipn_shift {A} (l : list A) k j :
  k <= j -> nth_error l j = nth_error (skipn k l) (j - k).
Proof.
  revert l j; induction k as [|k IH]; intros l j H.
  - simpl. rewrite Nat.sub_0_r. reflexivity.
  - destruct j as [|j]; [lia|]. destruct l as [|x l]; simpl.
    + destruct (j - k); reflexivity.
    + apply IH. lia.
Qed.

Lemma skipn_cons_nth {A} (l : list A) : forall k v,
  nth_error l k = Some v -> skipn k l = v :: skipn (S k) l.
Proof.
  induction l as [|x l IH]; intros [|k] v H; simpl in *; try discriminate.
  - injection H as ->. reflexivity.
  - apply IH. exact H.
Qed.

Lemma nth_error_repeat_lt {A} (v : A) n j :
  j < n -> nth_error (repeat v n) j = Some v.
Proof.
  revert j; induction n as [|n IH]; intros [|j] H; simpl; try lia; auto.
  apply IH. lia.
Qed.

Lemma repair_gaps_keeps_valid s i v :
  nth_error s i = Some v -> valid v = true ->
  nth_error (repair_gaps s) i = Some v.
Proof.
  intros H V. unfold repair_gaps, interpolate.
  destruct (replace_inf_valid _ _ _ H V) as [H' N].
  apply interp_from_keeps; assumption.
Qed.

(** X8.  Gap repair (lines 94-95) keeps the length of the series and
    every valid sample (neither NaN nor infinite); the rows before the
    first valid sample take its value and the rows after the last valid
    sample take the last one's; a series without any valid sample comes
    out all missing, its infinite samples included. *)
Theorem repair_gaps_edges (s : series) :
  length (repair_gaps s) = length s /\
  (forall i v, nth_error s i = Some v -> valid v = true ->
     nth_error (repair_gaps s) i = Some v) /\
  (forall k v, nth_error s k = Some v -> valid v = true ->
     (forall j u, j < k -> nth_error s j = Some u -> valid u = false) ->
     forall j, j <= k -> nth_error (repair_gaps s) j = Some v) /\
  (forall k v, nth_error s k = Some v -> valid v = true ->
     (forall j u, k < j -> nth_error s j = Some u -> valid u = false) ->
     forall j, k <= j -> j < length s ->
       nth_error (repair_gaps s) j = Some v) /\
  ((forall j u, nth_error s j = Some u -> valid u = false) ->
     all_missing (repair_gaps s)).
Proof.
  split; [apply repair_gaps_length|].
  split; [intros i v; apply repair_gaps_keeps_valid|].
  unfold repair_gaps, interpolate. repeat split.
  - intros k v H V Hb j Hj.
    destruct (replace_inf_valid _ _ _ H V) as [H' N].
    apply (interp_from_leading _ 0 k v); [|exact Hj].
    apply next_valid_first; [|exact H'|exact N].
    intros i u Hi Hu.
    destruct (nth_error s i) as [w|] eqn:Ew.
    + destruct (replace_inf_invalid _ _ _ Ew (Hb i w Hi Ew)) as (u' & E1 & E2).
      rewrite E1 in Hu. injection Hu as <-. exact E2.
    + unfold replace_inf in Hu. rewrite nth_error_map, Ew in Hu. discriminate.
  - intros k v H V Ha j Hj Hlen.
    destruct (replace_inf_valid _ _ _ H V) as [H' N].
    pose proof (skipn_cons_nth _ _ _ H') as Hs.
    assert (Hm : all_missing (skipn (S k) (replace_inf s))).
    { unfold all_missing. apply Forall_forall. intros u Hu.
      apply In_nth_error in Hu. destruct Hu as [i Hi].
      rewrite nth_error_skipn in Hi.
      destruct (nth_error s (S k + i)) as [w|] eqn:Ew.
      - destruct (replace_inf_invalid _ _ _ Ew (Ha (S k + i) w ltac:(lia) Ew))
          as (u' & E1 & E2).
        rewrite E1 in Hi. injection Hi as <-. exact E2.
      - unfold replace_inf in Hi. rewrite nth_error_map, Ew in Hi.
        discriminate. }
    rewrite (nth_error_skipn_shift _ k j Hj).
    rewrite (skipn_interp_valid k _ 0 None v _ Hs N).
    rewrite (interp_from_trailing _ Hm).
    change (v :: repeat v (length (skipn (S k) (replace_inf s))))
      with (repeat v (S (length (skipn (S k) (replace_inf s))))).
    apply nth_error_repeat_lt.
    rewrite length_skipn. unfold replace_inf. rewrite length_map. lia.
  - intros Hall.
    assert (Hm : all_missing (replace_inf s)).
    { unfold all_missing. apply Forall_forall. intros u Hu.
      apply In_nth_error in Hu. destruct Hu as [i Hi].
      destruct (nth_error s i) as [w|] eqn:Ew.
      - destruct (replace_inf_invalid _ _ _ Ew (Hall i w Ew)) as (u' & E1 & E2).
        rewrite E1 in Hi. injection Hi as <-. exact E2.
      - unfold replace_inf in Hi. rewrite nth_error_map, Ew in Hi.
        discriminate. }
    rewrite (interp_from_all_nan _ (next_valid_missing _ Hm)). exact Hm.
Qed.

(** ** The finite difference *)

Lemma nth_error_diff_from s : forall prev i a a',
  nth_error (prev :: s) i = Some a -> nth_error s i = Some a' ->
  nth_error (diff_from prev s) i = Some (PrimFloat.sub a' a).
Proof.
  induction s as [|x s IH]; intros prev [|i] a a' H H'; simpl in *;
    try discriminate.
  - injection H as ->. injection H' as ->. reflexivity.
  - apply IH; assumption.
Qed.

Lemma nth_error_diff s i a a' :
  nth_error s i = Some a -> nth_error s (S i) = Some a' ->
  nth_error (diff s) (S i) = Some (PrimFloat.sub a' a).
Proof.
  destruct s as [|x s]; [destruct i; discriminate|]. simpl.
  intros H H'. apply nth_error_diff_from; assumption.
Qed.

Lemma nth_error_map2 {A B C} (f : A -> B -> C) : forall l l' i a b,
  nth_error l i = Some a -> nth_error l' i = Some b ->
  nth_error (map2 f l l') i = Some (f a b).
Proof.
  induction l as [|x l IH]; intros [|y l'] [|i] a b H H'; simpl in *;
    try discriminate.
  - injection H as ->. injection H' as ->. reflexivity.
  - apply IH; assumption.
Qed.

Lemma nth_error_put_nan_miss mask : forall s i,
  nth_error mask i = Some false ->
  nth_error (put_nan mask s) i = nth_error s i.
Proof.
  induction mask as [|m mask IH]; intros [|x s] [|i] H; simpl in *;
    try discriminate; auto.
  injection H as ->. reflexivity.
Qed.

Lemma reject_outliers_kept ms vx vy i a b :
  nth_error vx i = Some a -> nth_error vy i = Some b ->
  rejected ms a b = false ->
  nth_error (fst (reject_outliers ms vx vy)) i = Some a /\
  nth_error (snd (reject_outliers ms vx vy)) i = Some b.
Proof.
  intros Ha Hb R. unfold reject_outliers, rejected in *.
  destruct (maxspeed_enabled ms); [|auto].
  destruct ms as [m|]; [|auto]. simpl in *.
  assert (Hm : nth_error (map (fun s => PrimFloat.ltb m s) (sspeed vx vy)) i
               = Some false).
  { rewrite nth_error_map. unfold sspeed.
    rewrite (nth_error_map2 speed_of _ _ _ _ _ Ha Hb). simpl. rewrite R.
    reflexivity. }
  rewrite !(nth_error_put_nan_miss _ _ _ Hm). auto.
Qed.

Section DifferenceProofs.
Variable savgol_fit : series -> Z -> Z -> series.

(** X9.  With smoothing disabled, at a row after the first whose raw
    velocity is not rejected as an outlier, the returned p_vx is exactly
    (x[i+1] - x[i]) / (t[i+1] - t[i]) when this quotient is neither NaN
    nor infinite, likewise p_vy, and p_speed is the norm of the two when
    both are. *)
Theorem unsmoothed_velocity_is_finite_difference t h filter_ window polyorder
    maxspeed t' h' df out (p : string) time x y i t0 t1 a a' b b' :
  nth_error h t = Some df ->
  calc_player_velocities savgol_fit t false filter_ window polyorder
    maxspeed h = (Ok t', h') ->
  nth_error h' t' = Some out ->
  has_team_tag p = true ->
  get_column df "Time [s]" = Ok time ->
  get_column df (p ++ "_x") = Ok x ->
  get_column df (p ++ "_y") = Ok y ->
  nth_error time i = Some t0 -> nth_error time (S i) = Some t1 ->
  nth_error x i = Some a -> nth_error x (S i) = Some a' ->
  nth_error y i = Some b -> nth_error y (S i) = Some b' ->
  let dvx := PrimFloat.div (PrimFloat.sub a' a) (PrimFloat.sub t1 t0) in
  let dvy := PrimFloat.div (PrimFloat.sub b' b) (PrimFloat.sub t1 t0) in
  rejected maxspeed dvx dvy = false ->
  exists vx vy speed,
    get_column out (p ++ "_vx") = Ok vx /\
    get_column out (p ++ "_vy") = Ok vy /\
    get_column out (p ++ "_speed") = Ok speed /\
    (valid dvx = true -> nth_error vx (S i) = Some dvx) /\
    (valid dvy = true -> nth_error vy (S i) = Some dvy) /\
    (valid dvx = true -> valid dvy = true ->
       nth_error speed (S i) = Some (speed_of dvx dvy)).
Proof.
  intros Hd Hc Ho Hp Ht Hx Hy Ht0 Ht1 Ha Ha' Hb Hb' dvx dvy R.
  destruct (calc_writes_player_velocities savgol_fit _ _ _ _ _ _ _ _ _ Hc)
    as (df0 & out0 & time0 & Hd0 & Ho0 & Ht' & Hall).
  rewrite Hd in Hd0. injection Hd0 as <-.
  rewrite Ho in Ho0. injection Ho0 as <-.
  rewrite (get_column_sanitize _ _ time_not_derived), Ht in Ht'.
  injection Ht' as <-.
  destruct (position_not_derived p) as [Dx Dy].
  assert (Hin : In p (player_ids_of (sanitize df))).
  { apply player_ids_in. split; [exact Hp|]. left.
    apply names_sanitize. split; [|exact Dx].
    eapply get_column_ok. exact Hx. }
  destruct (Hall p Hin) as (vx & vy & speed & Hpv & Gx & Gy & Gs).
  exists vx, vy, speed. repeat (split; [assumption|]).
  unfold player_velocities, raw_velocities in Hpv.
  rewrite (get_column_sanitize _ _ Dx), Hx in Hpv.
  rewrite (get_column_sanitize _ _ Dy), Hy in Hpv.
  cbn [rbind] in Hpv.
  set (rx := sdiv (diff x) (diff time)) in *.
  set (ry := sdiv (diff y) (diff time)) in *.
  assert (Hrx : nth_error rx (S i) = Some dvx).
  { unfold rx, sdiv. apply nth_error_map2; apply nth_error_diff; assumption. }
  assert (Hry : nth_error ry (S i) = Some dvy).
  { unfold ry, sdiv. apply nth_error_map2; apply nth_error_diff; assumption. }
  destruct (reject_outliers_kept maxspeed rx ry (S i) dvx dvy Hrx Hry R)
    as [Kx Ky].
  destruct (reject_outliers maxspeed rx ry) as [cx cy]. simpl in Kx, Ky.
  unfold smooth in Hpv. cbn [rbind] in Hpv.
  injection Hpv as <- <- <-.
  split; [intros V; apply repair_gaps_keeps_valid; assumption|].
  split; [intros V; apply repair_gaps_keeps_valid; assumption|].
  intros V1 V2. unfold sspeed.
  apply nth_error_map2; apply repair_gaps_keeps_valid; assumption.
Qed.
End DifferenceProofs.

(** ** The windows the moving average accepts *)

Lemma np_convolve_same_cases a v :
  ((length a = 0 \/ length v = 0) /\ np_convolve_same a v = Raise ValueError)
  \/ (0 < length a /\ 0 < length v /\
      exists r, np_convolve_same a v = Ok r /\
                length r = Nat.max (length a) (length v)).
Proof.
  unfold np_convolve_same.
  destruct (Nat.ltb (length a) (length v)) eqn:E.
  - apply Nat.ltb_lt in E. destruct v as [|y v]; [simpl in E; lia|].
    destruct a as [|x a]; [left; auto|]. right. simpl length.
    repeat split; try lia. eexists. split; [reflexivity|].
    rewrite correlate_same_length. simpl in *. lia.
  - apply Nat.ltb_ge in E. destruct a as [|x a]; [left; auto|].
    destruct v as [|y v]; [left; auto|]. right. simpl length.
    repeat split; try lia. eexists. split; [reflexivity|].
    rewrite correlate_same_length. simpl in *. lia.
Qed.

Lemma ma_step {B} (W : series -> result series) (g : series -> series)
    (n : nat) (seg k : series) (K : series -> result B) :
  (forall r, W r = if Nat.eqb (length r) n then Ok (g r)
                   else Raise ValueError) ->
  length seg = n ->
  (1 <= length k <= n /\
   exists r, rbind (np_convolve_same seg k) (fun r => rbind (W r) K)
             = K (g r))
  \/ (~ (1 <= length k <= n) /\
      rbind (np_convolve_same seg k) (fun r => rbind (W r) K)
      = Raise ValueError).
Proof.
  intros HW Hn.
  destruct (np_convolve_same_cases seg k)
    as [[Hz ->]|(Ha & Hv & r & -> & Hr)].
  - right. split; [lia|reflexivity].
  - cbn [rbind]. rewrite HW, Hr, Hn.
    destruct (Nat.eqb (Nat.max n (length k)) n) eqn:E.
    + apply Nat.eqb_eq in E. left. split; [lia|]. exists r. reflexivity.
    + apply Nat.eqb_neq in E. right. split; [lia|reflexivity].
Qed.

Lemma filled_length (s : series) : length (bfill (ffill s)) = length s.
Proof. unfold ffill. rewrite bfill_length, ffill_from_length. reflexivity. Qed.

Lemma moving_average_cases idx shi w vx vy :
  length vx = length idx -> length vy = length idx ->
  (window_fits idx shi w /\
   exists out, smooth_moving_average idx shi w vx vy = Ok out)
  \/ (~ window_fits idx shi w /\
      smooth_moving_average idx shi w vx vy = Raise ValueError).
Proof.
  intros Lx Ly. unfold smooth_moving_average, ma_kernel, window_fits.
  destruct (w <? 0)%Z eqn:Hw.
  { apply Z.ltb_lt in Hw. right. split; [lia|reflexivity]. }
  apply Z.ltb_ge in Hw. cbn [rbind].
  set (k := repeat _ _).
  assert (Hk : length k = Z.to_nat w) by apply repeat_length.
  destruct shi as [b|]; simpl segment_sizes.
  - set (m1 := mask_le idx b). set (m2 := mask_ge idx b).
    assert (L1 : forall s : series, length s = length idx ->
                 length (bfill (ffill (loc_get m1 s))) = count_true m1).
    { intros s Hs. rewrite filled_length. apply loc_get_length.
      unfold m1. rewrite mask_le_length. exact Hs. }
    assert (L2 : forall s : series, length s = length idx ->
                 length (bfill (ffill (loc_get m2 s))) = count_true m2).
    { intros s Hs. rewrite filled_length. apply loc_get_length.
      unfold m2. rewrite mask_ge_length. exact Hs. }
    match goal with
    | |- context [rbind (np_convolve_same ?seg k)
                    (fun r => rbind (loc_set m1 ?s r) ?K)] =>
        destruct (ma_step (loc_set m1 s) (loc_put m1 s) (count_true m1)
                    seg k K (fun r => eq_refl) (L1 _ Lx))
          as [[C1 [r1 ->]]|[C1 ->]]
    end.
    2:{ right. split; [|reflexivity]. intros [H1 H2].
        inversion H2; subst. lia. }
    match goal with
    | |- context [rbind (np_convolve_same ?seg k)
                    (fun r => rbind (loc_set m1 ?s r) ?K)] =>
        destruct (ma_step (loc_set m1 s) (loc_put m1 s) (count_true m1)
                    seg k K (fun r => eq_refl) (L1 _ Ly))
          as [[_ [r2 ->]]|[C2 _]]; [|contradiction]
    end.
    match goal with
    | |- context [rbind (np_convolve_same ?seg k)
                    (fun r => rbind (loc_set m2 ?s r) ?K)] =>
        destruct (ma_step (loc_set m2 s) (loc_put m2 s) (count_true m2)
                    seg k K (fun r => eq_refl) (L2 _ Lx))
          as [[C3 [r3 ->]]|[C3 ->]]
    end.
    2:{ right. split; [|reflexivity]. intros [H1 H2].
        inversion H2 as [|? ? _ H3]; subst. inversion H3; subst. lia. }
    match goal with
    | |- context [rbind (np_convolve_same ?seg k)
                    (fun r => rbind (loc_set m2 ?s r) ?K)] =>
        destruct (ma_step (loc_set m2 s) (loc_put m2 s) (count_true m2)
                    seg k K (fun r => eq_refl) (L2 _ Ly))
          as [[_ [r4 ->]]|[C4 _]]; [|contradiction]
    end.
    left. split; [|eauto]. split; [lia|].
    repeat constructor; lia.
  - match goal with
    | |- context [rbind (np_convolve_same ?seg k)
                    (fun r => rbind (set_all ?s r) ?K)] =>
        destruct (ma_step (set_all s) (fun r => r) (length idx)
                    seg k K) as [[C1 [r1 ->]]|[C1 ->]]
    end.
    { intros r. unfold set_all. rewrite Lx. reflexivity. }
    { rewrite filled_length. exact Lx. }
    2:{ right. split; [|reflexivity]. intros [H1 H2].
        inversion H2; subst. lia. }
    match goal with
    | |- context [rbind (np_convolve_same ?seg k)
                    (fun r => rbind (set_all ?s r) ?K)] =>
        destruct (ma_step (set_all s) (fun r => r) (length idx)
                    seg k K) as [[_ [r2 ->]]|[C2 _]]; [| | |contradiction]
    end.
    { intros r. unfold set_all. rewrite Ly. reflexivity. }
    { rewrite filled_length. exact Ly. }
    left. split; [|eauto]. split; [lia|].
    repeat constructor; lia.
Qed.

(** X10.  The moving-average branch (lines 113-133), applied to series
    with one value per row, returns exactly when the window is at least
    1 and no longer than any of the segments it smooths (the whole
    table, or the rows up to the boundary row and the rows from it on).
    Every failure is a ValueError, and the series it returns have one
    value per row. *)
Theorem moving_average_returns_iff idx second_half_idx window vx vy :
  length vx = length idx -> length vy = length idx ->
  ((exists out,
      smooth_moving_average idx second_half_idx window vx vy = Ok out)
   <-> window_fits idx second_half_idx window) /\
  (forall e,
      smooth_moving_average idx second_half_idx window vx vy = Raise e ->
      e = ValueError) /\
  (forall ox oy,
      smooth_moving_average idx second_half_idx window vx vy = Ok (ox, oy) ->
      length ox = length idx /\ length oy = length idx).
Proof.
  intros Lx Ly.
  destruct (moving_average_cases idx second_half_idx window vx vy Lx Ly)
    as [[C [out E]]|[C E]]; rewrite E.
  - split; [split; eauto|]. split; [discriminate|].
    intros ox oy [= ->]. apply smooth_moving_average_lengths in E.
    destruct E; split; congruence.
  - split; [split; [intros [out H]; discriminate|contradiction]|].
    split; [intros e [= <-]; reflexivity|discriminate].
Qed.

Lemma names_sanitize_filter df :
  names (sanitize df) = filter (fun n => negb (is_derived n)) (names df).
Proof.
  unfold names, sanitize. simpl.
  induction (columns df) as [|c cols IH]; simpl; [reflexivity|].
  destruct (is_derived (fst c)); simpl; rewrite IH; reflexivity.
Qed.

Lemma filter_filter_keep {A} (f g : A -> bool) l :
  (forall a, f a = true -> g a = true) ->
  filter f (filter g l) = filter f l.
Proof.
  intros H. induction l as [|a l IH]; simpl; [reflexivity|].
  destruct (g a) eqn:G; simpl.
  - rewrite IH. reflexivity.
  - destruct (f a) eqn:F; [|exact IH].
    apply H in F. congruence.
Qed.

Lemma player_ids_sanitize df : player_ids_of (sanitize df) = player_ids_of df.
Proof.
  unfold player_ids_of. rewrite names_sanitize_filter.
  rewrite filter_filter_keep; [reflexivity|].
  intros c Hc. destruct (is_position_shape c Hc) as (p & _ & _ & [-> | ->]);
    destruct (position_not_derived p) as [Nx Ny];
    [rewrite Nx|rewrite Ny]; reflexivity.
Qed.

Lemma find_second_half_sanitize df :
  find_second_half (sanitize df) = find_second_half df.
Proof.
  unfold find_second_half.
  assert (E : mem_string "Period" (names (sanitize df)) =
              mem_string "Period" (names df)).
  { rewrite names_sanitize_filter. unfold mem_string.
    induction (names df) as [|n l IH]; [reflexivity|].
    cbn [filter existsb].
    destruct (is_derived n) eqn:D; cbn [negb existsb]; rewrite IH;
      [|reflexivity].
    destruct (String.eqb "Period" n) eqn:Q; [|reflexivity].
    apply String.eqb_eq in Q. subst n. discriminate D. }
  rewrite E, get_column_sanitize by reflexivity. reflexivity.
Qed.

Section MovingAverageProofs.
Variable savgol_fit : series -> Z -> Z -> series.

Lemma player_velocities_ma_cases df time shi w po ms (p : string) :
  rectangular df -> length time = length (index df) ->
  In (p ++ "_x")%string (names df) -> In (p ++ "_y")%string (names df) ->
  (window_fits (index df) shi w /\
   exists v, player_velocities savgol_fit df (diff time) shi true
               MOVING_AVERAGE w po ms p = Ok v)
  \/ (~ window_fits (index df) shi w /\
      player_velocities savgol_fit df (diff time) shi true
        MOVING_AVERAGE w po ms p = Raise ValueError).
Proof.
  intros R Lt Hx Hy. unfold player_velocities.
  destruct (raw_velocities df (diff time) p) as [[rx ry]|e] eqn:Er.
  - destruct (raw_velocities_lengths _ _ _ _ _ R Lt Er) as [Lx Ly].
    cbn [rbind].
    destruct (reject_outliers_length ms rx ry) as [Lcx Lcy].
    destruct (reject_outliers ms rx ry) as [cx cy]. simpl in Lcx, Lcy.
    unfold smooth.
    change (String.eqb MOVING_AVERAGE SAVGOL) with false.
    change (String.eqb MOVING_AVERAGE MOVING_AVERAGE) with true. cbv iota.
    destruct (moving_average_cases (index df) shi w (repair_gaps cx)
                (repair_gaps cy)) as [[C [[ox oy] ->]]|[C ->]];
      try (rewrite repair_gaps_length; congruence).
    + left. split; [exact C|]. cbn [rbind]. eauto.
    + right. split; [exact C|reflexivity].
  - exfalso. unfold raw_velocities in Er.
    destruct (get_column_present _ _ Hx) as [x Ex].
    destruct (get_column_present _ _ Hy) as [y Ey].
    rewrite Ex, Ey in Er. discriminate.
Qed.

(** X11.  The same for the estimator as a whole: on a rectangular table
    with 'Time [s]' and complete players, the moving-average filter
    returns exactly when the table has no player or the window fits
    every segment, and every failure is a ValueError. *)
Theorem moving_average_estimator_returns_iff (t : loc) (h : store)
    (df : DataFrame) (window polyorder : Z) (maxspeed : option float) :
  nth_error h t = Some df ->
  rectangular df ->
  In "Time [s]" (names df) ->
  complete_players df ->
  let run := calc_player_velocities savgol_fit t true MOVING_AVERAGE window
               polyorder maxspeed h in
  ((exists t', fst run = Ok t') <->
   player_ids_of df = [] \/
   window_fits (index df) (find_second_half df) window) /\
  (forall e, fst run = Raise e -> e = ValueError).
Proof.
  intros H R Ht Hc run. unfold run.
  rewrite (calc_run _ _ _ _ _ _ _ _ _ H). cbv zeta.
  unfold estimate.
  destruct (get_column_present (sanitize df) "Time [s]") as [time Et].
  { apply names_sanitize. split; [exact Ht|reflexivity]. }
  rewrite Et. cbv zeta. simpl fst.
  pose proof (sanitize_rectangular df R) as Rs.
  pose proof (get_column_rectangular _ _ _ Rs Et) as Lt.
  rewrite find_second_half_sanitize.
  set (pv := player_velocities savgol_fit (sanitize df) (diff time)
               (find_second_half df) true MOVING_AVERAGE window polyorder
               maxspeed).
  assert (Hpv : forall p, In p (player_ids_of df) ->
            (window_fits (index df) (find_second_half df) window /\
             exists v, pv p = Ok v)
            \/ (~ window_fits (index df) (find_second_half df) window /\
                pv p = Raise ValueError)).
  { intros p Hp. rewrite <- player_ids_sanitize in Hp.
    apply player_ids_in in Hp.
    destruct Hp as [Tag Hxy]. destruct (position_not_derived p) as [Nx Ny].
    assert (Hboth : In (p ++ "_x")%string (names (sanitize df)) /\
                    In (p ++ "_y")%string (names (sanitize df))).
    { rewrite !names_sanitize. rewrite !names_sanitize in Hxy.
      pose proof (Hc p Tag). tauto. }
    destruct Hboth as [Hx Hy].
    apply (player_velocities_ma_cases (sanitize df) time); assumption. }
  rewrite player_ids_sanitize.
  destruct (player_ids_of df) as [|p ps] eqn:Eps.
  { simpl. split; [split; eauto|discriminate]. }
  destruct (Hpv p (or_introl eq_refl)) as [[C _]|[C Hr]].
  - rewrite added_columns_all_ok.
    + simpl. split; [split; eauto|discriminate].
    + apply Forall_forall. intros q Hq.
      destruct (Hpv q Hq) as [[_ Hv]|[C' _]]; [exact Hv|contradiction].
  - simpl added_columns. rewrite Hr. simpl.
    split; [split|].
    + intros [t' Ht']. discriminate.
    + intros [E|C']; [discriminate|contradiction].
    + intros e [= <-]. reflexivity.
Qed.
End MovingAverageProofs.

(** ** [remove_player_velocities] on its own *)

Lemma nth_error_app_old {A} (h : list A) x l :
  l < length h -> nth_error (h ++ [x]) l = nth_error h l.
Proof. intros H. apply nth_error_app1. exact H. Qed.

Lemma has_derived_iff df :
  has_derived df = false <-> forall n, In n (names df) -> is_derived n = false.
Proof.
  unfold has_derived, derived_columns. split.
  - intros H n Hn. apply Nat.ltb_ge in H.
    destruct (is_derived n) eqn:D; [|reflexivity].
    assert (Hin : In n (filter is_derived (names df))).
    { apply filter_In. auto. }
    destruct (filter is_derived (names df)); [contradiction|simpl in H; lia].
  - intros H. rewrite filter_none; [reflexivity|].
    apply Forall_forall. exact H.
Qed.

(** X12.  [remove_player_velocities] (lines 143-151) never fails on a
    table of the store.  The table it returns has the input's row index
    and the input's fields that are not derived, in their order and with
    their values, and no derived field; the caller's table and every
    other table of the store are as they were.  It returns the input
    table itself exactly when the input has no derived field, and a new
    table otherwise. *)
Theorem remove_player_velocities_spec (t : loc) (h : store)
    (df : DataFrame) :
  nth_error h t = Some df ->
  let run := remove_player_velocities t h in
  exists t' out,
    fst run = Ok t' /\ nth_error (snd run) t' = Some out /\
    (forall l, l < length h -> nth_error (snd run) l = nth_error h l) /\
    index out = index df /\
    names out = filter (fun n => negb (is_derived n)) (names df) /\
    (forall n, is_derived n = false -> get_column out n = get_column df n) /\
    (forall n, is_derived n = true -> get_column out n = Raise (KeyError n)) /\
    (t' = t <-> forall n, In n (names df) -> is_derived n = false) /\
    (t' <> t -> t' = length h /\ snd run = h ++ [out]).
Proof.
  intros H run. unfold run. rewrite (remove_run _ _ _ H).
  assert (Hlt : t < length h) by (apply nth_error_Some; congruence).
  assert (Hcommon :
    index (sanitize df) = index df /\
    names (sanitize df) = filter (fun n => negb (is_derived n)) (names df) /\
    (forall n, is_derived n = false ->
       get_column (sanitize df) n = get_column df n) /\
    (forall n, is_derived n = true ->
       get_column (sanitize df) n = Raise (KeyError n))).
  { split; [reflexivity|]. split; [apply names_sanitize_filter|].
    split; [apply get_column_sanitize|].
    intros n D. apply get_column_missing. intros Hin.
    apply names_sanitize in Hin. destruct Hin. congruence. }
  destruct Hcommon as (C1 & C2 & C3 & C4).
  destruct (has_derived df) eqn:D.
  - exists (length h), (sanitize df). simpl.
    split; [reflexivity|]. split; [apply nth_error_alloc|].
    split; [intros l Hl; apply nth_error_app_old; exact Hl|].
    repeat (split; [assumption|]). split.
    + split; [lia|]. intros Hall. apply has_derived_iff in Hall. congruence.
    + auto.
  - exists t, df. simpl. rewrite (has_derived_false _ D) in *.
    split; [reflexivity|]. split; [exact H|]. split; [auto|].
    repeat (split; [assumption|]). split.
    + split; [|reflexivity]. intros _. apply has_derived_iff. exact D.
    + congruence.
Qed.

(** ** Which names count as derived *)

Lemma split_decompose (c : string) :
  match split "_" c with
  | [w] => c = w
  | l => exists q : string, c = (q ++ String "_" (last l EmptyString))%string
  end.
Proof.
  induction c as [|a t IH]; [reflexivity|].
  cbn [split]. destruct (Ascii.eqb a "_") eqn:Ea.
  - apply Ascii.eqb_eq in Ea. subst a.
    destruct (split "_" t) as [|w r] eqn:Es.
    + exfalso. exact (split_nonempty _ _ Es).
    + destruct r as [|w' r'].
      * subst t. exists EmptyString. reflexivity.
      * destruct IH as [q ->]. exists (String "_" q). reflexivity.
  - destruct (split "_" t) as [|w r] eqn:Es.
    + exfalso. exact (split_nonempty _ _ Es).
    + destruct r as [|w' r'].
      * subst t. reflexivity.
      * destruct IH as [q ->]. exists (String a q). reflexivity.
Qed.

(** X13.  The names that count as derived (line 147) are exactly vx, vy,
    ax, ay, speed and acceleration, alone or after an underscore: a
    field named 'speed' is removed as 'Home_1_speed' is. *)
Theorem is_derived_iff (c : string) :
  is_derived c = true <->
  exists w, In w derived_suffixes /\
            (c = w \/ exists q : string, c = (q ++ String "_" w)%string).
Proof.
  split.
  - unfold is_derived. intros H. apply mem_string_in in H.
    exists (last (split "_" c) EmptyString). split; [exact H|].
    pose proof (split_decompose c) as Hd.
    destruct (split "_" c) as [|w [|w' r]].
    + right. exact Hd.
    + left. exact Hd.
    + right. exact Hd.
  - intros (w & Hw & Hc).
    assert (Dw : is_derived w = true).
    { simpl in Hw.
      destruct Hw as [<-|[<-|[<-|[<-|[<-|[<-|[]]]]]]]; reflexivity. }
    destruct Hc as [->|[q ->]]; [exact Dw|].
    rewrite is_derived_suffix. exact Dw.
Qed.

(** ** The window and order the Savitzky-Golay filter is called with *)

(** X14.  The window [_savgol_safe] calls the filter with (lines 60-73)
    is the largest odd number that exceeds neither the number of samples
    nor the requested window plus one; the filter is skipped exactly
    when the requested window or the number of samples is below 3.  The
    order it passes (lines 76-78) is the smaller of the requested order
    and the window minus one. *)
Theorem savgol_window_largest_odd (n win : Z) :
  (savgol_window n win = None <-> (win < 3 \/ n < 3)%Z) /\
  (forall w, savgol_window n win = Some w <->
     (3 <= win /\ 3 <= n /\ Z.odd w = true /\
      w <= Z.min n (win + 1) < w + 2)%Z) /\
  (forall w poly, (3 <= w)%Z ->
     savgol_polyorder w poly = Z.min poly (w - 1)).
Proof.
  assert (Hodd : forall w, Z.odd w = true <-> (w mod 2 = 1)%Z).
  { intros w. rewrite Zodd_mod. split; intros E.
    - apply Z.eqb_eq in E. exact E.
    - apply Z.eqb_eq. exact E. }
  assert (Hcases :
    ((win < 3 \/ n < 3)%Z /\ savgol_window n win = None) \/
    (exists w, (3 <= win /\ 3 <= n /\ w mod 2 = 1 /\
                w <= Z.min n (win + 1) < w + 2)%Z /\
               savgol_window n win = Some w)).
  { unfold savgol_window.
    destruct (win <? 3)%Z eqn:Hw; [left; split; [lia|reflexivity]|].
    apply Z.ltb_ge in Hw.
    destruct (win mod 2 =? 0)%Z eqn:Ew;
      [apply Z.eqb_eq in Ew|apply Z.eqb_neq in Ew];
    (match goal with |- context [(?a >? n)%Z] =>
       destruct (a >? n)%Z eqn:Eg; [|rewrite Z.gtb_ltb in Eg;
                                         apply Z.ltb_ge in Eg]
     end);
    try (apply Z.gtb_lt in Eg);
    try (destruct (n mod 2 =? 1)%Z eqn:En;
         [apply Z.eqb_eq in En|apply Z.eqb_neq in En]);
    (match goal with |- context [(?a <? 3)%Z] =>
       destruct (a <? 3)%Z eqn:El; [apply Z.ltb_lt in El|apply Z.ltb_ge in El]
     end);
    try (left; split; [|reflexivity];
         Z.to_euclidean_division_equations; lia);
    right; eexists; (split; [|reflexivity]);
    Z.to_euclidean_division_equations; lia. }
  split; [|split].
  - destruct Hcases as [[C ->]|(w & C & ->)]; split; auto; try discriminate.
    lia.
  - intros w. rewrite Hodd.
    destruct Hcases as [[C ->]|(w0 & C & ->)].
    + split; [discriminate|lia].
    + split.
      * intros [= <-]. exact C.
      * intros C'. f_equal. Z.to_euclidean_division_equations. lia.
  - intros w poly Hw. unfold savgol_polyorder.
    destruct (poly >=? w)%Z eqn:E.
    + apply Z.geb_le in E. lia.
    + rewrite Z.geb_leb in E. apply Z.leb_gt in E. lia.
Qed.

(** ** The half-time boundary *)

Lemma first_label_iff idx : forall period b,
  first_label idx period = Some b <->
  exists i v,
    nth_error idx i = Some b /\ nth_error period i = Some v /\
    PrimFloat.eqb v 2%float = true /\
    forall j u, j < i -> nth_error period j = Some u ->
                PrimFloat.eqb u 2%float = false.
Proof.
  induction idx as [|l idx IH]; intros period b.
  - simpl. split; [discriminate|].
    intros (i & v & Hi & _). destruct i; discriminate.
  - destruct period as [|p period].
    + simpl. split; [discriminate|].
      intros (i & v & _ & Hv & _). destruct i; discriminate.
    + cbn [first_label]. destruct (PrimFloat.eqb p 2%float) eqn:Ep.
      * split.
        -- intros [= <-]. exists 0, p. repeat split; auto. intros j u Hj. lia.
        -- intros (i & v & Hi & Hv & E & Hb). destruct i as [|i].
           ++ simpl in Hi. congruence.
           ++ specialize (Hb 0 p ltac:(lia) eq_refl). congruence.
      * rewrite IH. split.
        -- intros (i & v & Hi & Hv & E & Hb). exists (S i), v.
           repeat split; auto. intros [|j] u Hj Hu; simpl in Hu.
           ++ congruence.
           ++ apply (Hb j u); [lia|exact Hu].
        -- intros (i & v & Hi & Hv & E & Hb). destruct i as [|i].
           ++ simpl in Hv. congruence.
           ++ exists i, v. repeat split; auto.
              intros j u Hj Hu. apply (Hb (S j) u); [lia|exact Hu].
Qed.

(** X15.  The half-time boundary (lines 42-46) is the index label of the
    first row, in row order, whose 'Period' equals 2; there is none when
    the table has no field 'Period' or no such row. *)
Theorem find_second_half_first_row (df : DataFrame) (b : Z) :
  find_second_half df = Some b <->
  exists period i v,
    get_column df "Period" = Ok period /\
    nth_error (index df) i = Some b /\ nth_error period i = Some v /\
    PrimFloat.eqb v 2%float = true /\
    forall j u, j < i -> nth_error period j = Some u ->
                PrimFloat.eqb u 2%float = false.
Proof.
  unfold find_second_half. rewrite mem_string_names.
  destruct (get_column df "Period") as [period|e].
  - rewrite first_label_iff. split.
    + intros (i & v & H). exists period, i, v. tauto.
    + intros (period' & i & v & [= <-] & H). exists i, v. exact H.
  - split; [discriminate|]. intros (period & i & v & E & _). discriminate.
Qed.

Lemma count_true_app a b : count_true (a ++ b) = count_true a + count_true b.
Proof. unfold count_true. rewrite filter_app, length_app. reflexivity. Qed.

Lemma count_true_repeat_true n : count_true (repeat true n) = n.
Proof.
  unfold count_true. induction n as [|n IH]; simpl; [reflexivity|].
  rewrite IH. reflexivity.
Qed.

Lemma count_true_repeat_false n : count_true (repeat false n) = 0.
Proof. unfold count_true. induction n as [|n IH]; simpl; auto. Qed.

Lemma mask_le_above idx b :
  Forall (fun l => (b < l)%Z) idx -> mask_le idx b = repeat false (length idx).
Proof.
  unfold mask_le.
  induction 1 as [|l idx Hl _ IH]; simpl; [reflexivity|].
  rewrite IH.
  replace (l <=? b)%Z with false by (symmetry; apply Z.leb_gt; lia).
  reflexivity.
Qed.

Lemma mask_le_sorted idx b : StronglySorted Z.lt idx ->
  forall k, nth_error idx k = Some b ->
  mask_le idx b = repeat true (S k) ++ repeat false (length idx - S k).
Proof.
  induction 1 as [|l idx Hs IH Hall]; intros [|k] Hk; simpl in *;
    try discriminate.
  - injection Hk as ->. unfold mask_le. simpl. rewrite Z.leb_refl. f_equal.
    rewrite Nat.sub_0_r. apply (mask_le_above idx b Hall).
  - rewrite Forall_forall in Hall.
    assert (l < b)%Z by (apply Hall; eapply nth_error_In; eauto).
    unfold mask_le. simpl.
    replace (l <=? b)%Z with true by (symmetry; apply Z.leb_le; lia).
    f_equal. apply IH. exact Hk.
Qed.

(** X16.  With a strictly increasing row index and the boundary at row i
    (counted from 0) of n, the two masks select the rows 0..i and the
    rows i..n-1: i+1 and n-i rows, the boundary row in both.  The
    moving-average window then fits exactly when it is between 1 and
    the smaller of the two; for a table that starts in the second half
    (i = 0) only the window 1 does. *)
Theorem segments_of_sorted_index (idx : list Z) (b : Z) (i : nat)
    (window : Z) :
  StronglySorted Z.lt idx -> nth_error idx i = Some b ->
  segment_sizes idx (Some b) = [S i; length idx - i] /\
  (window_fits idx (Some b) window <->
   (1 <= window <= Z.of_nat (S i) /\
    window <= Z.of_nat (length idx - i))%Z) /\
  (i = 0 -> window_fits idx (Some b) window -> window = 1%Z).
Proof.
  intros Hs Hi.
  assert (Hlt : i < length idx) by (apply nth_error_Some; congruence).
  assert (E : segment_sizes idx (Some b) = [S i; length idx - i]).
  { simpl. rewrite (mask_le_sorted idx b Hs i Hi), (mask_ge_sorted idx b Hs i Hi).
    rewrite !count_true_app, !count_true_repeat_true, !count_true_repeat_false.
    rewrite Nat.add_0_r. reflexivity. }
  split; [exact E|]. unfold window_fits. rewrite E.
  assert (F : Forall (fun n => (window <= Z.of_nat n)%Z) [S i; length idx - i]
              <-> (window <= Z.of_nat (S i) /\
                   window <= Z.of_nat (length idx - i))%Z).
  { split.
    - intros H. inversion H as [|? ? H1 H2]; subst.
      inversion H2; subst. auto.
    - intros [H1 H2]. repeat constructor; assumption. }
  rewrite F. split; [lia|]. intros -> [H1 [H2 _]]. lia.
Qed.

(** ** What a run changes in the store *)

Lemma nth_error_update_other h : forall t l df,
  l <> t -> nth_error (update h t df) l = nth_error h l.
Proof.
  induction h as [|d h IH]; intros [|t] [|l] df Hn; simpl; auto;
    try contradiction.
Qed.

Lemma update_length h : forall t df, length (update h t df) = length h.
Proof.
  induction h as [|d h IH]; intros [|t] df; simpl; auto.
Qed.

Section FootprintProofs.
Variable savgol_fit : series -> Z -> Z -> series.

(** X17.  What a run changes in the store, whether it returns or raises:
    no table other than the one it is given.  It adds one table (the
    sanitised copy, which it works on and returns) exactly when the
    input has derived fields; otherwise it adds none and returns the
    input table itself. *)
Theorem estimator_footprint (t : loc) (h : store) (df : DataFrame)
    (smoothing : bool) (filter_ : string) (window polyorder : Z)
    (maxspeed : option float) :
  nth_error h t = Some df ->
  let run := calc_player_velocities savgol_fit t smoothing filter_ window
               polyorder maxspeed h in
  (forall l, l <> t -> l < length h -> nth_error (snd run) l = nth_error h l) /\
  length (snd run) = (if has_derived df then S (length h) else length h) /\
  (forall t', fst run = Ok t' ->
     t' = (if has_derived df then length h else t)).
Proof.
  intros H run. unfold run. rewrite (calc_run _ _ _ _ _ _ _ _ _ H).
  cbv zeta. simpl snd. simpl fst.
  assert (Hlt : t < length h) by (apply nth_error_Some; congruence).
  destruct (has_derived df).
  - rewrite update_alloc. split; [|split].
    + intros l _ Hl. apply nth_error_app1. exact Hl.
    + rewrite length_app. simpl. lia.
    + intros t'. destruct (fst (estimate _ _ _ _ _ _ _)); simpl; congruence.
  - split; [|split].
    + intros l Hn _. apply nth_error_update_other. exact Hn.
    + apply update_length.
    + intros t'. destruct (fst (estimate _ _ _ _ _ _ _)); simpl; congruence.
Qed.

(** X18.  In the returned table p_speed is, row by row, the norm
    sqrt(vx^2 + vy^2) of the returned p_vx and p_vy (line 138), that is,
    of the smoothed components; a returned table that has p_vx has p_vy
    and p_speed. *)
Theorem speed_matches_components (t : loc) (h : store) (smoothing : bool)
    (filter_ : string) (window polyorder : Z) (maxspeed : option float)
    (t' : loc) (h' : store) (out : DataFrame) (p : string) (vx : series) :
  calc_player_velocities savgol_fit t smoothing filter_ window polyorder
    maxspeed h = (Ok t', h') ->
  nth_error h' t' = Some out ->
  get_column out (p ++ "_vx") = Ok vx ->
  exists vy,
    get_column out (p ++ "_vy") = Ok vy /\
    get_column out (p ++ "_speed") = Ok (sspeed vx vy) /\
    forall i a b, nth_error vx i = Some a -> nth_error vy i = Some b ->
      nth_error (sspeed vx vy) i = Some (speed_of a b).
Proof.
  intros Hc Ho Hvx.
  destruct (calc_writes_player_velocities savgol_fit _ _ _ _ _ _ _ _ _ Hc)
    as (df & out0 & time & Hd & Ho0 & Ht & Hall).
  rewrite Ho in Ho0. injection Ho0 as <-.
  assert (Hin : In p (player_ids_of (sanitize df))).
  { apply calc_ok in Hc. destruct Hc as (df' & Hd' & HE & _ & _ & Hout).
    rewrite Hd in Hd'. injection Hd' as <-.
    rewrite Ho in Hout. injection Hout as Hout.
    destruct (estimate_ok _ _ _ _ _ _ _ HE) as (_ & _ & _ & Hn).
    rewrite <- Hout in Hn.
    apply get_column_ok in Hvx. rewrite Hn in Hvx.
    apply in_app_iff in Hvx. destruct (velocity_derived p) as (Dx & _ & _).
    destruct Hvx as [Hvx|Hvx].
    - apply names_sanitize in Hvx. destruct Hvx. congruence.
    - apply in_flat_map in Hvx. destruct Hvx as (q & Hq & Hvx).
      assert (p = q).
      { eapply velocity_name_inj; [|exact Hvx]. left. reflexivity. }
      subst q. exact Hq. }
  destruct (Hall p Hin) as (vx0 & vy & speed & Hpv & Gx & Gy & Gs).
  rewrite Hvx in Gx. injection Gx as <-.
  exists vy. split; [exact Gy|].
  assert (Es : speed = sspeed vx vy).
  { unfold player_velocities in Hpv.
    destruct (raw_velocities _ _ _) as [[rx ry]|e]; [|discriminate].
    cbn [rbind] in Hpv. destruct (reject_outliers _ _ _) as [cx cy].
    destruct (smooth _ _ _ _ _ _ _ _ _) as [[ox oy]|e]; [|discriminate].
    cbn [rbind] in Hpv. injection Hpv as <- <- <-. reflexivity. }
  rewrite <- Es. split; [exact Gs|].
  intros i a b Ha Hb. rewrite Es. unfold sspeed.
  apply nth_error_map2; assumption.
Qed.
End FootprintProofs.

(** ** The frames [main] animates *)

Lemma take_every_In gap (l : list Z) : forall k f,
  In f (take_every gap k l) -> In f l.
Proof.
  induction l as [|x l IH]; intros k f H; simpl in *; [exact H|].
  destruct k as [|k]; simpl in H.
  - destruct H as [H|H]; [auto|]. right. apply (IH _ _ H).
  - right. apply (IH _ _ H).
Qed.

Lemma take_every_all (l : list Z) : take_every 0 0 l = l.
Proof. induction l as [|x l IH]; simpl; congruence. Qed.

Lemma index_step_In idx step sampled f :
  index_step idx step = Ok sampled -> In f sampled -> In f idx.
Proof.
  unfold index_step. destruct (step =? 0)%Z; [discriminate|].
  destruct (0 <? step)%Z; intros [= <-] H; apply take_every_In in H.
  - exact H.
  - apply in_rev. exact H.
Qed.

Lemma in_index_In f df : in_index f df = true <-> In f (index df).
Proof.
  unfold in_index. rewrite existsb_exists. split.
  - intros (x & Hx & E). apply Z.eqb_eq in E. subst. exact Hx.
  - intros H. exists f. split; [exact H|apply Z.eqb_refl].
Qed.

Lemma loc_row_Some df f : In f (index df) -> exists r, loc_row df f = Some r.
Proof.
  intros H. unfold loc_row.
  assert (E : existsb (fun b => b) (map (Z.eqb f) (index df)) = true).
  { apply existsb_exists. exists true. split; [|reflexivity].
    apply in_map_iff. exists f. split; [apply Z.eqb_refl|exact H]. }
  rewrite E. eauto.
Qed.

Lemma select_frames_In home away step frames f :
  select_frames home away step = Ok frames -> In f frames ->
  In f (index home) /\ In f (index away).
Proof.
  unfold select_frames. intros H Hf.
  destruct (index_step (index home) step) as [sampled|e] eqn:Es;
    [|discriminate].
  cbn [rbind] in H. injection H as <-.
  apply filter_In in Hf. destruct Hf as [Hs Ha].
  split; [eapply index_step_In; eauto|apply in_index_In; exact Ha].
Qed.

Lemma update_rows_ok home away frames k :
  (forall f, In f frames -> In f (index home) /\ In f (index away)) ->
  k < length frames ->
  exists home_row away_row,
    update_rows home away frames k = Some (home_row, away_row).
Proof.
  intros Hin Hk. unfold update_rows.
  destruct (nth_error frames k) as [frame|] eqn:Ek.
  2:{ apply nth_error_None in Ek. lia. }
  apply nth_error_In, Hin in Ek. destruct Ek as [Hh Ha].
  destruct (loc_row_Some _ _ Hh) as [hr ->].
  destruct (loc_row_Some _ _ Ha) as [ar ->]. eauto.
Qed.

Lemma select_frames_index home away home' away' step :
  index home' = index home -> index away' = index away ->
  select_frames home' away' step = select_frames home away step.
Proof.
  intros Eh Ea. unfold select_frames, in_index. rewrite Eh, Ea. reflexivity.
Qed.

Lemma select_frames_returns home away step :
  step <> 0%Z -> exists frames, select_frames home away step = Ok frames.
Proof.
  intros H. unfold select_frames, index_step.
  apply Z.eqb_neq in H. rewrite H. destruct (0 <? step)%Z; simpl; eauto.
Qed.

(** X19.  The frames [main] animates (lines 61-63).  A zero step is
    refused with ValueError and every other step gives a list.  Every
    frame of the list is a row label of both tables, so the lookups of
    update(k) (lines 96-98) succeed for every k below the number of
    frames and fail from there on; with step 1 the frames are exactly
    the labels the two tables share.  frames[0] (line 80) fails exactly
    when no sampled label of the home table is a label of the away
    table. *)
Theorem animated_frames_are_shared (tracking_home tracking_away : DataFrame)
    (frame_step : Z) :
  (frame_step = 0%Z <->
   select_frames tracking_home tracking_away frame_step = Raise ValueError) /\
  (frame_step <> 0%Z ->
   exists frames,
     select_frames tracking_home tracking_away frame_step = Ok frames) /\
  (forall frames,
     select_frames tracking_home tracking_away frame_step = Ok frames ->
     (forall f, In f frames ->
        In f (index tracking_home) /\ In f (index tracking_away)) /\
     (frame_step = 1%Z ->
        forall f, In f frames <->
          In f (index tracking_home) /\ In f (index tracking_away)) /\
     (forall k, k < length frames ->
        exists home_row away_row,
          update_rows tracking_home tracking_away frames k
          = Some (home_row, away_row)) /\
     (forall k, length frames <= k ->
        update_rows tracking_home tracking_away frames k = None) /\
     (hd_error frames = None <->
      forall sampled, index_step (index tracking_home) frame_step = Ok sampled ->
        forall f, In f sampled -> ~ In f (index tracking_away))).
Proof.
  split; [|split; [apply select_frames_returns|]]; unfold select_frames.
  - unfold index_step. destruct (frame_step =? 0)%Z eqn:E.
    + apply Z.eqb_eq in E. split; auto.
    + apply Z.eqb_neq in E. destruct (0 <? frame_step)%Z; simpl;
        split; intros; try discriminate; contradiction.
  - intros frames H.
    destruct (index_step (index tracking_home) frame_step) as [sampled|e]
      eqn:Es; [|discriminate].
    cbn [rbind] in H. injection H as <-.
    assert (Hin : forall f,
              In f (filter (fun f => in_index f tracking_away) sampled) ->
              In f (index tracking_home) /\ In f (index tracking_away)).
    { intros f Hf. apply filter_In in Hf. destruct Hf as [Hs Ha].
      split; [eapply index_step_In; eauto|apply in_index_In; exact Ha]. }
    split; [exact Hin|]. split; [|split; [|split]].
    + intros -> f. split; [apply Hin|]. intros [Hh Ha].
      unfold index_step in Es. simpl in Es. injection Es as <-.
      rewrite take_every_all. apply filter_In.
      split; [exact Hh|apply in_index_In; exact Ha].
    + intros k Hk. apply update_rows_ok; assumption.
    + intros k Hk. unfold update_rows.
      apply nth_error_None in Hk. rewrite Hk. reflexivity.
    + split.
      * intros Hnil sampled' [= <-] f Hs Ha.
        assert (Hf : In f (filter (fun f => in_index f tracking_away) sampled)).
        { apply filter_In. split; [exact Hs|apply in_index_In; exact Ha]. }
        destruct (filter _ sampled); [contradiction|discriminate].
      * intros Hnone.
        destruct (filter _ sampled) as [|f fs] eqn:Ef; [reflexivity|].
        exfalso.
        assert (Hf : In f (filter (fun f => in_index f tracking_away) sampled))
          by (rewrite Ef; left; reflexivity).
        apply filter_In in Hf. destruct Hf as [Hs Ha].
        apply in_index_In in Ha. exact (Hnone sampled eq_refl f Hs Ha).
Qed.

Section MainProofs.
Variable savgol_fit : series -> Z -> Z -> series.

Lemma calc_keeps_others t h df sm f w po ms l :
  nth_error h t = Some df -> l <> t -> l < length h ->
  nth_error (snd (calc_player_velocities savgol_fit t sm f w po ms h)) l
  = nth_error h l.
Proof.
  intros H Hn Hl. rewrite (calc_run _ _ _ _ _ _ _ _ _ H). cbv zeta.
  simpl snd. destruct (has_derived df).
  - rewrite update_alloc. apply nth_error_app1. exact Hl.
  - apply nth_error_update_other. exact Hn.
Qed.

Lemma calc_returned_table t h df sm f w po ms t' h' :
  nth_error h t = Some df ->
  calc_player_velocities savgol_fit t sm f w po ms h = (Ok t', h') ->
  exists out, nth_error h' t' = Some out /\ index out = index df /\
              t' < length h' /\ length h <= length h' /\
              (t' = t \/ t' = length h).
Proof.
  intros H Hc. pose proof Hc as Hc'. apply calc_ok in Hc.
  destruct Hc as (df' & Hd & _ & Ht & Hh & Hout).
  rewrite H in Hd. injection Hd as <-.
  eexists. split; [exact Hout|].
  destruct (estimate_shape savgol_fit df sm f w po ms) as (added & _ & Es).
  rewrite Es. split; [reflexivity|].
  split; [apply nth_error_Some; congruence|].
  assert (Hlt : t < length h) by (apply nth_error_Some; congruence).
  destruct (has_derived df); subst t'.
  - rewrite Hh, update_alloc, length_app. simpl. split; [lia|auto].
  - rewrite Hh, update_length. split; [lia|auto].
Qed.

(** X20.  The two velocity calls of [main] followed by the frame
    selection (lines 51-52 and 61-63): when both calls return and the
    step is not zero, the frames are those selected from the two tables
    as they were before the calls (the estimator keeps the row index and
    the second call leaves the first call's result alone), and update(k)
    finds the rows of every frame in the two returned tables. *)
Theorem main_frames_spec (tracking_home tracking_away : loc)
    (frame_step : Z) (h h1 h2 : store) (home away : DataFrame)
    (t1 t2 : loc) :
  nth_error h tracking_home = Some home ->
  nth_error h tracking_away = Some away ->
  tracking_home <> tracking_away ->
  calc_player_velocities savgol_fit tracking_home true SAVGOL 7 1
    (Some 12%float) h = (Ok t1, h1) ->
  calc_player_velocities savgol_fit tracking_away true SAVGOL 7 1
    (Some 12%float) h1 = (Ok t2, h2) ->
  frame_step <> 0%Z ->
  exists frames out_home out_away,
    main_frames savgol_fit tracking_home tracking_away frame_step h
      = (Ok (t1, t2, frames), h2) /\
    nth_error h2 t1 = Some out_home /\ nth_error h2 t2 = Some out_away /\
    index out_home = index home /\ index out_away = index away /\
    select_frames home away frame_step = Ok frames /\
    forall k, k < length frames ->
      exists home_row away_row,
        update_rows out_home out_away frames k = Some (home_row, away_row).
Proof.
  intros Hh Ha Hne C1 C2 Hs.
  assert (Hlh : tracking_home < length h) by (apply nth_error_Some; congruence).
  assert (Hla : tracking_away < length h) by (apply nth_error_Some; congruence).
  destruct (calc_returned_table _ _ _ _ _ _ _ _ _ _ Hh C1)
    as (oh & Ho1 & Ih & Lt1 & Lh1 & Ht1).
  assert (Ha1 : nth_error h1 tracking_away = Some away).
  { pose proof (calc_keeps_others tracking_home h home true SAVGOL 7%Z 1%Z
                  (Some 12%float) tracking_away Hh (not_eq_sym Hne) Hla) as K.
    rewrite C1 in K. simpl in K. congruence. }
  destruct (calc_returned_table _ _ _ _ _ _ _ _ _ _ Ha1 C2)
    as (oa & Ho2 & Ia & Lt2 & Lh2 & Ht2).
  assert (Ho1' : nth_error h2 t1 = Some oh).
  { pose proof (calc_keeps_others tracking_away h1 away true SAVGOL 7%Z 1%Z
                  (Some 12%float) t1 Ha1) as K.
    rewrite C2 in K. simpl in K. rewrite K; [exact Ho1| |exact Lt1].
    destruct Ht1; lia. }
  destruct (select_frames_returns home away frame_step Hs) as [frames Hf].
  exists frames, oh, oa.
  split.
  - unfold main_frames, bind. rewrite C1, C2. unfold read.
    rewrite Ho1', Ho2. unfold lift.
    rewrite (select_frames_index home away oh oa frame_step Ih Ia), Hf.
    reflexivity.
  - repeat (split; [assumption|]).
    intros k Hk. apply update_rows_ok; [|exact Hk].
    intros f Hin. rewrite Ih, Ia.
    eapply select_frames_In; eauto.
Qed.
End MainProofs.

(** ** Stale derived fields *)

Section StaleProofs.
Variable savgol_fit : series -> Z -> Z -> series.

Lemma estimate_sanitize df sm f w po ms :
  estimate savgol_fit df sm f w po ms =
  estimate savgol_fit (sanitize df) sm f w po ms.
Proof.
  unfold estimate. rewrite sanitize_idempotent. reflexivity.
Qed.

(** X21.  Derived fields that the input already has are never read: on
    two tables that differ only in derived fields the estimator raises
    the same exception or returns equal tables. *)
Theorem stale_fields_are_never_read (t1 t2 : loc) (h1 h2 : store)
    (df1 df2 : DataFrame) (smoothing : bool) (filter_ : string)
    (window polyorder : Z) (maxspeed : option float) :
  nth_error h1 t1 = Some df1 -> nth_error h2 t2 = Some df2 ->
  sanitize df1 = sanitize df2 ->
  let run1 := calc_player_velocities savgol_fit t1 smoothing filter_ window
                polyorder maxspeed h1 in
  let run2 := calc_player_velocities savgol_fit t2 smoothing filter_ window
                polyorder maxspeed h2 in
  (forall e, fst run1 = Raise e <-> fst run2 = Raise e) /\
  (forall t1', fst run1 = Ok t1' ->
     exists t2' out,
       fst run2 = Ok t2' /\
       nth_error (snd run1) t1' = Some out /\
       nth_error (snd run2) t2' = Some out).
Proof.
  intros H1 H2 Es run1 run2. unfold run1, run2.
  assert (EE : estimate savgol_fit df1 smoothing filter_ window polyorder
                 maxspeed =
               estimate savgol_fit df2 smoothing filter_ window polyorder
                 maxspeed).
  { rewrite (estimate_sanitize df1), (estimate_sanitize df2), Es.
    reflexivity. }
  split.
  - intros e. rewrite (calc_run _ _ _ _ _ _ _ _ _ H1).
    rewrite (calc_run _ _ _ _ _ _ _ _ _ H2). cbv zeta. simpl fst.
    rewrite EE.
    destruct (fst (estimate savgol_fit df2 _ _ _ _ _)); simpl;
      split; intros E; try discriminate; exact E.
  - intros t1' Hr.
    destruct (calc_player_velocities savgol_fit t1 smoothing filter_ window
                polyorder maxspeed h1) as [r1 s1] eqn:C1.
    simpl in Hr. subst r1. apply calc_ok in C1.
    destruct C1 as (d1 & Hd1 & HE1 & _ & _ & Ho1).
    rewrite H1 in Hd1. injection Hd1 as <-.
    destruct (calc_player_velocities savgol_fit t2 smoothing filter_ window
                polyorder maxspeed h2) as [r2 s2] eqn:C2.
    assert (Hr2 : exists t2', r2 = Ok t2').
    { pose proof (calc_run savgol_fit _ _ _ smoothing filter_ window polyorder
                    maxspeed H2) as R. rewrite C2 in R. cbv zeta in R.
      injection R as -> _. rewrite <- EE, HE1. simpl. eauto. }
    destruct Hr2 as [t2' ->]. apply calc_ok in C2.
    destruct C2 as (d2 & Hd2 & HE2 & _ & _ & Ho2).
    rewrite H2 in Hd2. injection Hd2 as <-.
    exists t2'. eexists. simpl. split; [reflexivity|].
    split; [exact Ho1|]. rewrite EE. exact Ho2.
Qed.
End StaleProofs.

(** ** Failures of the Savitzky-Golay configuration *)

Lemma savgol_window_some n win :
  (3 <= win)%Z -> (3 <= n)%Z ->
  exists w, savgol_window n win = Some w /\ (3 <= w <= n)%Z.
Proof.
  intros Hw Hn. unfold savgol_window.
  replace (win <? 3)%Z with false by (symmetry; apply Z.ltb_ge; lia).
  destruct (win mod 2 =? 0)%Z;
    (match goal with |- context [(?a >? n)%Z] =>
       destruct (a >? n)%Z eqn:Eg; [apply Z.gtb_lt in Eg|
         rewrite Z.gtb_ltb in Eg; apply Z.ltb_ge in Eg]
     end);
    try (destruct (n mod 2 =? 1)%Z eqn:En;
         [apply Z.eqb_eq in En|apply Z.eqb_neq in En]);
    (match goal with |- context [(?a <? 3)%Z] =>
       destruct (a <? 3)%Z eqn:El; [apply Z.ltb_lt in El|apply Z.ltb_ge in El]
     end);
    try (exfalso; Z.to_euclidean_division_equations; lia);
    eexists; (split; [reflexivity|]); lia.
Qed.

Lemma all_missing_loc_get mask : forall s,
  all_missing s -> all_missing (loc_get mask s).
Proof.
  unfold all_missing.
  induction mask as [|m mask IH]; intros [|x s] H; simpl; try constructor.
  inversion H; subst. destruct m; [constructor|]; auto.
Qed.

Lemma repair_gaps_no_valid s :
  existsb valid s = false -> all_missing (repair_gaps s).
Proof.
  intros H.
  assert (Hall : forall u, In u s -> valid u = false).
  { intros u Hu. destruct (valid u) eqn:V; [|reflexivity].
    assert (existsb valid s = true) by (apply existsb_exists; eauto).
    congruence. }
  assert (Hm : all_missing (replace_inf s)).
  { unfold all_missing. apply Forall_forall. intros u Hu.
    apply In_nth_error in Hu. destruct Hu as [i Hi].
    destruct (nth_error s i) as [w|] eqn:Ew.
    - destruct (replace_inf_invalid _ _ _ Ew
                  (Hall w (nth_error_In _ _ Ew))) as (u' & E1 & E2).
      rewrite E1 in Hi. injection Hi as <-. exact E2.
    - unfold replace_inf in Hi. rewrite nth_error_map, Ew in Hi.
      discriminate. }
  unfold repair_gaps, interpolate.
  rewrite (interp_from_all_nan _ (next_valid_missing _ Hm)). exact Hm.
Qed.

Lemma added_columns_first_failure
    (pv : string -> result (series * series * series)) ps p :
  In p ps -> pv p = Raise ValueError ->
  (forall q e, In q ps -> pv q = Raise e -> e = ValueError) ->
  fst (added_columns pv ps) = Raise ValueError.
Proof.
  induction ps as [|a ps IH]; intros Hin Hp Hall; [contradiction|].
  simpl. destruct (pv a) as [v|e] eqn:Ea.
  - destruct Hin as [->|Hin]; [congruence|].
    destruct (added_columns pv ps) as [r cols]. simpl in *.
    apply IH; auto. intros q e Hq. apply Hall. right. exact Hq.
  - simpl. f_equal. apply (Hall a e); [left; reflexivity|exact Ea].
Qed.

Lemma loc_set_raise mask s vals e :
  loc_set mask s vals = Raise e -> e = ValueError.
Proof. unfold loc_set. destruct (Nat.eqb _ _); congruence. Qed.

Lemma set_all_raise s vals e : set_all s vals = Raise e -> e = ValueError.
Proof. unfold set_all. destruct (Nat.eqb _ _); congruence. Qed.

Section SavgolFailures.
Variable savgol_fit : series -> Z -> Z -> series.

Lemma savgol_safe_raise s win poly e :
  _savgol_safe savgol_fit s win poly = Raise e -> e = ValueError.
Proof.
  unfold _savgol_safe, savgol_filter.
  destruct (savgol_window _ _); [|discriminate].
  destruct (_ && _)%bool; congruence.
Qed.

Lemma savgol_safe_skipped s win poly :
  (win < 3)%Z -> _savgol_safe savgol_fit s win poly = Ok (fill_gaps s).
Proof.
  intros H. unfold _savgol_safe, savgol_window.
  replace (win <? 3)%Z with true by (symmetry; apply Z.ltb_lt; lia).
  reflexivity.
Qed.

Lemma savgol_safe_all_missing s win poly :
  all_missing s -> 3 <= length s -> (3 <= win)%Z ->
  _savgol_safe savgol_fit s win poly = Raise ValueError.
Proof.
  intros Hm Hn Hw. unfold _savgol_safe.
  rewrite (fill_gaps_all_missing s Hm).
  destruct (savgol_window_some (Z.of_nat (length s)) win Hw ltac:(lia))
    as (w & -> & Hb).
  unfold savgol_filter.
  assert (F : forallb isfinite (firstn (Z.to_nat w) s) = false).
  { destruct s as [|x s]; [simpl in Hn; lia|].
    destruct (Z.to_nat w) as [|k] eqn:Ek; [lia|]. simpl.
    inversion Hm; subst. unfold isfinite, isna in *.
    replace (PrimFloat.is_nan x) with true by congruence. reflexivity. }
  rewrite F, andb_false_r. reflexivity.
Qed.

Lemma smooth_savgol_raise idx shi w po vx vy e :
  smooth_savgol savgol_fit idx shi w po vx vy = Raise e -> e = ValueError.
Proof.
  unfold smooth_savgol. destruct shi as [b|]; intros H; bind_raise H;
    try discriminate;
    first [ eapply savgol_safe_raise; eassumption
          | eapply loc_set_raise; eassumption
          | eapply set_all_raise; eassumption ].
Qed.

Lemma savgol_safe_skipped_length s win poly :
  (win < 3)%Z ->
  exists out, _savgol_safe savgol_fit s win poly = Ok out /\
              length out = length s.
Proof.
  intros H. exists (fill_gaps s).
  split; [apply savgol_safe_skipped; exact H|apply fill_gaps_length].
Qed.

Lemma smooth_savgol_skipped idx shi w po vx vy :
  (w < 3)%Z -> length vx = length idx -> length vy = length idx ->
  exists ox oy, smooth_savgol savgol_fit idx shi w po vx vy = Ok (ox, oy).
Proof.
  intros Hp Lx Ly. unfold smooth_savgol. destruct shi as [b|].
  - destruct (savgol_safe_skipped_length (loc_get (mask_le idx b) vx) w po Hp)
      as (r1 & -> & L1). cbn [rbind]. unfold loc_set at 1.
    rewrite L1, loc_get_length, Nat.eqb_refl by (rewrite mask_le_length; auto).
    cbn [rbind].
    destruct (savgol_safe_skipped_length (loc_get (mask_le idx b) vy) w po Hp)
      as (r2 & -> & L2). cbn [rbind]. unfold loc_set at 1.
    rewrite L2, loc_get_length, Nat.eqb_refl by (rewrite mask_le_length; auto).
    cbn [rbind].
    destruct (savgol_safe_skipped_length
                (loc_get (mask_ge idx b) (loc_put (mask_le idx b) vx r1)) w po Hp)
      as (r3 & -> & L3). cbn [rbind]. unfold loc_set at 1.
    rewrite L3, loc_get_length, Nat.eqb_refl
      by (rewrite loc_put_length, mask_ge_length; auto).
    cbn [rbind].
    destruct (savgol_safe_skipped_length
                (loc_get (mask_ge idx b) (loc_put (mask_le idx b) vy r2)) w po Hp)
      as (r4 & -> & L4). cbn [rbind]. unfold loc_set at 1.
    rewrite L4, loc_get_length, Nat.eqb_refl
      by (rewrite loc_put_length, mask_ge_length; auto).
    cbn [rbind]. eauto.
  - destruct (savgol_safe_skipped_length vx w po Hp) as (r1 & -> & L1).
    cbn [rbind]. unfold set_all at 1. rewrite L1, Nat.eqb_refl. cbn [rbind].
    destruct (savgol_safe_skipped_length vy w po Hp) as (r2 & -> & L2).
    cbn [rbind]. unfold set_all at 1. rewrite L2, Nat.eqb_refl. cbn [rbind].
    eauto.
Qed.

Lemma smooth_savgol_without_valid_sample idx shi w po vx vy :
  length vx = length idx -> length vy = length idx ->
  (3 <= w)%Z -> 3 <= hd 0 (segment_sizes idx shi) ->
  all_missing vx \/ all_missing vy ->
  smooth_savgol savgol_fit idx shi w po vx vy = Raise ValueError.
Proof.
  intros Lx Ly Hw Hn Hm.
  destruct (smooth_savgol savgol_fit idx shi w po vx vy) as [[ox oy]|e] eqn:E.
  - exfalso. unfold smooth_savgol in E. destruct shi as [b|]; simpl in Hn.
    + assert (Lm : forall s : series, length s = length idx ->
                length (loc_get (mask_le idx b) s) = count_true (mask_le idx b)).
      { intros s Ls. apply loc_get_length. rewrite mask_le_length. exact Ls. }
      bind_ok E. bind_ok E. bind_ok E.
      destruct Hm as [Hm|Hm].
      * rewrite savgol_safe_all_missing in Hr; try discriminate; auto.
        -- apply all_missing_loc_get. exact Hm.
        -- rewrite Lm; auto.
      * rewrite savgol_safe_all_missing in Hr1; try discriminate; auto.
        -- apply all_missing_loc_get. exact Hm.
        -- rewrite Lm; auto.
    + bind_ok E. bind_ok E. bind_ok E.
      destruct Hm as [Hm|Hm].
      * rewrite savgol_safe_all_missing in Hr; try discriminate; auto. lia.
      * rewrite savgol_safe_all_missing in Hr1; try discriminate; auto. lia.
  - f_equal. eapply smooth_savgol_raise. exact E.
Qed.
End SavgolFailures.

Section SavgolEstimator.
Variable savgol_fit : series -> Z -> Z -> series.

Lemma raw_velocities_sanitize df dt (p : string) :
  raw_velocities (sanitize df) dt p = raw_velocities df dt p.
Proof.
  destruct (position_not_derived p) as [Nx Ny]. unfold raw_velocities.
  rewrite (get_column_sanitize _ _ Nx), (get_column_sanitize _ _ Ny).
  reflexivity.
Qed.

Lemma player_velocities_savgol_cases df time shi w po ms (p : string) :
  rectangular df -> length time = length (index df) ->
  In (p ++ "_x")%string (names df) -> In (p ++ "_y")%string (names df) ->
  exists rx ry,
    raw_velocities df (diff time) p = Ok (rx, ry) /\
    let cx := repair_gaps (fst (reject_outliers ms rx ry)) in
    let cy := repair_gaps (snd (reject_outliers ms rx ry)) in
    length cx = length (index df) /\ length cy = length (index df) /\
    player_velocities savgol_fit df (diff time) shi true SAVGOL w po ms p =
    rbind (smooth_savgol savgol_fit (index df) shi w po cx cy)
      (fun v => Ok (fst v, snd v, sspeed (fst v) (snd v))).
Proof.
  intros R Lt Hx Hy. unfold player_velocities.
  destruct (raw_velocities df (diff time) p) as [[rx ry]|e] eqn:Er.
  - exists rx, ry. split; [reflexivity|]. cbv zeta.
    destruct (raw_velocities_lengths _ _ _ _ _ R Lt Er) as [Lx Ly].
    destruct (reject_outliers_length ms rx ry) as [Lcx Lcy].
    rewrite !repair_gaps_length.
    split; [congruence|]. split; [congruence|].
    cbn [rbind]. destruct (reject_outliers ms rx ry) as [cx cy].
    unfold smooth. change (String.eqb SAVGOL SAVGOL) with true. cbv iota.
    simpl fst. simpl snd.
    destruct (smooth_savgol _ _ _ _ _ _ _) as [[ox oy]|e]; reflexivity.
  - exfalso. unfold raw_velocities in Er.
    destruct (get_column_present _ _ Hx) as [x Ex].
    destruct (get_column_present _ _ Hy) as [y Ey].
    rewrite Ex, Ey in Er. discriminate.
Qed.

(** X5.  The Savitzky-Golay filter (the default, and what [main] calls
    the estimator with) on a rectangular table that has 'Time [s]' and
    whose players are complete (every tagged prefix has both position
    fields or neither).  Every failure is a ValueError.  A window below
    3 never fails: the filter is skipped.  With a window of at least 3
    and at least 3 rows in the first segment, the estimator does fail
    when outlier rejection leaves some player without a valid sample in
    one of its two raw velocity components (all positions missing, or
    every speed above [maxspeed], as in the 10-row table of a player at
    25 m/s with the default bound of 12): the series handed to
    [savgol_filter] is then all NaN. *)
Theorem savgol_estimator_failures (t : loc) (h : store) (df : DataFrame)
    (window polyorder : Z) (maxspeed : option float) :
  nth_error h t = Some df ->
  rectangular df ->
  In "Time [s]" (names df) ->
  complete_players df ->
  let run := calc_player_velocities savgol_fit t true SAVGOL window
               polyorder maxspeed h in
  (forall e, fst run = Raise e -> e = ValueError) /\
  ((window < 3)%Z -> exists t', fst run = Ok t') /\
  (forall (p : string) time rx ry,
     (3 <= window)%Z ->
     3 <= hd 0 (segment_sizes (index df) (find_second_half df)) ->
     has_team_tag p = true ->
     get_column df "Time [s]" = Ok time ->
     raw_velocities df (diff time) p = Ok (rx, ry) ->
     existsb valid (fst (reject_outliers maxspeed rx ry)) = false \/
     existsb valid (snd (reject_outliers maxspeed rx ry)) = false ->
     fst run = Raise ValueError).
Proof.
  intros H R Ht Hc run. unfold run.
  rewrite (calc_run _ _ _ _ _ _ _ _ _ H). cbv zeta.
  unfold estimate.
  destruct (get_column_present (sanitize df) "Time [s]") as [time Et].
  { apply names_sanitize. split; [exact Ht|reflexivity]. }
  rewrite Et. cbv zeta. simpl fst.
  pose proof (sanitize_rectangular df R) as Rs.
  pose proof (get_column_rectangular _ _ _ Rs Et) as Lt.
  rewrite find_second_half_sanitize, player_ids_sanitize.
  set (pv := player_velocities savgol_fit (sanitize df) (diff time)
               (find_second_half df) true SAVGOL window polyorder
               maxspeed).
  assert (Hpv : forall p, In p (player_ids_of df) ->
            exists rx ry,
              raw_velocities df (diff time) p = Ok (rx, ry) /\
              let cx := repair_gaps (fst (reject_outliers maxspeed rx ry)) in
              let cy := repair_gaps (snd (reject_outliers maxspeed rx ry)) in
              length cx = length (index df) /\
              length cy = length (index df) /\
              pv p =
              rbind (smooth_savgol savgol_fit (index df)
                       (find_second_half df) window polyorder cx cy)
                (fun v => Ok (fst v, snd v, sspeed (fst v) (snd v)))).
  { intros p Hp. rewrite <- player_ids_sanitize in Hp.
    apply player_ids_in in Hp.
    destruct Hp as [Tag Hxy]. destruct (position_not_derived p) as [Nx Ny].
    assert (Hboth : In (p ++ "_x")%string (names (sanitize df)) /\
                    In (p ++ "_y")%string (names (sanitize df))).
    { rewrite !names_sanitize. rewrite !names_sanitize in Hxy.
      pose proof (Hc p Tag). tauto. }
    destruct Hboth as [Hx Hy].
    destruct (player_velocities_savgol_cases (sanitize df) time
                (find_second_half df) window polyorder maxspeed p Rs Lt Hx Hy)
      as (rx & ry & Er & Hrest).
    rewrite raw_velocities_sanitize in Er. exists rx, ry.
    split; [exact Er|exact Hrest]. }
  assert (Hraise : forall q e, In q (player_ids_of df) -> pv q = Raise e ->
                   e = ValueError).
  { intros q e Hq Hr. destruct (Hpv q Hq) as (rx & ry & _ & _ & _ & Eq).
    rewrite Eq in Hr.
    destruct (smooth_savgol _ _ _ _ _ _ _) as [v|e'] eqn:Es;
      [discriminate|].
    simpl in Hr. injection Hr as <-. eapply smooth_savgol_raise. exact Es. }
  split; [|split].
  - intros e He.
    destruct (fst (added_columns pv (player_ids_of df))) as [[]|e'] eqn:Ea;
      [discriminate|].
    simpl in He. injection He as <-.
    apply added_columns_raise in Ea. destruct Ea as (q & Hq & Hr).
    exact (Hraise q e' Hq Hr).
  - intros Hw. rewrite added_columns_all_ok; [simpl; eauto|].
    apply Forall_forall. intros q Hq.
    destruct (Hpv q Hq) as (rx & ry & _ & Lx & Ly & Eq). rewrite Eq.
    destruct (smooth_savgol_skipped savgol_fit (index df)
                (find_second_half df) window polyorder _ _ Hw Lx Ly)
      as (ox & oy & ->). simpl. eauto.
  - intros p time' rx ry Hw Hn Tag Et' Er Hno.
    rewrite (get_column_sanitize _ _ time_not_derived) in Et.
    rewrite Et in Et'. injection Et' as <-.
    assert (Hp : In p (player_ids_of df)).
    { apply player_ids_in. split; [exact Tag|]. left.
      unfold raw_velocities in Er.
      destruct (get_column df (p ++ "_x")) as [x|e] eqn:Ex; [|discriminate].
      eapply get_column_ok. exact Ex. }
    rewrite (added_columns_first_failure pv _ p Hp); [reflexivity| |exact Hraise].
    destruct (Hpv p Hp) as (rx' & ry' & Er' & Lx & Ly & Eq).
    rewrite Er in Er'. injection Er' as <- <-. rewrite Eq.
    rewrite smooth_savgol_without_valid_sample; auto.
    destruct Hno as [Hno|Hno]; [left|right];
      apply repair_gaps_no_valid; exact Hno.
Qed.
End SavgolEstimator.

(** ** The hypotheses on sample tables *)

Lemma complete_players_check df :
  complete_playersb df = true -> complete_players df.
Proof.
  unfold complete_playersb, complete_players. intros H p Hp.
  rewrite forallb_forall in H.
  assert (Hboth : In (p ++ "_x")%string (names df) \/
                  In (p ++ "_y")%string (names df) ->
                  In (p ++ "_x")%string (names df) /\
                  In (p ++ "_y")%string (names df)).
  { intros Hxy.
    assert (Hin : In p (player_ids_of df)) by (apply player_ids_in; auto).
    apply H in Hin. apply andb_true_iff in Hin.
    rewrite !mem_string_in in Hin. exact Hin. }
  tauto.
Qed.

Lemma missing_time_raises_witness :
  fst (calc_player_velocities fit_identity 0 true SAVGOL 7 1
         (Some 12%float) [no_time]) = Raise (KeyError "Time [s]").
Proof.
  assert (Hno : ~ In "Time [s]" (names no_time)).
  { simpl. intros [E|[E|[E|[]]]]; discriminate E. }
  exact (proj1 (missing_time_raises fit_identity 0 [no_time] no_time true
                  SAVGOL 7%Z 1%Z (Some 12%float) eq_refl Hno)).
Defined.

Lemma incomplete_player_raises_witness :
  exists e,
    fst (calc_player_velocities fit_identity 0 true SAVGOL 7 1
           (Some 12%float) [lone_x]) = Raise e.
Proof.
  assert (Hx : In ("Home_2" ++ "_x")%string (names lone_x)).
  { simpl. auto. }
  assert (Hy : ~ In ("Home_2" ++ "_y")%string (names lone_x)).
  { simpl. intros [E|[E|[E|[E|[]]]]]; discriminate E. }
  exact (incomplete_player_raises fit_identity 0 [lone_x] lone_x true
           SAVGOL 7%Z 1%Z (Some 12%float) "Home_2" eq_refl eq_refl
           (or_introl (conj Hx Hy))).
Defined.

Lemma unsmoothed_returns_iff_witness :
  exists t',
    fst (calc_player_velocities fit_identity 0 false SAVGOL 7 1
           (Some 12%float) [two_rows]) = Ok t'.
Proof.
  apply (proj1 (unsmoothed_returns_iff fit_identity 0 [two_rows] two_rows
                  SAVGOL 7%Z 1%Z (Some 12%float) eq_refl)).
  split; [simpl; auto|]. apply complete_players_check. reflexivity.
Defined.

Lemma estimator_keeps_table_rectangular_witness :
  exists out,
    nth_error (snd (calc_player_velocities fit_identity 0 true SAVGOL 7 1
                      (Some 12%float) [two_rows])) 0 = Some out /\
    index out = index two_rows /\ rectangular out.
Proof.
  apply (estimator_keeps_table_rectangular fit_identity 0 [two_rows] true
           SAVGOL 7%Z 1%Z (Some 12%float) two_rows 0 _ eq_refl).
  - repeat constructor.
  - vm_compute. reflexivity.
Defined.

Lemma savgol_estimator_failures_witness :
  fst (calc_player_velocities fit_identity 0 true SAVGOL 7 1
         (Some 12%float) [constant_velocity]) = Raise ValueError.
Proof.
  assert (Hc : complete_players constant_velocity).
  { apply complete_players_check. reflexivity. }
  pose proof (savgol_estimator_failures fit_identity 0 [constant_velocity]
                constant_velocity 7%Z 1%Z (Some 12%float) eq_refl
                ltac:(repeat constructor) ltac:(simpl; auto) Hc) as H.
  cbv zeta in H. destruct H as (_ & _ & H).
  apply (H "Home_11" _ _ _ ltac:(lia) ltac:(simpl; lia) eq_refl eq_refl
           ltac:(vm_compute; reflexivity)).
  left. vm_compute. reflexivity.
Defined.

Lemma returned_table_schema_witness :
  exists out,
    nth_error (snd (calc_player_velocities fit_identity 0 true SAVGOL 7 1
                      (Some 12%float) [two_rows_stale])) 1 = Some out /\
    names out = ["Time [s]"; "Home_1_x"; "Home_1_y";
                 "Home_1_vx"; "Home_1_vy"; "Home_1_speed"].
Proof.
  destruct (returned_table_schema fit_identity 0 [two_rows_stale] true SAVGOL
              7%Z 1%Z (Some 12%float) 1 _ ltac:(vm_compute; reflexivity))
    as (df & out & Hd & Ho & _ & Hn & _).
  injection Hd as <-. exists out. split; [exact Ho|exact Hn].
Defined.

Lemma player_depends_on_own_fields_witness :
  get_column
    (nth 0 (snd (calc_player_velocities fit_identity 0 true SAVGOL 7 1
                   (Some 12%float) [two_rows])) two_rows) "Home_1_vx" =
  get_column
    (nth 1 (snd (calc_player_velocities fit_identity 0 true SAVGOL 7 1
                   (Some 12%float) [two_rows_stale])) two_rows) "Home_1_vx".
Proof.
  apply (player_depends_on_own_fields fit_identity 0 0 [two_rows]
           [two_rows_stale] true SAVGOL 7%Z 1%Z (Some 12%float) 0 1 _ _
           two_rows two_rows_stale _ _ "Home_1" eq_refl eq_refl
           ltac:(vm_compute; reflexivity) ltac:(vm_compute; reflexivity)
           ltac:(vm_compute; reflexivity) ltac:(vm_compute; reflexivity)
           eq_refl eq_refl eq_refl eq_refl eq_refl).
Defined.

Lemma unsmoothed_velocity_is_finite_difference_witness :
  exists vx,
    get_column
      (nth 0 (snd (calc_player_velocities fit_identity 0 false SAVGOL 7 1
                     None [two_rows])) two_rows) "Home_1_vx" = Ok vx /\
    nth_error vx 1 =
      Some (PrimFloat.div (PrimFloat.sub 0.1 0) (PrimFloat.sub 0.04 0))%float.
Proof.
  destruct (unsmoothed_velocity_is_finite_difference fit_identity 0
              [two_rows] SAVGOL 7%Z 1%Z None 0 _ two_rows _ "Home_1"
              [0; 0.04]%float [0; 0.1]%float [0; 0]%float 0
              0%float 0.04%float 0%float 0.1%float 0%float 0%float
              eq_refl ltac:(vm_compute; reflexivity)
              ltac:(vm_compute; reflexivity) eq_refl eq_refl eq_refl eq_refl
              eq_refl eq_refl eq_refl eq_refl eq_refl eq_refl eq_refl)
    as (vx & vy & speed & Gx & _ & _ & Hx & _).
  exists vx. split; [exact Gx|]. apply Hx. reflexivity.
Defined.

Lemma moving_average_returns_iff_witness :
  exists out,
    smooth_moving_average [1; 2; 3]%Z None 2 [1; 2; 3]%float [0; 0; 0]%float
    = Ok out.
Proof.
  apply (proj1 (moving_average_returns_iff [1; 2; 3]%Z None 2%Z
                  [1; 2; 3]%float [0; 0; 0]%float eq_refl eq_refl)).
  split; [lia|]. repeat constructor. simpl. lia.
Defined.

Lemma moving_average_estimator_returns_iff_witness :
  exists t',
    fst (calc_player_velocities fit_identity 0 true MOVING_AVERAGE 3 1
           (Some 12%float) [three_rows]) = Ok t'.
Proof.
  apply (proj1 (moving_average_estimator_returns_iff fit_identity 0
                  [three_rows] three_rows 3%Z 1%Z (Some 12%float) eq_refl
                  ltac:(repeat constructor) ltac:(simpl; auto)
                  (complete_players_check three_rows eq_refl))).
  right. split; [lia|]. repeat constructor. simpl. lia.
Defined.

Lemma remove_player_velocities_spec_witness :
  exists out,
    nth_error (snd (remove_player_velocities 0 [two_rows_stale])) 1
      = Some out /\
    names out = ["Time [s]"; "Home_1_x"; "Home_1_y"] /\
    nth_error (snd (remove_player_velocities 0 [two_rows_stale])) 0
      = Some two_rows_stale.
Proof.
  destruct (remove_player_velocities_spec 0 [two_rows_stale] two_rows_stale
              eq_refl) as (t' & out & Hf & Ho & Hk & _ & Hn & _).
  injection Hf as <-. exists out. split; [exact Ho|]. split; [exact Hn|].
  apply (Hk 0). simpl. lia.
Defined.

Lemma segments_of_sorted_index_witness :
  segment_sizes [1; 2; 3; 4; 5; 6]%Z (Some 4%Z) = [4; 3].
Proof.
  apply (proj1 (segments_of_sorted_index [1; 2; 3; 4; 5; 6]%Z 4 3 1
                  ltac:(repeat constructor) eq_refl)).
Defined.

Lemma estimator_footprint_witness :
  length (snd (calc_player_velocities fit_identity 0 true SAVGOL 7 1
                 (Some 12%float) [two_rows_stale])) = 2 /\
  length (snd (calc_player_velocities fit_identity 0 true SAVGOL 7 1
                 (Some 12%float) [two_rows])) = 1.
Proof.
  split.
  - exact (proj1 (proj2 (estimator_footprint fit_identity 0 [two_rows_stale]
                           two_rows_stale true SAVGOL 7%Z 1%Z (Some 12%float)
                           eq_refl))).
  - exact (proj1 (proj2 (estimator_footprint fit_identity 0 [two_rows]
                           two_rows true SAVGOL 7%Z 1%Z (Some 12%float)
                           eq_refl))).
Defined.

Lemma speed_matches_components_witness :
  exists vx vy,
    get_column
      (nth 0 (snd (calc_player_velocities fit_identity 0 true SAVGOL 7 1
                     (Some 12%float) [two_rows])) two_rows) "Home_1_vy"
      = Ok vy /\
    get_column
      (nth 0 (snd (calc_player_velocities fit_identity 0 true SAVGOL 7 1
                     (Some 12%float) [two_rows])) two_rows) "Home_1_speed"
      = Ok (sspeed vx vy).
Proof.
  eexists.
  destruct (speed_matches_components fit_identity 0 [two_rows] true SAVGOL
              7%Z 1%Z (Some 12%float) 0 _ _ "Home_1" _
              ltac:(vm_compute; reflexivity) ltac:(vm_compute; reflexivity)
              ltac:(vm_compute; reflexivity))
    as (vy & Gy & Gs & _).
  exists vy. split; [exact Gy|exact Gs].
Defined.

Lemma main_frames_spec_witness :
  exists frames,
    fst (main_frames fit_identity 0 1 1 [two_rows; two_rows])
      = Ok (0, 1, frames) /\
    select_frames two_rows two_rows 1 = Ok frames.
Proof.
  destruct (main_frames_spec fit_identity 0 1 1%Z [two_rows; two_rows] _ _
              two_rows two_rows 0 1 eq_refl eq_refl ltac:(discriminate)
              ltac:(vm_compute; reflexivity) ltac:(vm_compute; reflexivity)
              ltac:(discriminate))
    as (frames & oh & oa & Hm & _ & _ & _ & _ & Hs & _).
  exists frames. rewrite Hm. split; [reflexivity|exact Hs].
Defined.

Lemma stale_fields_are_never_read_witness :
  exists t2' out,
    fst (calc_player_velocities fit_identity 0 true SAVGOL 7 1
           (Some 12%float) [two_rows_stale]) = Ok t2' /\
    nth_error (snd (calc_player_velocities fit_identity 0 true SAVGOL 7 1
                      (Some 12%float) [two_rows])) 0 = Some out /\
    nth_error (snd (calc_player_velocities fit_identity 0 true SAVGOL 7 1
                      (Some 12%float) [two_rows_stale])) t2' = Some out.
Proof.
  apply (proj2 (stale_fields_are_never_read fit_identity 0 0 [two_rows]
                  [two_rows_stale] two_rows two_rows_stale true SAVGOL 7%Z
                  1%Z (Some 12%float) eq_refl eq_refl eq_refl) 0).
  vm_compute. reflexivity.
Defined.
